(** * Distinct IPv6 address counting: a shallow embedding of
      [count_unique_ipv6.py] and the properties of its two engines.

    The program is Python.  Text is modelled as Python has it: a [str] is a
    sequence of Unicode code points (here a [list Z]); integers are unbounded
    ([Z]); exceptions are an explicit [result] monad; the file system and the
    other effects are threaded through a [World].  The standard-library
    functions the program calls ([ipaddress.IPv6Address], [str.strip],
    [hashlib.md5], [os.path], [tempfile]) are embedded from CPython 3.11. *)

From stdpp Require Import gmap strings list sorting.
From Stdlib Require Import ZArith Lia.

Open Scope Z_scope.

(** ** Exceptions and the [result] monad *)

Inductive exn : Type :=
  | AddressValueError   (* ipaddress.AddressValueError, a ValueError *)
  | ValueError
  | UnicodeEncodeError
  | IndexError
  | TypeError
  | OSError             (* any failing file-system operation *)
  | SystemExit.

Inductive result (A : Type) : Type :=
  | Ok (a : A)
  | Raise (e : exn).
Arguments Ok {A} a.
Arguments Raise {A} e.

#[global] Instance exn_eq_dec : EqDecision exn.
Proof. solve_decision. Defined.

#[global] Instance result_eq_dec {A} `{EqDecision A} : EqDecision (result A).
Proof. solve_decision. Defined.

#[global] Instance result_ret : MRet result := fun A a => Ok a.
#[global] Instance result_bind : MBind result := fun A B f m =>
  match m with
  | Ok a => f a
  | Raise e => Raise e
  end.

#[global] Instance result_fmap : FMap result := fun A B f m =>
  match m with
  | Ok a => Ok (f a)
  | Raise e => Raise e
  end.

(** [try: m except ValueError: raise AddressValueError]: both [ValueError] and
    its subclass [AddressValueError] are caught. *)
Definition except_ValueError {A} (m : result A) : result A :=
  match m with
  | Raise ValueError | Raise AddressValueError => Raise AddressValueError
  | r => r
  end.

Definition is_Ok {A} (r : result A) : bool :=
  match r with Ok _ => true | Raise _ => false end.

(** ** Python strings *)

Module PyStr.

(** A [str] is a list of code points. *)
Abbreviation str := (list Z).

Definition py (s : string) : str :=
  (fun a => Z.of_nat (Ascii.nat_of_ascii a)) <$> String.list_ascii_of_string s.

Definition LF : Z := 10.
Definition CR : Z := 13.
Definition PERCENT : Z := 37.
Definition DOT : Z := 46.
Definition SLASH : Z := 47.
Definition ZERO : Z := 48.
Definition COLON : Z := 58.

Definition inb (c : Z) (s : str) : bool := existsb (Z.eqb c) s.

(** [not s] *)
Definition is_empty (s : str) : bool :=
  match s with [] => true | _ => false end.

(** [str.isspace] of one code point (CPython's [_PyUnicode_IsWhitespace]). *)
Definition isspace (c : Z) : bool :=
  ((9 <=? c) && (c <=? 13)) || ((28 <=? c) && (c <=? 32))
  || (c =? 133) || (c =? 160) || (c =? 5760)
  || ((8192 <=? c) && (c <=? 8202))
  || (c =? 8232) || (c =? 8233) || (c =? 8239) || (c =? 8287) || (c =? 12288).

Fixpoint lstrip (s : str) : str :=
  match s with
  | c :: s' => if isspace c then lstrip s' else s
  | [] => []
  end.

Definition rstrip (s : str) : str := reverse (lstrip (reverse s)).

Definition strip (s : str) : str := rstrip (lstrip s).

(** [s.split(sep)] for a one-character separator. *)
Fixpoint split (sep : Z) (s : str) : list str :=
  match s with
  | [] => [[]]
  | c :: s' =>
      if c =? sep then [] :: split sep s'
      else match split sep s' with
           | p :: ps => (c :: p) :: ps
           | [] => [[c]]
           end
  end.

(** [sep.join(parts)] *)
Fixpoint join (sep : str) (parts : list str) : str :=
  match parts with
  | [] => []
  | [p] => p
  | p :: ps => p ++ sep ++ join sep ps
  end.

(** [s.partition(sep)]: text before the first [sep], whether [sep] was
    found, and the text after it. *)
Fixpoint partition (sep : Z) (s : str) : str * bool * str :=
  match s with
  | [] => ([], false, [])
  | c :: s' =>
      if c =? sep then ([], true, s')
      else let '(a, found, b) := partition sep s' in (c :: a, found, b)
  end.

(** [str.lower] on the ASCII range, which is all the program applies it to
    (the output of [exploded]). *)
Definition lower_char (c : Z) : Z :=
  if (65 <=? c) && (c <=? 90) then c + 32 else c.
Definition lower (s : str) : str := lower_char <$> s.

(** Value of a digit in [int(s, base)]. *)
Definition digit_val (c : Z) : option Z :=
  if (48 <=? c) && (c <=? 57) then Some (c - 48)
  else if (97 <=? c) && (c <=? 102) then Some (c - 87)
  else if (65 <=? c) && (c <=? 70) then Some (c - 55)
  else None.

Fixpoint int_digits (base : Z) (acc : Z) (s : str) : result Z :=
  match s with
  | [] => Ok acc
  | c :: s' =>
      match digit_val c with
      | Some d => if d <? base then int_digits base (base * acc + d) s'
                  else Raise ValueError
      | None => Raise ValueError
      end
  end.

(** [int(s, base)] on the strings the program passes: plain digit strings.
    The empty string is a [ValueError], as in Python. *)
Definition int (s : str) (base : Z) : result Z :=
  match s with
  | [] => Raise ValueError
  | _ => int_digits base 0 s
  end.

Definition hex_digit (d : Z) : Z := if d <? 10 then 48 + d else 87 + d.

Fixpoint digits_aux (base : Z) (fuel : nat) (n : Z) (acc : str) : str :=
  match fuel with
  | O => acc
  | S fuel' =>
      let acc' := hex_digit (n mod base) :: acc in
      if n / base =? 0 then acc' else digits_aux base fuel' (n / base) acc'
  end.

(** ['%x' % n] and ['%d' % n] for [0 <= n]. *)
Definition format_x (n : Z) : str :=
  digits_aux 16 (S (Z.to_nat (Z.log2 n))) n [].
Definition format_d (n : Z) : str :=
  digits_aux 10 (S (Z.to_nat (Z.log2 n))) n [].

(** Zero padding to a minimal width: ['%032x'], [f"{i:04d}"]. *)
Definition zfill (width : nat) (s : str) : str :=
  replicate (width - length s) ZERO ++ s.

(** [s[a:b]] for [0 <= a <= b]. *)
Definition slice (a b : nat) (s : str) : str := take (b - a) (drop a s).

Definition isascii_digit (c : Z) : bool := (48 <=? c) && (c <=? 57).

End PyStr.
Import PyStr.

(** ** [ipaddress] (CPython 3.11, [Lib/ipaddress.py]) *)

Module ipaddress.

Definition _HEX_DIGITS : str := py "0123456789ABCDEFabcdef".
Definition _HEXTET_COUNT : nat := 8.

(** [_BaseV4._parse_octet] *)
Definition _parse_octet (octet_str : str) : result Z :=
  match octet_str with
  | [] => Raise ValueError
  | c0 :: _ =>
      if negb (forallb isascii_digit octet_str) then Raise ValueError
      else if (3 <? length octet_str)%nat then Raise ValueError
      else if negb (bool_decide (octet_str = [ZERO])) && (c0 =? ZERO)
           then Raise ValueError
      else
        octet_int ← int octet_str 10;
        if 255 <? octet_int then Raise ValueError else Ok octet_int
  end.

(** [int.from_bytes(map(f, xs), 'big')] *)
Fixpoint from_bytes_map (f : str -> result Z) (acc : Z) (xs : list str)
  : result Z :=
  match xs with
  | [] => Ok acc
  | x :: xs' => b ← f x; from_bytes_map f (acc * 256 + b) xs'
  end.

(** [_BaseV4._ip_int_from_string] *)
Definition v4_ip_int_from_string (ip_str : str) : result Z :=
  match ip_str with
  | [] => Raise AddressValueError
  | _ =>
      let octets := split DOT ip_str in
      if negb (length octets =? 4)%nat then Raise AddressValueError
      else except_ValueError (from_bytes_map _parse_octet 0 octets)
  end.

(** [IPv4Address(address)._ip] for a string argument *)
Definition IPv4Address_ip (address : str) : result Z :=
  if inb SLASH address then Raise AddressValueError
  else v4_ip_int_from_string address.

(** [_BaseV6._parse_hextet] *)
Definition _parse_hextet (hextet_str : str) : result Z :=
  if negb (forallb (fun c => inb c _HEX_DIGITS) hextet_str)
  then Raise ValueError
  else if (4 <? length hextet_str)%nat then Raise ValueError
  else int hextet_str 16.

(** The loop looking for the one ['::']: [skip_index] over
    [range(1, len(parts) - 1)]. *)
Fixpoint find_skip (i : nat) (mid : list str) (skip_index : option nat)
  : result (option nat) :=
  match mid with
  | [] => Ok skip_index
  | p :: mid' =>
      match p with
      | [] =>
          match skip_index with
          | Some _ => Raise AddressValueError
          | None => find_skip (S i) mid' (Some i)
          end
      | _ => find_skip (S i) mid' skip_index
      end
  end.

(** [for p in ...: ip_int <<= 16; ip_int |= _parse_hextet(p)] *)
Fixpoint shift_in (ip_int : Z) (ps : list str) : result Z :=
  match ps with
  | [] => Ok ip_int
  | p :: ps' =>
      h ← _parse_hextet p;
      shift_in (Z.lor (Z.shiftl ip_int 16) h) ps'
  end.

(** [_BaseV6._ip_int_from_string] *)
Definition _ip_int_from_string (ip_str : str) : result Z :=
  if is_empty ip_str then Raise AddressValueError else
  let parts := split COLON ip_str in
  if (length parts <? 3)%nat then Raise AddressValueError else
  (* IPv4-style suffix *)
  parts ←
    (if inb DOT (default [] (last parts)) then
       match IPv4Address_ip (default [] (last parts)) with
       | Raise _ => Raise AddressValueError
       | Ok ipv4_int =>
           Ok (removelast parts
               ++ [format_x (Z.land (Z.shiftr ipv4_int 16) 65535)]
               ++ [format_x (Z.land ipv4_int 65535)])
       end
     else Ok parts);
  if (_HEXTET_COUNT + 1 <? length parts)%nat then Raise AddressValueError else
  skip_index ← find_skip 1 (removelast (tail parts)) None;
  '(parts_hi, parts_lo, parts_skipped) ←
    match skip_index with
    | Some skip_index =>
        let parts_hi := skip_index in
        let parts_lo := (length parts - skip_index - 1)%nat in
        parts_hi ←
          (if is_empty (default [] (head parts)) then
             if negb (parts_hi - 1 =? 0)%nat then Raise AddressValueError
             else Ok (parts_hi - 1)%nat
           else Ok parts_hi);
        parts_lo ←
          (if is_empty (default [] (last parts)) then
             if negb (parts_lo - 1 =? 0)%nat then Raise AddressValueError
             else Ok (parts_lo - 1)%nat
           else Ok parts_lo);
        let parts_skipped :=
          Z.of_nat _HEXTET_COUNT - Z.of_nat (parts_hi + parts_lo) in
        if parts_skipped <? 1 then Raise AddressValueError
        else Ok (parts_hi, parts_lo, parts_skipped)
    | None =>
        if negb (length parts =? _HEXTET_COUNT)%nat
        then Raise AddressValueError
        else if is_empty (default [] (head parts))
        then Raise AddressValueError
        else if is_empty (default [] (last parts))
        then Raise AddressValueError
        else Ok (length parts, 0%nat, 0)
    end;
  except_ValueError (
    ip_int ← shift_in 0 (take parts_hi parts);
    let ip_int := Z.shiftl ip_int (16 * parts_skipped) in
    shift_in ip_int (drop (length parts - parts_lo) parts)).

(** The scan of [_compress_hextets]: the start and the length of the first
    longest run of ["0"] hextets.  [st] and [ln] are the running
    [doublecolon_start] and [doublecolon_len]; -1 is "no run". *)
Fixpoint best_run (index : Z) (hextets : list str)
    (best_st best_ln st ln : Z) : Z * Z :=
  match hextets with
  | [] => (best_st, best_ln)
  | h :: hs =>
      if bool_decide (h = [ZERO]) then
        let ln := ln + 1 in
        let st := if st =? -1 then index else st in
        if best_ln <? ln
        then best_run (index + 1) hs st ln st ln
        else best_run (index + 1) hs best_st best_ln st ln
      else best_run (index + 1) hs best_st best_ln (-1) 0
  end.

(** [_BaseV6._compress_hextets] *)
Definition _compress_hextets (hextets : list str) : list str :=
  let '(best_st, best_ln) := best_run 0 hextets (-1) 0 (-1) 0 in
  if 1 <? best_ln then
    let best_end := best_st + best_ln in
    let hextets :=
      if best_end =? Z.of_nat (length hextets) then hextets ++ [[]]
      else hextets in
    let hextets :=
      take (Z.to_nat best_st) hextets ++ [[]]
      ++ drop (Z.to_nat best_end) hextets in
    if best_st =? 0 then [] :: hextets else hextets
  else hextets.

(** The eight four-character groups of ['%032x' % ip_int]. *)
Definition hex_groups (ip_int : Z) : list str :=
  let hex_str := zfill 32 (format_x ip_int) in
  (fun x => slice x (x + 4) hex_str) <$> [0; 4; 8; 12; 16; 20; 24; 28]%nat.

(** [_BaseV6._string_from_ip_int] *)
Definition _string_from_ip_int (ip_int : Z) : result str :=
  if 2 ^ 128 - 1 <? ip_int then Raise ValueError else
  hextets ← mapM (fun g => format_x <$> int g 16) (hex_groups ip_int);
  Ok (join [COLON] (_compress_hextets hextets)).

(** An [IPv6Address] object. *)
Record IPv6Address : Type := {
  _ip : Z;
  _scope_id : option str;
}.

(** [_BaseV6._split_scope_id] *)
Definition _split_scope_id (ip_str : str) : result (str * option str) :=
  let '(addr, sep, scope_id) := partition PERCENT ip_str in
  if negb sep then Ok (addr, None)
  else if is_empty scope_id || inb PERCENT scope_id
  then Raise AddressValueError
  else Ok (addr, Some scope_id).

(** [IPv6Address.__init__] for a string argument *)
Definition IPv6Address_init (address : str) : result IPv6Address :=
  if inb SLASH address then Raise AddressValueError else
  '(addr_str, scope_id) ← _split_scope_id address;
  ip ← _ip_int_from_string addr_str;
  Ok {| _ip := ip; _scope_id := scope_id |}.

(** [IPv6Address.__str__] *)
Definition __str__ (self : IPv6Address) : result str :=
  ip_str ← _string_from_ip_int (_ip self);
  match _scope_id self with
  | Some scope_id =>
      if is_empty scope_id then Ok ip_str
      else Ok (ip_str ++ [PERCENT] ++ scope_id)
  | None => Ok ip_str
  end.

(** [_BaseV6._explode_shorthand_ip_string], which is [exploded] *)
Definition exploded (self : IPv6Address) : result str :=
  ip_str ← __str__ self;
  ip_int ← _ip_int_from_string ip_str;
  Ok (join [COLON] (hex_groups ip_int)).

End ipaddress.

(** ** [count_unique_ipv6.py] *)

(** [ipv6_to_canonical] *)
Definition ipv6_to_canonical (addr_str : str) : result str :=
  addr ← ipaddress.IPv6Address_init (strip addr_str);
  e ← ipaddress.exploded addr;
  Ok (lower e).

(** ** [str.encode()] (UTF-8) and [hashlib.md5] (RFC 1321) *)

Module hashlib.

(** [s.encode()]: UTF-8; a surrogate code point is a [UnicodeEncodeError]. *)
Definition encode_char (c : Z) : result (list Z) :=
  if c <? 128 then Ok [c]
  else if c <? 2048 then
    Ok [Z.lor 192 (Z.shiftr c 6); Z.lor 128 (Z.land c 63)]
  else if (55296 <=? c) && (c <=? 57343) then Raise UnicodeEncodeError
  else if c <? 65536 then
    Ok [Z.lor 224 (Z.shiftr c 12); Z.lor 128 (Z.land (Z.shiftr c 6) 63);
        Z.lor 128 (Z.land c 63)]
  else
    Ok [Z.lor 240 (Z.shiftr c 18); Z.lor 128 (Z.land (Z.shiftr c 12) 63);
        Z.lor 128 (Z.land (Z.shiftr c 6) 63); Z.lor 128 (Z.land c 63)].

Fixpoint encode (s : str) : result (list Z) :=
  match s with
  | [] => Ok []
  | c :: s' => b ← encode_char c; bs ← encode s'; Ok (b ++ bs)
  end.

Definition w32 (x : Z) : Z := Z.land x 4294967295.
Definition not32 (x : Z) : Z := Z.lxor x 4294967295.
Definition rotl (x : Z) (c : Z) : Z :=
  w32 (Z.lor (Z.shiftl x c) (Z.shiftr x (32 - c))).

Definition K : list Z := [
    0xd76aa478; 0xe8c7b756; 0x242070db; 0xc1bdceee; 0xf57c0faf; 0x4787c62a; 0xa8304613; 0xfd469501;
    0x698098d8; 0x8b44f7af; 0xffff5bb1; 0x895cd7be; 0x6b901122; 0xfd987193; 0xa679438e; 0x49b40821;
    0xf61e2562; 0xc040b340; 0x265e5a51; 0xe9b6c7aa; 0xd62f105d; 0x02441453; 0xd8a1e681; 0xe7d3fbc8;
    0x21e1cde6; 0xc33707d6; 0xf4d50d87; 0x455a14ed; 0xa9e3e905; 0xfcefa3f8; 0x676f02d9; 0x8d2a4c8a;
    0xfffa3942; 0x8771f681; 0x6d9d6122; 0xfde5380c; 0xa4beea44; 0x4bdecfa9; 0xf6bb4b60; 0xbebfbc70;
    0x289b7ec6; 0xeaa127fa; 0xd4ef3085; 0x04881d05; 0xd9d4d039; 0xe6db99e5; 0x1fa27cf8; 0xc4ac5665;
    0xf4292244; 0x432aff97; 0xab9423a7; 0xfc93a039; 0x655b59c3; 0x8f0ccc92; 0xffeff47d; 0x85845dd1;
    0x6fa87e4f; 0xfe2ce6e0; 0xa3014314; 0x4e0811a1; 0xf7537e82; 0xbd3af235; 0x2ad7d2bb; 0xeb86d391 ].

Definition shifts : list Z := [
    7; 12; 17; 22; 7; 12; 17; 22; 7; 12; 17; 22; 7; 12; 17; 22;
    5; 9; 14; 20; 5; 9; 14; 20; 5; 9; 14; 20; 5; 9; 14; 20;
    4; 11; 16; 23; 4; 11; 16; 23; 4; 11; 16; 23; 4; 11; 16; 23;
    6; 10; 15; 21; 6; 10; 15; 21; 6; 10; 15; 21; 6; 10; 15; 21 ].

(** little-endian words *)
Definition le_bytes (n : nat) (x : Z) : list Z :=
  (fun i => Z.land (Z.shiftr x (8 * Z.of_nat i)) 255) <$> seq 0 n.
Definition le_word (bs : list Z) : Z :=
  foldr (fun b acc => b + 256 * acc) 0 bs.

Fixpoint chunks (n : nat) (size : nat) (bs : list Z) : list (list Z) :=
  match n with
  | O => []
  | S n' => take size bs :: chunks n' size (drop size bs)
  end.

(** message padding: 0x80, zeros up to 56 mod 64, the bit length on 64 bits *)
Definition pad (msg : list Z) : list Z :=
  let len := Z.of_nat (length msg) in
  let zeros := Z.to_nat ((55 - len) mod 64) in
  msg ++ [128] ++ replicate zeros 0 ++ le_bytes 8 ((8 * len) mod 2 ^ 64).

Definition state : Type := Z * Z * Z * Z.

Definition round (M : list Z) (st : state) (i : nat) : state :=
  let '(A, B, C, D) := st in
  let '(F, g) :=
    if (i <? 16)%nat then
      (Z.lor (Z.land B C) (Z.land (not32 B) D), i)
    else if (i <? 32)%nat then
      (Z.lor (Z.land D B) (Z.land (not32 D) C), (5 * i + 1) mod 16)%nat
    else if (i <? 48)%nat then
      (Z.lxor (Z.lxor B C) D, (3 * i + 5) mod 16)%nat
    else
      (Z.lxor C (Z.lor B (not32 D)), (7 * i) mod 16)%nat in
  let F := w32 (F + A + default 0 (K !! i) + default 0 (M !! g)) in
  (D, w32 (B + rotl F (default 0 (shifts !! i))), B, C).

Definition process (st : state) (block : list Z) : state :=
  let M := le_word <$> chunks 16 4 block in
  let '(a0, b0, c0, d0) := st in
  let '(A, B, C, D) := foldl (round M) st (seq 0 64) in
  (w32 (a0 + A), w32 (b0 + B), w32 (c0 + C), w32 (d0 + D)).

(** [hashlib.md5(data).digest()] *)
Definition md5 (data : list Z) : list Z :=
  let padded := pad data in
  let '(a, b, c, d) :=
    foldl process (0x67452301, 0xefcdab89, 0x98badcfe, 0x10325476)
          (chunks (length padded / 64) 64 padded) in
  le_bytes 4 a ++ le_bytes 4 b ++ le_bytes 4 c ++ le_bytes 4 d.

(** [.hexdigest()]: two lowercase hexadecimal digits per byte *)
Definition hexdigest (digest : list Z) : str :=
  digest ≫= (fun b => [hex_digit (b / 16); hex_digit (b mod 16)]).

End hashlib.

(** ** The world: file system and environment

    A regular file is identified by the directory and the name that
    [posixpath.split] gives for its path, and holds its text (what decoding
    its bytes as UTF-8 yields).  The world also fixes what the program cannot
    decide itself: how many I/O operations succeed before the first one fails,
    [os.cpu_count()], the names [tempfile.mkdtemp] will try, and when each
    counting task finishes. *)

Record World : Type := {
  w_dirs : gmap str (gmap str str);   (* directory ↦ (file name ↦ text) *)
  w_io : option nat;                  (* operations left before an OSError;
                                         [None]: I/O never fails *)
  w_cpu_count : option Z;             (* [os.cpu_count()], possibly [None] *)
  w_tmp : list str;                   (* paths [mkdtemp] tries, in order *)
  w_finish : str -> nat;              (* completion time of the task that
                                         counts the given spill file *)
}.

Definition set_dirs (f : gmap str (gmap str str) -> gmap str (gmap str str))
    (w : World) : World :=
  {| w_dirs := f (w_dirs w); w_io := w_io w; w_cpu_count := w_cpu_count w;
     w_tmp := w_tmp w; w_finish := w_finish w |}.

Definition set_io (n : option nat) (w : World) : World :=
  {| w_dirs := w_dirs w; w_io := n; w_cpu_count := w_cpu_count w;
     w_tmp := w_tmp w; w_finish := w_finish w |}.

Definition set_tmp (l : list str) (w : World) : World :=
  {| w_dirs := w_dirs w; w_io := w_io w; w_cpu_count := w_cpu_count w;
     w_tmp := l; w_finish := w_finish w |}.

(** Effectful code: a state and exception monad over the world. *)
Record io (A : Type) : Type := IO { run : World -> result A * World }.
Arguments IO {A} _.
Arguments run {A} _ _.

#[global] Instance io_ret : MRet io := fun A a => IO (fun w => (Ok a, w)).
#[global] Instance io_bind : MBind io := fun A B f m => IO (fun w =>
  match run m w with
  | (Ok a, w') => run (f a) w'
  | (Raise e, w') => (Raise e, w')
  end).

Definition lift {A} (r : result A) : io A := IO (fun w => (r, w)).
Definition raise {A} (e : exn) : io A := IO (fun w => (Raise e, w)).

(** [for x in xs: acc = body(acc, x)] *)
Fixpoint for_each {A S} (body : S -> A -> io S) (acc : S) (xs : list A)
  : io S :=
  match xs with
  | [] => mret acc
  | x :: xs' => acc' ← body acc x; for_each body acc' xs'
  end.

Definition tick : io unit := IO (fun w =>
  match w_io w with
  | None => (Ok (), w)
  | Some O => (Raise OSError, w)
  | Some (S n) => (Ok (), set_io (Some n) w)
  end).

Module os.

Definition ends_with_slash (a : str) : bool :=
  match last a with Some c => c =? SLASH | None => false end.

(** [posixpath.join(a, b)] *)
Definition path_join (a b : str) : str :=
  if match b with c :: _ => c =? SLASH | [] => false end then b
  else if is_empty a || ends_with_slash a then a ++ b
  else a ++ [SLASH] ++ b.

Fixpoint lstrip_slash (s : str) : str :=
  match s with
  | c :: s' => if c =? SLASH then lstrip_slash s' else s
  | [] => []
  end.

Fixpoint until_slash (s : str) : str :=
  match s with
  | c :: s' => if c =? SLASH then [] else c :: until_slash s'
  | [] => []
  end.

(** The directory part as [posixpath.split] normalises it: trailing
    slashes are dropped unless the whole string is slashes. *)
Definition dirkey (head : str) : str :=
  if forallb (Z.eqb SLASH) head then head
  else reverse (lstrip_slash (reverse head)).

(** [posixpath.split(p)] *)
Definition path_split (p : str) : str * str :=
  let tail := reverse (until_slash (reverse p)) in
  let head := take (length p - length tail) p in
  (dirkey head, tail).

Definition lookup_file (p : str) (w : World) : option str :=
  let '(d, n) := path_split p in
  files ← w_dirs w !! d; files !! n.

Definition store_file (p : str) (text : str) (w : World) : World :=
  let '(d, n) := path_split p in
  set_dirs (alter (insert n text) d) w.

(** [os.path.isfile(p)] *)
Definition isfile (p : str) : io bool := IO (fun w =>
  (Ok (bool_decide (is_Some (lookup_file p w))), w)).

Definition utf8_width (c : Z) : Z :=
  if c <? 128 then 1 else if c <? 2048 then 2
  else if c <? 65536 then 3 else 4.

(** [os.path.getsize(p)]: the size in bytes *)
Definition getsize (p : str) : io Z :=
  _ ← tick;
  IO (fun w =>
    match lookup_file p w with
    | Some text => (Ok (foldr (fun c n => utf8_width c + n) 0 text), w)
    | None => (Raise OSError, w)
    end).

(** [open(p, 'w')]: the file is created or truncated; its directory must
    exist.  The file object is identified with the path. *)
Definition open_w (p : str) : io unit :=
  _ ← tick;
  IO (fun w =>
    match w_dirs w !! (path_split p).1 with
    | Some _ => (Ok (), store_file p [] w)
    | None => (Raise OSError, w)
    end).

(** [open(p, 'a')]: the file is created when missing, and kept otherwise. *)
Definition open_a (p : str) : io unit :=
  _ ← tick;
  IO (fun w =>
    match w_dirs w !! (path_split p).1 with
    | Some _ =>
        match lookup_file p w with
        | Some _ => (Ok (), w)
        | None => (Ok (), store_file p [] w)
        end
    | None => (Raise OSError, w)
    end).

(** [fh.write(text)] on a file opened for writing or appending *)
Definition write (p : str) (text : str) : io unit :=
  _ ← tick;
  IO (fun w =>
    match lookup_file p w with
    | Some old => (Ok (), store_file p (old ++ text) w)
    | None => (Raise OSError, w)
    end).

(** [fh.writelines(lines)] *)
Definition writelines (p : str) (lines : list str) : io unit :=
  write p (concat lines).

(** Universal newlines: ["\r\n"] and ["\r"] are read as ["\n"]. *)
Fixpoint translate_newlines (s : str) : str :=
  match s with
  | [] => []
  | c :: s' =>
      if c =? CR then
        match s' with
        | c' :: s'' =>
            if c' =? LF then LF :: translate_newlines s''
            else LF :: translate_newlines s'
        | [] => [LF]
        end
      else c :: translate_newlines s'
  end.

(** The lines a text-mode file yields: each ends after its ["\n"], the
    last one possibly without. *)
Fixpoint lines_from (cur : str) (s : str) : list str :=
  match s with
  | [] => if is_empty cur then [] else [cur]
  | c :: s' =>
      if c =? LF then (cur ++ [LF]) :: lines_from [] s'
      else lines_from (cur ++ [c]) s'
  end.

Definition iter_lines (text : str) : list str :=
  lines_from [] (translate_newlines text).

(** [with open(p, 'r', ...) as f: for line in f] : the lines of [p] *)
Definition read_lines (p : str) : io (list str) :=
  _ ← tick;
  IO (fun w =>
    match lookup_file p w with
    | Some text => (Ok (iter_lines text), w)
    | None => (Raise OSError, w)
    end).

End os.

Module tempfile.

Definition exists_path (c : str) (w : World) : bool :=
  bool_decide (is_Some (w_dirs w !! os.dirkey c))
  || bool_decide (is_Some (os.lookup_file c w)).

(** [tempfile.mkdtemp]: the first proposed path that does not exist yet is
    created as an empty directory; running out of names is an error. *)
Fixpoint mkdtemp_from (cands : list str) (w : World) : result str * World :=
  match cands with
  | [] => (Raise OSError, set_tmp [] w)
  | c :: cands' =>
      if exists_path c w then mkdtemp_from cands' w
      else (Ok c, set_tmp cands' (set_dirs (insert (os.dirkey c) ∅) w))
  end.

Definition mkdtemp : io str :=
  _ ← tick; IO (fun w => mkdtemp_from (w_tmp w) w).

(** [shutil.rmtree(d)]: the directory goes, with the files in it. *)
Definition rmtree (d : str) (w : World) : World :=
  set_dirs (delete (os.dirkey d)) w.

(** [with tempfile.TemporaryDirectory(...) as tmpdir: body]: the directory
    is removed when the block is left, normally or by an exception. *)
Definition TemporaryDirectory {A} (body : str -> io A) : io A := IO (fun w =>
  match run mkdtemp w with
  | (Ok tmpdir, w1) =>
      let '(r, w2) := run (body tmpdir) w1 in (r, rmtree tmpdir w2)
  | (Raise e, w1) => (Raise e, w1)
  end).

End tempfile.

(** ** [count_unique_ipv6.py]: the two engines and [main] *)

Definition MEMORY_MODE_THRESHOLD : Z := 50 * 1024 * 1024.
Definition NUM_PARTITIONS : Z := 4096.
Definition CHUNK_WRITE_SIZE : Z := 8 * 1024 * 1024.

(** [for x in xs: acc = body(acc, x)] for a body that only computes *)
Fixpoint foldM {A S} (body : S -> A -> result S) (acc : S) (xs : list A)
  : result S :=
  match xs with
  | [] => Ok acc
  | x :: xs' => acc' ← body acc x; foldM body acc' xs'
  end.

(** The loop body of [count_unique_in_partition]. *)
Definition add_line (unique : gset str) (line : str) : gset str :=
  let line := strip line in
  if is_empty line then unique else {[line]} ∪ unique.

(** [count_unique_in_partition] *)
Definition count_unique_in_partition (partition_path : str) : io Z :=
  lines ← os.read_lines partition_path;
  mret (Z.of_nat (size (foldl add_line ∅ lines))).

(** The loop body of [count_unique_basic]. *)
Definition add_canonical (unique : gset str) (line : str)
  : result (gset str) :=
  let line := strip line in
  if is_empty line then Ok unique
  else canonical ← ipv6_to_canonical line; Ok ({[canonical]} ∪ unique).

(** [count_unique_basic] *)
Definition count_unique_basic (input_path : str) : io Z :=
  lines ← os.read_lines input_path;
  unique ← lift (foldM add_canonical ∅ lines);
  mret (Z.of_nat (size unique)).

(** [f"part_{i:04d}.txt"] *)
Definition part_name (i : Z) : str :=
  py "part_" ++ zfill 4 (format_d i) ++ py ".txt".

Definition partition_paths (temp_dir : str) : list str :=
  (fun i => os.path_join temp_dir (part_name i)) <$> seqZ 0 NUM_PARTITIONS.

(** Lines 92-93: the partition of a canonical address,
    [int(hashlib.md5(canonical.encode()).hexdigest()[:8], 16) % NUM_PARTITIONS] *)
Definition partition_index (canonical : str) : result Z :=
  data ← hashlib.encode canonical;
  h ← int (take 8 (hashlib.hexdigest (hashlib.md5 data))) 16;
  Ok (h mod NUM_PARTITIONS).

(** [buffer[idx].append(x)], for [0 <= idx] *)
Definition buffer_append (idx : Z) (x : str) (buffer : list (list str))
  : result (list (list str)) :=
  match buffer !! Z.to_nat idx with
  | Some b => Ok (<[Z.to_nat idx := b ++ [x]]> buffer)
  | None => Raise IndexError
  end.

(** One round of [for i, fh in enumerate(partition_files)]: a non-empty
    [buffer[i]] is written to [fh], and emptied when [clear] is set (the
    flush inside the loop; the one after the loop leaves the buffers). *)
Definition flush_one (clear : bool) (buffer : list (list str))
    (ifh : nat * str) : io (list (list str)) :=
  let '(i, fh) := ifh in
  match buffer !! i with
  | None => raise IndexError
  | Some [] => mret buffer
  | Some b =>
      _ ← os.writelines fh b;
      mret (if clear then <[i := []]> buffer else buffer)
  end.

Definition enumerate {A} (l : list A) : list (nat * A) :=
  zip (seq 0 (length l)) l.

Definition flush (clear : bool) (partition_files : list str)
    (buffer : list (list str)) : io (list (list str)) :=
  for_each (flush_one clear) buffer (enumerate partition_files).

(** The body of the partitioning loop (lines 86-102); the state is
    [(buffer, buffer_size)]. *)
Definition partition_step (partition_files : list str)
    (st : list (list str) * Z) (line : str) : io (list (list str) * Z) :=
  let '(buffer, buffer_size) := st in
  let line := strip line in
  if is_empty line then mret (buffer, buffer_size) else
  canonical ← lift (ipv6_to_canonical line);
  idx ← lift (partition_index canonical);
  buffer ← lift (buffer_append idx (canonical ++ [LF]) buffer);
  let buffer_size := buffer_size + (Z.of_nat (length canonical) + 1) in
  if CHUNK_WRITE_SIZE <=? buffer_size then
    buffer ← flush true partition_files buffer;
    mret (buffer, 0)
  else mret (buffer, buffer_size).

(** Phase 1 (lines 80-109).  Closing a file is not modelled, so the
    [try ... finally] that closes the spill files leaves no trace. *)
Definition partition_phase (input_path : str) (paths : list str) : io unit :=
  partition_files ← for_each (fun fhs p => _ ← os.open_a p; mret (fhs ++ [p]))
                             [] paths;
  let buffer := replicate (Z.to_nat NUM_PARTITIONS) [] in
  lines ← os.read_lines input_path;
  '(buffer, _) ← for_each (partition_step partition_files) (buffer, 0) lines;
  _ ← flush false partition_files buffer;
  mret ().

(** [as_completed(futures)]: the tasks in the order they finish. *)
Definition finishes_before (finish : str -> nat) (p q : str) : Prop :=
  (finish p <= finish q)%nat.

#[global] Instance finishes_before_dec finish p q :
  Decision (finishes_before finish p q).
Proof. unfold finishes_before. apply _. Defined.

Definition as_completed (finish : str -> nat) (futures : list str) : list str :=
  merge_sort (finishes_before finish) futures.

(** Phase 2 (lines 112-119) *)
Definition counting_phase (paths : list str) (num_workers : Z) : io Z :=
  _ ← (if num_workers <=? 0 then raise ValueError else mret ());
  futures ← for_each (fun fs p => size ← os.getsize p;
                        mret (if 0 <? size then fs ++ [p] else fs)) [] paths;
  order ← IO (fun w => (Ok (as_completed (w_finish w) futures), w));
  for_each (fun total p => n ← count_unique_in_partition p; mret (total + n))
           0 order.

(** [count_unique_optimized] *)
Definition count_unique_optimized (input_path temp_dir : str) (num_workers : Z)
  : io Z :=
  num_workers ←
    (if num_workers =? 0 then
       IO (fun w => match w_cpu_count w with
                    | Some n => (Ok (Z.max 1 (n - 1)), w)
                    | None => (Raise TypeError, w)
                    end)
     else mret num_workers);
  let paths := partition_paths temp_dir in
  _ ← for_each (fun _ p => os.open_w p) () paths;
  _ ← partition_phase input_path paths;
  counting_phase paths num_workers.

(** The parsed command line. *)
Record Args : Type := {
  input_file : str;
  output_file : str;
  optimized : bool;
  basic : bool;
  workers : Z;
}.

(** [main], after [parser.parse_args()] *)
Definition main (args : Args) : io unit :=
  let input_path := input_file args in
  let output_path := output_file args in
  found ← os.isfile input_path;
  if negb found then raise SystemExit else
  count ←
    (if basic args then count_unique_basic input_path
     else
       partitioned ←
         (if optimized args then mret true
          else size ← os.getsize input_path;
               mret (MEMORY_MODE_THRESHOLD <? size)) : io bool;
       if partitioned : bool then
         tempfile.TemporaryDirectory (fun tmpdir =>
           count_unique_optimized input_path tmpdir (workers args))
       else count_unique_basic input_path);
  _ ← os.open_w output_path;
  os.write output_path (format_d count).

(** * Properties *)

(** ** Digit strings: [int] reads back what ['%x'] and ['%d'] write *)

Section digits.
Variable base : Z.
Hypothesis base_ge : 2 <= base.
Hypothesis base_le : base <= 16.

(** [c] is a digit of value [d] in the base. *)
Definition is_digit (c : Z) : Prop :=
  exists d, digit_val c = Some d /\ 0 <= d < base.

(** The number a digit string denotes, from an accumulator. *)
Definition acc_digits (a : Z) (s : str) : Z :=
  foldl (fun a c => base * a + default 0 (digit_val c)) a s.
Definition digits_val (s : str) : Z := acc_digits 0 s.

Lemma hex_digit_val d : 0 <= d < 16 -> digit_val (hex_digit d) = Some d.
Proof.
  intros Hd. unfold hex_digit, digit_val.
  destruct (d <? 10) eqn:E; [apply Z.ltb_lt in E | apply Z.ltb_ge in E].
  - replace ((48 <=? 48 + d) && (48 + d <=? 57)) with true
      by (symmetry; apply andb_true_iff; split; apply Z.leb_le; lia).
    f_equal; lia.
  - replace ((48 <=? 87 + d) && (87 + d <=? 57)) with false
      by (symmetry; apply andb_false_iff; right; apply Z.leb_gt; lia).
    replace ((97 <=? 87 + d) && (87 + d <=? 102)) with true
      by (symmetry; apply andb_true_iff; split; apply Z.leb_le; lia).
    f_equal; lia.
Qed.

Lemma hex_digit_is_digit d : 0 <= d < base -> is_digit (hex_digit d).
Proof. intros Hd. exists d. split; [apply hex_digit_val; lia | done]. Qed.

Lemma int_digits_app a s1 s2 :
  int_digits base a (s1 ++ s2) = a' ← int_digits base a s1; int_digits base a' s2.
Proof.
  revert a. induction s1 as [|c s1 IH]; intros a; simpl; [done|].
  destruct (digit_val c) as [d|]; [|done].
  destruct (d <? base); [apply IH | done].
Qed.

Lemma int_digits_valid a s :
  Forall is_digit s -> int_digits base a s = Ok (acc_digits a s).
Proof.
  intros Hs. revert a.
  induction Hs as [|c s (d & Hd & Hr) _ IH]; intros a; [done|].
  cbn [int_digits]. rewrite Hd.
  replace (d <? base) with true by (symmetry; apply Z.ltb_lt; lia).
  rewrite IH. unfold acc_digits. simpl. by rewrite Hd.
Qed.

Lemma acc_digits_val a s :
  acc_digits a s = a * base ^ Z.of_nat (length s) + digits_val s.
Proof.
  unfold digits_val. revert a.
  induction s as [|c s IH]; intros a.
  - simpl. lia.
  - unfold acc_digits in *. cbn [foldl length].
    rewrite IH, (IH (base * 0 + _)).
    rewrite Nat2Z.inj_succ, Z.pow_succ_r by lia. lia.
Qed.

Lemma digits_val_app s1 s2 :
  digits_val (s1 ++ s2)
  = digits_val s1 * base ^ Z.of_nat (length s2) + digits_val s2.
Proof.
  unfold digits_val at 1. unfold acc_digits. rewrite foldl_app.
  fold (acc_digits 0 s1). fold (digits_val s1).
  apply (acc_digits_val (digits_val s1) s2).
Qed.

Lemma digits_val_bounds s :
  Forall is_digit s -> 0 <= digits_val s < base ^ Z.of_nat (length s).
Proof.
  intros Hs. induction Hs as [|c s (d & Hd & Hr) Hs IH].
  - unfold digits_val; simpl. lia.
  - change (c :: s) with ([c] ++ s). rewrite digits_val_app.
    unfold digits_val at 1 3. unfold acc_digits. cbn [foldl app length].
    rewrite Hd. cbn [default].
    rewrite Nat2Z.inj_succ, Z.pow_succ_r by lia.
    set (P := base ^ Z.of_nat (length s)) in *.
    assert ((d + 1) * P <= base * P)
      by (apply Z.mul_le_mono_nonneg_r; lia).
    assert (0 <= d * P) by (apply Z.mul_nonneg_nonneg; lia).
    unfold id. replace (base * 0 + d) with d by lia. lia.
Qed.

(** Reading back what [digits_aux] wrote. *)
Lemma digits_aux_app fuel n acc :
  digits_aux base fuel n acc = digits_aux base fuel n [] ++ acc.
Proof.
  revert n acc. induction fuel as [|fuel IH]; intros n acc; [done|].
  cbn [digits_aux]. destruct (n / base =? 0); [done|].
  rewrite IH, (IH _ [_]), <- app_assoc. done.
Qed.

Lemma digits_aux_snoc fuel n :
  digits_aux base (S fuel) n []
  = if n / base =? 0 then [hex_digit (n mod base)]
    else digits_aux base fuel (n / base) [] ++ [hex_digit (n mod base)].
Proof.
  cbn [digits_aux]. destruct (n / base =? 0); [done|]. apply digits_aux_app.
Qed.

Lemma digits_aux_is_digit fuel n :
  0 <= n -> Forall is_digit (digits_aux base fuel n []).
Proof.
  revert n. induction fuel as [|fuel IH]; intros n Hn; [constructor|].
  assert (0 <= n mod base < base) by (apply Z.mod_pos_bound; lia).
  rewrite digits_aux_snoc. destruct (n / base =? 0).
  - apply Forall_singleton. by apply hex_digit_is_digit.
  - apply Forall_app. split; [apply IH; apply Z.div_pos; lia|].
    apply Forall_singleton. by apply hex_digit_is_digit.
Qed.

Lemma digits_aux_val fuel n :
  0 <= n < base ^ Z.of_nat fuel -> (0 < fuel)%nat ->
  digits_val (digits_aux base fuel n []) = n.
Proof.
  revert n. induction fuel as [|fuel IH]; intros n Hn Hf; [lia|].
  rewrite digits_aux_snoc.
  pose proof (Z.mod_pos_bound n base ltac:(lia)) as Hm.
  pose proof (Z.div_mod n base ltac:(lia)) as Hdm.
  assert (Hq : 0 <= n / base) by (apply Z.div_pos; lia).
  assert (Hq' : fuel <> O -> n / base < base ^ Z.of_nat fuel).
  { intros _. apply Z.div_lt_upper_bound; [lia|].
    rewrite Nat2Z.inj_succ, Z.pow_succ_r in Hn by lia. lia. }
  assert (Hq0 : fuel = O -> n / base = 0).
  { intros ->. apply Z.div_small. simpl in Hn. lia. }
  revert Hm Hdm Hq Hq' Hq0 IH.
  generalize (n mod base) as m, (n / base) as q. intros m q Hm Hdm Hq Hq' Hq0 IH.
  assert (Hone : digits_val [hex_digit m] = m).
  { unfold digits_val, acc_digits. simpl. rewrite hex_digit_val by lia.
    simpl. lia. }
  destruct (q =? 0) eqn:E.
  - apply Z.eqb_eq in E. rewrite Hone. subst q. lia.
  - apply Z.eqb_neq in E. rewrite digits_val_app, Hone.
    change (Z.of_nat (length [hex_digit m])) with 1.
    rewrite Z.pow_1_r.
    destruct (decide (fuel = O)) as [->|Hfu]; [by destruct E; apply Hq0|].
    rewrite IH; [lia| |lia]. split; [done|]. by apply Hq'.
Qed.

Lemma digits_aux_length fuel n k :
  0 <= n < base ^ Z.of_nat k -> (0 < k)%nat ->
  (0 < fuel)%nat ->
  (1 <= length (digits_aux base fuel n []) <= k)%nat.
Proof.
  revert n k. induction fuel as [|fuel IH]; intros n k Hn Hk Hf; [lia|].
  rewrite digits_aux_snoc. destruct (n / base =? 0) eqn:E; [simpl; lia|].
  apply Z.eqb_neq in E. rewrite length_app. simpl.
  destruct fuel as [|fuel]; [simpl; lia|].
  destruct k as [|k]; [lia|].
  rewrite Nat2Z.inj_succ, Z.pow_succ_r in Hn by lia.
  destruct k as [|k].
  { simpl in Hn. destruct E. apply Z.div_small. lia. }
  specialize (IH (n / base) (S k)).
  assert (0 <= n / base) by (apply Z.div_pos; lia).
  assert (n / base < base ^ Z.of_nat (S k))
    by (apply Z.div_lt_upper_bound; lia).
  lia.
Qed.

Lemma fuel_enough n : 0 <= n -> n < base ^ Z.of_nat (S (Z.to_nat (Z.log2 n))).
Proof.
  intros Hn. rewrite Nat2Z.inj_succ, Z2Nat.id by apply Z.log2_nonneg.
  destruct (decide (n = 0)) as [->|].
  - simpl. lia.
  - pose proof (Z.log2_spec n ltac:(lia)) as [_ H].
    eapply Z.lt_le_trans; [exact H|].
    apply Z.pow_le_mono_l. lia.
Qed.
End digits.

Arguments is_digit base c /.

(** ** The canonical form *)

Definition is_lower_hex (c : Z) : Prop := 48 <= c <= 57 \/ 97 <= c <= 102.

Lemma hex_digit_lower d : 0 <= d < 16 -> is_lower_hex (hex_digit d).
Proof.
  intros Hd. unfold hex_digit, is_lower_hex.
  destruct (d <? 10) eqn:E; [apply Z.ltb_lt in E | apply Z.ltb_ge in E]; lia.
Qed.

Lemma is_lower_hex_digit c : is_lower_hex c -> is_digit 16 c.
Proof.
  intros Hc. unfold is_digit, digit_val.
  destruct ((48 <=? c) && (c <=? 57)) eqn:E1.
  { apply andb_true_iff in E1 as [?%Z.leb_le ?%Z.leb_le]. eexists; split; [done|lia]. }
  destruct ((97 <=? c) && (c <=? 102)) eqn:E2.
  { apply andb_true_iff in E2 as [?%Z.leb_le ?%Z.leb_le]. eexists; split; [done|lia]. }
  apply andb_false_iff in E1, E2. unfold is_lower_hex in Hc.
  rewrite !Z.leb_gt in E1, E2. lia.
Qed.

Lemma digits_aux_lower fuel n :
  0 <= n -> Forall is_lower_hex (digits_aux 16 fuel n []).
Proof.
  revert n. induction fuel as [|fuel IH]; intros n Hn; [constructor|].
  assert (0 <= n mod 16 < 16) by (apply Z.mod_pos_bound; lia).
  rewrite digits_aux_snoc. destruct (n / 16 =? 0).
  - apply Forall_singleton. by apply hex_digit_lower.
  - apply Forall_app. split; [apply IH; apply Z.div_pos; lia|].
    apply Forall_singleton. by apply hex_digit_lower.
Qed.

Lemma format_x_lower n : 0 <= n -> Forall is_lower_hex (format_x n).
Proof. apply digits_aux_lower. Qed.

Lemma format_x_val n : 0 <= n -> digits_val 16 (format_x n) = n.
Proof.
  intros Hn. apply digits_aux_val; try lia.
  split; [done|]. apply fuel_enough; lia.
Qed.

Lemma format_x_length n k :
  0 <= n < 16 ^ Z.of_nat k -> (0 < k)%nat ->
  (1 <= length (format_x n) <= k)%nat.
Proof. intros. apply digits_aux_length; try done; lia. Qed.

Lemma format_d_val n : 0 <= n -> digits_val 10 (format_d n) = n.
Proof.
  intros Hn. apply digits_aux_val; try lia.
  split; [done|]. apply fuel_enough; lia.
Qed.

Lemma format_d_is_digit n : 0 <= n -> Forall (is_digit 10) (format_d n).
Proof. intros. apply digits_aux_is_digit; lia. Qed.

Lemma digits_val_zeros base k s :
  digits_val base (replicate k ZERO ++ s) = digits_val base s.
Proof.
  induction k as [|k IH]; [done|].
  unfold digits_val, acc_digits in *. cbn [replicate app foldl].
  change (digit_val ZERO) with (Some 0). cbn [default]. unfold id.
  replace (base * 0 + 0) with 0 by lia. apply IH.
Qed.

Lemma zfill_length w s : (length s <= w)%nat -> length (zfill w s) = w.
Proof. intros. unfold zfill. rewrite length_app, length_replicate. lia. Qed.

Lemma zero_lower_hex : is_lower_hex ZERO.
Proof. unfold is_lower_hex, ZERO. lia. Qed.

Lemma zfill_lower w s : Forall is_lower_hex s -> Forall is_lower_hex (zfill w s).
Proof.
  intros. unfold zfill. apply Forall_app. split; [|done].
  apply Forall_replicate, zero_lower_hex.
Qed.

Lemma pow_16_32 : 16 ^ Z.of_nat 32 = 2 ^ 128.
Proof. reflexivity. Qed.

(** The 32 digits of ['%032x' % v] for a 128-bit [v]. *)
Lemma hex_str_spec v :
  0 <= v < 2 ^ 128 ->
  let hex_str := zfill 32 (format_x v) in
  length hex_str = 32%nat /\ Forall is_lower_hex hex_str
  /\ digits_val 16 hex_str = v.
Proof.
  intros Hv hex_str. subst hex_str. split; [|split].
  - apply zfill_length. apply (format_x_length v 32); [|lia].
    rewrite pow_16_32. done.
  - apply zfill_lower, format_x_lower. lia.
  - unfold zfill. rewrite digits_val_zeros. apply format_x_val. lia.
Qed.

Lemma concat_slices (l : str) :
  length l = 32%nat ->
  concat ((fun x => slice x (x + 4) l) <$> [0; 4; 8; 12; 16; 20; 24; 28]%nat) = l.
Proof.
  intros Hl. unfold slice. cbn [fmap list_fmap concat Nat.add Nat.sub].
  rewrite drop_0, app_nil_r.
  do 6 (rewrite app_assoc, take_take_drop; cbn [Nat.add]).
  rewrite take_take_drop.
  apply take_ge. lia.
Qed.

Lemma hex_groups_concat v :
  0 <= v < 2 ^ 128 ->
  concat (ipaddress.hex_groups v) = zfill 32 (format_x v).
Proof.
  intros Hv. unfold ipaddress.hex_groups. cbv zeta.
  apply concat_slices. by apply hex_str_spec.
Qed.

Lemma hex_groups_spec v :
  0 <= v < 2 ^ 128 ->
  length (ipaddress.hex_groups v) = 8%nat
  /\ Forall (fun g => length g = 4%nat /\ Forall is_lower_hex g)
            (ipaddress.hex_groups v).
Proof.
  intros Hv. destruct (hex_str_spec v Hv) as (Hl & Hh & _).
  unfold ipaddress.hex_groups. cbv zeta.
  split; [done|]. apply Forall_fmap, Forall_forall. intros x Hx.
  unfold compose, slice. split.
  - rewrite length_take, length_drop, Hl.
    repeat (apply elem_of_cons in Hx as [->|Hx]; [cbn; lia|]).
    by apply elem_of_nil in Hx.
  - by apply Forall_take, Forall_drop.
Qed.




Lemma lower_id (s : str) :
  Forall (fun c => is_lower_hex c \/ c = COLON) s -> lower s = s.
Proof.
  unfold lower. induction 1 as [|c s Hc _ IH]; [done|].
  cbn [fmap list_fmap] in *. rewrite IH. f_equal.
  unfold lower_char.
  replace ((65 <=? c) && (c <=? 90)) with false; [done|].
  symmetry. apply andb_false_iff. rewrite !Z.leb_gt.
  unfold is_lower_hex, COLON in Hc. lia.
Qed.

Lemma join_charset (P : Z -> Prop) (sep : str) (gs : list str) :
  Forall P sep -> Forall (Forall P) gs -> Forall P (join sep gs).
Proof.
  intros Hsep. induction 1 as [|g gs Hg Hgs IH]; [constructor|].
  destruct gs as [|g' gs]; [done|].
  change (join sep (g :: g' :: gs)) with (g ++ sep ++ join sep (g' :: gs)).
  rewrite !Forall_app. done.
Qed.

(** What [exploded] writes for the 128-bit value [v]. *)
Definition explode (v : Z) : str := join [COLON] (ipaddress.hex_groups v).

Lemma explode_charset v :
  0 <= v < 2 ^ 128 ->
  Forall (fun c => is_lower_hex c \/ c = COLON) (explode v).
Proof.
  intros Hv. apply join_charset; [by apply Forall_singleton; right|].
  destruct (hex_groups_spec v Hv) as [_ H].
  eapply Forall_impl; [exact H|]. intros g [_ Hg]. cbn.
  eapply Forall_impl; [exact Hg|]. by left.
Qed.


(** ** [split] and [join] *)

Lemma split_nonempty sep s : split sep s <> [].
Proof.
  destruct s as [|c s]; [done|]. simpl.
  destruct (c =? sep); [done|]. by destruct (split sep s).
Qed.

Lemma split_free sep (g : str) :
  Forall (fun c => c <> sep) g -> split sep g = [g].
Proof.
  induction 1 as [|c g Hc _ IH]; [done|].
  simpl. rewrite IH. by apply Z.eqb_neq in Hc as ->.
Qed.

Lemma split_app_sep sep (g s : str) :
  Forall (fun c => c <> sep) g -> split sep (g ++ sep :: s) = g :: split sep s.
Proof.
  induction 1 as [|c g Hc _ IH]; simpl.
  - by rewrite Z.eqb_refl.
  - rewrite IH. by apply Z.eqb_neq in Hc as ->.
Qed.

Lemma split_join sep (gs : list str) :
  gs <> [] -> Forall (Forall (fun c => c <> sep)) gs ->
  split sep (join [sep] gs) = gs.
Proof.
  intros Hne Hgs. induction Hgs as [|g gs Hg Hgs IH]; [done|].
  destruct gs as [|g' gs]; [by apply split_free|].
  change (join [sep] (g :: g' :: gs))
    with (g ++ sep :: join [sep] (g' :: gs)).
  rewrite split_app_sep by done. by rewrite IH.
Qed.

Lemma split_parts_free sep s :
  Forall (Forall (fun c => c <> sep)) (split sep s).
Proof.
  induction s as [|c s IH]; [by repeat constructor|].
  simpl. destruct (c =? sep) eqn:E.
  - by constructor.
  - apply Z.eqb_neq in E. destruct (split sep s) as [|p ps].
    + by repeat constructor.
    + apply Forall_cons in IH as [Hp Hps]. by repeat constructor.
Qed.

Lemma join_split sep s : join [sep] (split sep s) = s.
Proof.
  induction s as [|c s IH]; [done|].
  simpl. destruct (c =? sep) eqn:E.
  - apply Z.eqb_eq in E as ->.
    pose proof (split_nonempty sep s).
    destruct (split sep s) as [|p ps]; [done|].
    change (join [sep] ([] :: p :: ps)) with (sep :: join [sep] (p :: ps)).
    by rewrite IH.
  - pose proof (split_nonempty sep s).
    destruct (split sep s) as [|p ps]; [done|].
    destruct ps as [|p' ps]; simpl in *; by rewrite <- IH.
Qed.

(** A character of a joined string is in one of the parts or is the
    separator. *)
Lemma elem_of_join c sep (gs : list str) :
  c ∈ join [sep] gs -> c = sep \/ exists g, g ∈ gs /\ c ∈ g.
Proof.
  induction gs as [|g gs IH]; [by intros ?%elem_of_nil|].
  destruct gs as [|g' gs].
  - simpl. intros Hc. right. exists g. split; [left|done].
  - change (join [sep] (g :: g' :: gs))
      with (g ++ sep :: join [sep] (g' :: gs)).
    rewrite elem_of_app, elem_of_cons. intros [Hc|[->|Hc]].
    + right. exists g. split; [left|done].
    + by left.
    + destruct (IH Hc) as [->|(h & Hh & Hch)]; [by left|].
      right. exists h. split; [by right|done].
Qed.

(** ** Hextets *)

Definition is_hex (c : Z) : Prop :=
  48 <= c <= 57 \/ 65 <= c <= 70 \/ 97 <= c <= 102.

Lemma HEX_DIGITS_eq :
  ipaddress._HEX_DIGITS = seqZ 48 10 ++ seqZ 65 6 ++ seqZ 97 6.
Proof. vm_compute. reflexivity. Qed.

Lemma inb_HEX_DIGITS c : inb c ipaddress._HEX_DIGITS = true <-> is_hex c.
Proof.
  unfold is_hex, inb. rewrite HEX_DIGITS_eq. split.
  - intros (x & Hx & ->%Z.eqb_eq)%existsb_exists.
    apply list_elem_of_In in Hx.
    rewrite !elem_of_app, !elem_of_seqZ in Hx. lia.
  - intros H. apply existsb_exists. exists c.
    split; [|apply Z.eqb_refl]. apply list_elem_of_In.
    rewrite !elem_of_app, !elem_of_seqZ. lia.
Qed.

Lemma is_hex_digit c : is_hex c -> is_digit 16 c.
Proof.
  intros Hc. unfold is_digit, digit_val.
  destruct ((48 <=? c) && (c <=? 57)) eqn:E1.
  { apply andb_true_iff in E1 as [?%Z.leb_le ?%Z.leb_le]. eexists; split; [done|lia]. }
  destruct ((97 <=? c) && (c <=? 102)) eqn:E2.
  { apply andb_true_iff in E2 as [?%Z.leb_le ?%Z.leb_le]. eexists; split; [done|lia]. }
  destruct ((65 <=? c) && (c <=? 70)) eqn:E3.
  { apply andb_true_iff in E3 as [?%Z.leb_le ?%Z.leb_le]. eexists; split; [done|lia]. }
  apply andb_false_iff in E1, E2, E3. unfold is_hex in Hc.
  rewrite !Z.leb_gt in E1, E2, E3. lia.
Qed.

Lemma is_lower_hex_hex c : is_lower_hex c -> is_hex c.
Proof. unfold is_lower_hex, is_hex. lia. Qed.

Lemma forallb_HEX_DIGITS (p : str) :
  forallb (fun c => inb c ipaddress._HEX_DIGITS) p = true <-> Forall is_hex p.
Proof.
  rewrite forallb_forall, Forall_forall. split; intros H c Hc.
  - apply inb_HEX_DIGITS, H. by apply list_elem_of_In.
  - apply inb_HEX_DIGITS, H. by apply list_elem_of_In.
Qed.

Lemma pow_16_4 : 16 ^ 4 = 65536.
Proof. reflexivity. Qed.

(** [_parse_hextet] succeeds exactly on one to four hexadecimal digits. *)
Lemma parse_hextet_Ok p h :
  ipaddress._parse_hextet p = Ok h <->
  Forall is_hex p /\ (1 <= length p <= 4)%nat /\ h = digits_val 16 p.
Proof.
  unfold ipaddress._parse_hextet.
  destruct (forallb _ p) eqn:E; cbn [negb].
  - apply forallb_HEX_DIGITS in E.
    destruct (4 <? length p)%nat eqn:E4;
      [apply Nat.ltb_lt in E4 | apply Nat.ltb_ge in E4].
    + split; [done | lia].
    + destruct p as [|c p]; [split; [done | simpl; lia]|].
      unfold int. rewrite (int_digits_valid 16) by
        (eapply Forall_impl; [exact E | apply is_hex_digit]).
      split.
      * intros [= <-]. split; [done|]. split; [simpl in *; lia | done].
      * intros (_ & _ & ->). done.
  - split; [done|]. intros (H & _). apply forallb_HEX_DIGITS in H. congruence.
Qed.

Lemma parse_hextet_range p h :
  ipaddress._parse_hextet p = Ok h -> 0 <= h < 65536.
Proof.
  intros (Hp & Hl & ->)%parse_hextet_Ok.
  assert (Hd : Forall (is_digit 16) p)
    by (eapply Forall_impl; [exact Hp | apply is_hex_digit]).
  pose proof (digits_val_bounds 16 ltac:(lia) p Hd) as Hb.
  assert (16 ^ Z.of_nat (length p) <= 16 ^ 4)
    by (apply Z.pow_le_mono_r; lia).
  rewrite pow_16_4 in *. lia.
Qed.

Lemma parse_hextet_format_x h :
  0 <= h < 65536 -> ipaddress._parse_hextet (format_x h) = Ok h.
Proof.
  intros Hh. apply parse_hextet_Ok. split; [|split].
  - eapply Forall_impl; [apply format_x_lower; lia | apply is_lower_hex_hex].
  - apply (format_x_length h 4); [|lia]. change (16 ^ Z.of_nat 4) with 65536. lia.
  - symmetry. apply format_x_val. lia.
Qed.

Lemma format_x_zero h : 0 <= h -> format_x h = [ZERO] <-> h = 0.
Proof.
  intros Hh. split; [|by intros ->].
  intros H. rewrite <- (format_x_val h), H by done. reflexivity.
Qed.

(** ** Shifting hextets in *)

Lemma lor_shiftl_16 a h :
  0 <= h < 65536 -> Z.lor (Z.shiftl a 16) h = a * 65536 + h.
Proof.
  intros Hh. rewrite <- Z.lxor_lor, <- Z.add_nocarry_lxor.
  - by rewrite Z.shiftl_mul_pow2.
  - apply Z.bits_inj'. intros n Hn. rewrite Z.land_spec, Z.bits_0.
    destruct (decide (n < 16)).
    + by rewrite Z.shiftl_spec_low.
    + apply andb_false_iff. right.
      destruct (decide (h = 0)) as [->|]; [apply Z.bits_0|].
      apply Z.bits_above_log2; [lia|].
      assert (Z.log2 h < 16) by (apply Z.log2_lt_pow2; lia). lia.
  - apply Z.bits_inj'. intros n Hn. rewrite Z.land_spec, Z.bits_0.
    destruct (decide (n < 16)).
    + by rewrite Z.shiftl_spec_low.
    + apply andb_false_iff. right.
      destruct (decide (h = 0)) as [->|]; [apply Z.bits_0|].
      apply Z.bits_above_log2; [lia|].
      assert (Z.log2 h < 16) by (apply Z.log2_lt_pow2; lia). lia.
Qed.

(** The number that a list of hextets denotes above the accumulator [a]. *)
Definition horner (a : Z) (hs : list Z) : Z :=
  foldl (fun a h => a * 65536 + h) a hs.

Definition is_hextet (h : Z) : Prop := 0 <= h < 65536.

Lemma horner_app a hs1 hs2 :
  horner a (hs1 ++ hs2) = horner (horner a hs1) hs2.
Proof. apply foldl_app. Qed.

Lemma horner_bounds a k hs :
  0 <= a < 65536 ^ Z.of_nat k -> Forall is_hextet hs ->
  0 <= horner a hs < 65536 ^ Z.of_nat (k + length hs).
Proof.
  intros Ha Hhs. revert a k Ha.
  induction Hhs as [|h hs Hh _ IH]; intros a k Ha.
  - simpl. by rewrite Nat.add_0_r.
  - cbn [horner foldl length].
    replace (k + S (length hs))%nat with (S k + length hs)%nat by lia.
    apply IH. rewrite Nat2Z.inj_succ, Z.pow_succ_r by lia.
    unfold is_hextet in Hh. lia.
Qed.

Lemma horner_zeros a k :
  horner a (replicate k 0) = a * 65536 ^ Z.of_nat k.
Proof.
  revert a. induction k as [|k IH]; intros a.
  - simpl. lia.
  - cbn [replicate horner foldl]. fold (horner (a * 65536 + 0) (replicate k 0)).
    rewrite IH, Nat2Z.inj_succ, Z.pow_succ_r by lia. lia.
Qed.

Lemma shift_in_Ok a ps r :
  ipaddress.shift_in a ps = Ok r ->
  exists hs, Forall2 (fun p h => ipaddress._parse_hextet p = Ok h) ps hs
             /\ r = horner a hs.
Proof.
  revert a. induction ps as [|p ps IH]; intros a; simpl.
  - intros [= <-]. exists []. by split; [constructor|].
  - destruct (ipaddress._parse_hextet p) as [h|] eqn:E; [|done]. simpl.
    intros (hs & Hhs & ->)%IH. exists (h :: hs). split; [by constructor|].
    simpl. f_equal. apply lor_shiftl_16. by eapply parse_hextet_range.
Qed.

Lemma shift_in_format_x a hs :
  Forall is_hextet hs ->
  ipaddress.shift_in a (format_x <$> hs) = Ok (horner a hs).
Proof.
  intros Hhs. revert a. induction Hhs as [|h hs Hh _ IH]; intros a; [done|].
  cbn [fmap list_fmap ipaddress.shift_in].
  rewrite parse_hextet_format_x by done. cbn [mbind result_bind].
  rewrite IH. cbn [horner foldl]. by rewrite lor_shiftl_16.
Qed.

Lemma parsed_hextets ps hs :
  Forall2 (fun p h => ipaddress._parse_hextet p = Ok h) ps hs ->
  Forall is_hextet hs /\ Forall (fun p => p <> [] /\ Forall is_hex p) ps.
Proof.
  induction 1 as [|p h ps hs Hp _ [IH1 IH2]]; [by split; constructor|].
  split; constructor; try done.
  - by eapply parse_hextet_range.
  - apply parse_hextet_Ok in Hp as (Hx & Hl & _). split; [|done].
    intros ->. simpl in Hl. lia.
Qed.

Lemma except_ValueError_Ok {A} (m : result A) (a : A) :
  except_ValueError m = Ok a <-> m = Ok a.
Proof. destruct m as [|[]]; simpl; split; congruence. Qed.

(** ** What [_ip_int_from_string] accepts *)

(** The part of [_ip_int_from_string] that follows the IPv4 suffix. *)
Definition from_parts (parts : list str) : result Z :=
  if (ipaddress._HEXTET_COUNT + 1 <? length parts)%nat
  then Raise AddressValueError else
  skip_index ← ipaddress.find_skip 1 (removelast (tail parts)) None;
  '(parts_hi, parts_lo, parts_skipped) ←
    match skip_index with
    | Some skip_index =>
        let parts_hi := skip_index in
        let parts_lo := (length parts - skip_index - 1)%nat in
        parts_hi ←
          (if is_empty (default [] (head parts)) then
             if negb (parts_hi - 1 =? 0)%nat then Raise AddressValueError
             else Ok (parts_hi - 1)%nat
           else Ok parts_hi);
        parts_lo ←
          (if is_empty (default [] (last parts)) then
             if negb (parts_lo - 1 =? 0)%nat then Raise AddressValueError
             else Ok (parts_lo - 1)%nat
           else Ok parts_lo);
        let parts_skipped :=
          Z.of_nat ipaddress._HEXTET_COUNT - Z.of_nat (parts_hi + parts_lo) in
        if parts_skipped <? 1 then Raise AddressValueError
        else Ok (parts_hi, parts_lo, parts_skipped)
    | None =>
        if negb (length parts =? ipaddress._HEXTET_COUNT)%nat
        then Raise AddressValueError
        else if is_empty (default [] (head parts))
        then Raise AddressValueError
        else if is_empty (default [] (last parts))
        then Raise AddressValueError
        else Ok (length parts, 0%nat, 0)
    end;
  except_ValueError (
    ip_int ← ipaddress.shift_in 0 (take parts_hi parts);
    let ip_int := Z.shiftl ip_int (16 * parts_skipped) in
    ipaddress.shift_in ip_int (drop (length parts - parts_lo) parts)).

Lemma ip_int_from_string_unfold (ip_str : str) :
  ipaddress._ip_int_from_string ip_str =
  if is_empty ip_str then Raise AddressValueError else
  let parts := split COLON ip_str in
  if (length parts <? 3)%nat then Raise AddressValueError else
  parts ←
    (if inb DOT (default [] (last parts)) then
       match ipaddress.IPv4Address_ip (default [] (last parts)) with
       | Raise _ => Raise AddressValueError
       | Ok ipv4_int =>
           Ok (removelast parts
               ++ [format_x (Z.land (Z.shiftr ipv4_int 16) 65535)]
               ++ [format_x (Z.land ipv4_int 65535)])
       end
     else Ok parts);
  from_parts parts.
Proof. reflexivity. Qed.

Lemma find_skip_spec i mid acc sk :
  ipaddress.find_skip i mid acc = Ok sk ->
  match acc with
  | Some k0 => sk = Some k0 /\ Forall (fun p => p <> []) mid
  | None =>
      match sk with
      | None => Forall (fun p => p <> []) mid
      | Some k => exists X Y, mid = X ++ [] :: Y /\ k = (i + length X)%nat
                              /\ Forall (fun p => p <> []) X
                              /\ Forall (fun p => p <> []) Y
      end
  end.
Proof.
  revert i acc. induction mid as [|p mid IH]; intros i acc; simpl.
  - intros [= <-]. destruct acc; by repeat constructor.
  - destruct p as [|c p].
    + destruct acc as [k0|]; [done|]. intros H. apply IH in H as [-> HY].
      exists [], mid. split; [done|]. split; [simpl; lia|]. by split.
    + intros H. apply IH in H. destruct acc as [k0|].
      * destruct H as [-> H]. split; [done|]. by constructor.
      * destruct sk as [k|]; [|by constructor].
        destruct H as (X & Y & -> & -> & HX & HY).
        exists ((c :: p) :: X), Y. split; [done|]. split; [simpl; lia|].
        split; [by constructor | done].
Qed.

Lemma find_skip_marker i (X Y : list str) :
  Forall (fun p => p <> []) X -> Forall (fun p => p <> []) Y ->
  ipaddress.find_skip i (X ++ [] :: Y) None = Ok (Some (i + length X)%nat).
Proof.
  intros HX HY. revert i. induction HX as [|p X Hp _ IH]; intros i.
  - simpl. rewrite Nat.add_0_r. clear -HY. generalize (S i) as j.
    induction HY as [|p Y Hp _ IH]; intros j; [done|].
    simpl. destruct p; [done|]. apply IH.
  - simpl. destruct p; [done|]. rewrite IH. do 2 f_equal. lia.
Qed.

Lemma find_skip_none i (X : list str) :
  Forall (fun p => p <> []) X -> ipaddress.find_skip i X None = Ok None.
Proof.
  intros HX. revert i. induction HX as [|p X Hp _ IH]; intros i; [done|].
  simpl. destruct p; [done|]. apply IH.
Qed.

(** A list of at least two elements: its head, its middle, its last. *)
Lemma head_mid_last {A} (d : A) (l : list A) :
  (2 <= length l)%nat ->
  l = default d (head l) :: removelast (tail l) ++ [default d (last l)].
Proof.
  destruct l as [|x l]; [simpl; lia|]. intros Hl. simpl in Hl.
  assert (Hne : l <> []) by (intros ->; simpl in Hl; lia).
  destruct (exists_last Hne) as (l' & y & ->).
  cbn [head tail default]. rewrite removelast_last.
  change (x :: l' ++ [y]) with ((x :: l') ++ [y]). by rewrite last_snoc.
Qed.

Lemma pow2_16 k : 0 <= k -> 2 ^ (16 * k) = 65536 ^ k.
Proof. intros. by rewrite Z.pow_mul_r by lia. Qed.

Lemma pow_65536_8 : 65536 ^ Z.of_nat 8 = 2 ^ 128.
Proof. reflexivity. Qed.

(** The value two runs of hextets denote around [sk] skipped zero hextets
    is a 128-bit number when there are eight hextets in all. *)
Lemma two_runs_bound (HA HB : list Z) (sk : nat) :
  Forall is_hextet HA -> Forall is_hextet HB ->
  (length HA + sk + length HB <= 8)%nat ->
  0 <= horner (horner 0 HA * 65536 ^ Z.of_nat sk) HB < 2 ^ 128.
Proof.
  intros HA' HB' Hlen.
  pose proof (horner_bounds 0 0 HA ltac:(simpl; lia) HA') as Ha.
  assert (Hm : 0 <= horner 0 HA * 65536 ^ Z.of_nat sk
               < 65536 ^ Z.of_nat (length HA + sk)).
  { rewrite Nat2Z.inj_add, Z.pow_add_r by lia. simpl in Ha.
    assert (0 < 65536 ^ Z.of_nat sk) by (apply Z.pow_pos_nonneg; lia). nia. }
  pose proof (horner_bounds _ _ HB Hm HB') as Hb.
  assert (65536 ^ Z.of_nat (length HA + sk + length HB) <= 65536 ^ Z.of_nat 8)
    by (apply Z.pow_le_mono_r; lia).
  rewrite pow_65536_8 in *. lia.
Qed.

Lemma except_ValueError_inv {A} (m : result A) (a : A) :
  except_ValueError m = Ok a -> m = Ok a.
Proof. apply except_ValueError_Ok. Qed.

Lemma runs_Ok (A B : list str) (sk : nat) v :
  except_ValueError (
    ip_int ← ipaddress.shift_in 0 A;
    ipaddress.shift_in (Z.shiftl ip_int (16 * Z.of_nat sk)) B) = Ok v ->
  (length A + sk + length B <= 8)%nat ->
  Forall (Forall is_hex) A /\ Forall (Forall is_hex) B /\ 0 <= v < 2 ^ 128.
Proof.
  intros H%except_ValueError_inv Hlen.
  destruct (ipaddress.shift_in 0 A) as [va|] eqn:EA; [|done].
  change (ipaddress.shift_in (Z.shiftl va (16 * Z.of_nat sk)) B = Ok v) in H.
  apply shift_in_Ok in EA as (HA & HA2 & ->).
  apply shift_in_Ok in H as (HB & HB2 & ->).
  pose proof (Forall2_length _ _ _ HA2). pose proof (Forall2_length _ _ _ HB2).
  apply parsed_hextets in HA2 as [HA3 HA4], HB2 as [HB3 HB4].
  split; [|split].
  - eapply Forall_impl; [exact HA4|]. by intros p [_ ?].
  - eapply Forall_impl; [exact HB4|]. by intros p [_ ?].
  - rewrite Z.shiftl_mul_pow2, pow2_16 by lia.
    apply two_runs_bound; try done. lia.
Qed.

Lemma end_choice (p : str) (n m : nat) (Z : list str) r :
  (if is_empty p then
     if negb (n - 1 =? 0)%nat then Raise AddressValueError else Ok (n - 1)%nat
   else Ok n) = r ->
  n = S (length Z) ->
  r = Raise AddressValueError
  \/ exists k, r = Ok k
       /\ ((p = [] /\ Z = [] /\ k = 0%nat) \/ (p <> [] /\ k = S (length Z))).
Proof.
  intros <- ->. destruct p as [|c p]; cbn [is_empty].
  - destruct Z as [|z Z]; cbn; [|by left].
    right. exists 0%nat. split; [done|]. by left.
  - right. eexists. split; [done|]. by right.
Qed.

Lemma skip_parts_Ok (parts : list str) (p0 pl : str) (X Y : list str)
    (hi lo : nat) v :
  parts = p0 :: (X ++ [] :: Y) ++ [pl] ->
  (p0 = [] /\ X = [] /\ hi = 0%nat) \/ (p0 <> [] /\ hi = S (length X)) ->
  (pl = [] /\ Y = [] /\ lo = 0%nat) \/ (pl <> [] /\ lo = S (length Y)) ->
  1 <= Z.of_nat 8 - Z.of_nat (hi + lo) ->
  except_ValueError (
    ip_int ← ipaddress.shift_in 0 (take hi parts);
    ipaddress.shift_in
      (Z.shiftl ip_int (16 * (Z.of_nat 8 - Z.of_nat (hi + lo))))
      (drop (length parts - lo) parts)) = Ok v ->
  Forall (Forall is_hex) parts /\ 0 <= v < 2 ^ 128.
Proof.
  intros Hp Hhi Hlo Esk.
  replace (Z.of_nat 8 - Z.of_nat (hi + lo)) with (Z.of_nat (8 - hi - lo)) by lia.
  assert (Hlen : length parts = (length X + length Y + 3)%nat).
  { subst parts. cbn [length]. rewrite !length_app. cbn [length]. lia. }
  assert (Htake : take hi parts = if decide (hi = 0%nat) then [] else p0 :: X).
  { destruct Hhi as [(_ & _ & ->)|[_ ->]]; [done|]. subst parts.
    rewrite decide_False by done. rewrite <- app_assoc.
    change (p0 :: X ++ ?l) with ((p0 :: X) ++ l).
    by rewrite take_app_length'. }
  assert (Hdrop : drop (length parts - lo) parts
                  = if decide (lo = 0%nat) then [] else Y ++ [pl]).
  { destruct Hlo as [(_ & _ & ->)|[_ ->]].
    - rewrite Nat.sub_0_r. by rewrite drop_all.
    - rewrite decide_False by done. rewrite Hlen. subst parts.
      replace (p0 :: (X ++ [] :: Y) ++ [pl])
        with ((p0 :: X ++ [[]]) ++ (Y ++ [pl]))
        by (cbn; by rewrite <- !app_assoc).
      rewrite drop_app_length'; [done|].
      cbn [length]. rewrite length_app. cbn [length]. lia. }
  rewrite Htake, Hdrop. intros H. apply runs_Ok in H as (HA & HB & Hv).
  - split; [|done]. subst parts.
    assert (Forall is_hex p0 /\ Forall (Forall is_hex) X) as [? ?].
    { destruct Hhi as [(-> & -> & ->)|[_ ->]]; [split; constructor|].
      rewrite decide_False in HA by done. by apply Forall_cons in HA. }
    assert (Forall (Forall is_hex) Y /\ Forall is_hex pl) as [? ?].
    { destruct Hlo as [(-> & -> & ->)|[_ ->]]; [split; constructor|].
      rewrite decide_False in HB by done.
      apply Forall_app in HB as [? HB]. split; [done|].
      inversion HB; by subst. }
    apply Forall_cons. split; [done|]. apply Forall_app. split.
    + apply Forall_app. split; [done|]. apply Forall_cons. split; [constructor | done].
    + by apply Forall_singleton.
  - assert (length (if decide (hi = 0%nat) then [] else p0 :: X) <= hi)%nat.
    { destruct Hhi as [(_ & _ & ->)|[_ ->]]; [simpl; lia|].
      rewrite decide_False by done. simpl. lia. }
    assert (length (if decide (lo = 0%nat) then [] else Y ++ [pl]) <= lo)%nat.
    { destruct Hlo as [(_ & _ & ->)|[_ ->]]; [simpl; lia|].
      rewrite decide_False by done. rewrite length_app. simpl. lia. }
    lia.
Qed.

Lemma from_parts_Ok parts v :
  from_parts parts = Ok v -> Forall (Forall is_hex) parts /\ 0 <= v < 2 ^ 128.
Proof.
  unfold from_parts.
  destruct (_ <? length parts)%nat eqn:E9; [done|]. apply Nat.ltb_ge in E9.
  destruct (ipaddress.find_skip 1 _ None) as [sk|] eqn:Efs; [|done].
  cbn [mbind result_bind].
  apply find_skip_spec in Efs.
  destruct sk as [k|].
  - destruct Efs as (X & Y & Hmid & -> & HX & HY).
    assert (H2 : (2 <= length parts)%nat).
    { destruct parts as [|? [|? ?]]; simpl in *; try lia; by destruct X. }
    pose proof (head_mid_last [] parts H2) as Hp. rewrite Hmid in Hp.
    revert Hp. generalize (default [] (head parts)) as p0.
    generalize (default [] (last parts)) as pl. intros pl p0 Hp.
    assert (Hlen : length parts = (length X + length Y + 3)%nat).
    { rewrite Hp. cbn [length]. rewrite !length_app. cbn [length]. lia. }
    match goal with
    | |- context [mbind _ (if is_empty p0 then ?a else ?b)] =>
        destruct (end_choice p0 _ 0 X _ (eq_refl (if is_empty p0 then a else b))
                    ltac:(reflexivity)) as [->|(hi & -> & Hhi)]; [done|]
    end.
    cbn [mbind result_bind].
    match goal with
    | |- context [mbind _ (if is_empty pl then ?a else ?b)] =>
        destruct (end_choice pl _ 0 Y _ (eq_refl (if is_empty pl then a else b))
                    ltac:(lia)) as [->|(lo & -> & Hlo)]; [done|]
    end.
    cbn [mbind result_bind].
    destruct (_ <? 1) eqn:Esk; [done|]. apply Z.ltb_ge in Esk.
    cbn [mbind result_bind]. intros H.
    by eapply (skip_parts_Ok parts p0 pl X Y hi lo).
  - destruct (negb _) eqn:E8; [done|].
    apply negb_false_iff, Nat.eqb_eq in E8.
    destruct (is_empty (default [] (head parts))); [done|].
    destruct (is_empty (default [] (last parts))); [done|].
    cbn [mbind result_bind]. rewrite Nat.sub_0_r.
    rewrite take_ge, drop_all by lia. intros H.
    apply (runs_Ok parts [] 0) in H as (? & _ & ?); [done|].
    rewrite E8. simpl. unfold ipaddress._HEXTET_COUNT. lia.
Qed.

Lemma parse_octet_digits o n :
  ipaddress._parse_octet o = Ok n -> Forall is_hex o.
Proof.
  unfold ipaddress._parse_octet. destruct o as [|c o]; [done|].
  destruct (forallb isascii_digit (c :: o)) eqn:E; [|done]. intros _.
  apply Forall_forall. intros x Hx%list_elem_of_In.
  rewrite forallb_forall in E. apply E in Hx. unfold isascii_digit in Hx.
  apply andb_true_iff in Hx as [?%Z.leb_le ?%Z.leb_le]. unfold is_hex. lia.
Qed.

Lemma from_bytes_map_Ok f acc xs r :
  ipaddress.from_bytes_map f acc xs = Ok r ->
  Forall (fun x => exists b, f x = Ok b) xs.
Proof.
  revert acc. induction xs as [|x xs IH]; intros acc; [constructor|].
  simpl. destruct (f x) as [b|] eqn:E; [|done]. simpl. intros H%IH.
  constructor; [by exists b | done].
Qed.

Lemma IPv4Address_charset a v4 :
  ipaddress.IPv4Address_ip a = Ok v4 ->
  Forall (fun c => is_hex c \/ c = DOT) a.
Proof.
  unfold ipaddress.IPv4Address_ip, ipaddress.v4_ip_int_from_string.
  destruct (inb SLASH a); [done|]. destruct a as [|c0 a0] eqn:Ea; [done|].
  rewrite <- Ea. clear Ea.
  destruct (negb _); [done|].
  intros H%except_ValueError_inv%from_bytes_map_Ok.
  apply Forall_forall. intros c Hc. rewrite <- (join_split DOT a) in Hc.
  apply elem_of_join in Hc as [->|(g & Hg & Hcg)]; [by right|]. left.
  rewrite Forall_forall in H. destruct (H g Hg) as [n Hn].
  apply parse_octet_digits in Hn. rewrite Forall_forall in Hn. by apply Hn.
Qed.

(** Whatever [_ip_int_from_string] accepts is made of hexadecimal digits,
    colons and dots, and denotes a 128-bit number. *)
Lemma ip_int_from_string_Ok s v :
  ipaddress._ip_int_from_string s = Ok v ->
  0 <= v < 2 ^ 128 /\ Forall (fun c => is_hex c \/ c = COLON \/ c = DOT) s.
Proof.
  rewrite ip_int_from_string_unfold. destruct (is_empty s); [done|]. cbv zeta.
  destruct (_ <? 3)%nat eqn:E3; [done|]. apply Nat.ltb_ge in E3.
  assert (Hne : split COLON s <> []) by apply split_nonempty.
  destruct (inb DOT _).
  - destruct (ipaddress.IPv4Address_ip _) as [v4|] eqn:E4; [|done].
    cbn [mbind result_bind]. intros [Hparts Hv]%from_parts_Ok. split; [done|].
    apply Forall_app in Hparts as [Hparts _].
    apply IPv4Address_charset in E4.
    apply Forall_forall. intros c Hc. rewrite <- (join_split COLON s) in Hc.
    apply elem_of_join in Hc as [->|(g & Hg & Hcg)]; [by right; left|].
    rewrite (app_removelast_last [] Hne) in Hg.
    apply elem_of_app in Hg as [Hg|Hg].
    + left. rewrite Forall_forall in Hparts.
      specialize (Hparts g Hg). rewrite Forall_forall in Hparts. by apply Hparts.
    + apply list_elem_of_singleton in Hg as ->.
      replace (List.last (split COLON s) []) with (default [] (last (split COLON s))) in Hcg.
      * rewrite Forall_forall in E4. destruct (E4 c Hcg); [by left | by right; right].
      * clear. generalize (split COLON s) as l. intros l.
        induction l as [|x [|y l] IH]; [done|done|]. apply IH.
  - cbn [mbind result_bind]. intros [Hparts Hv]%from_parts_Ok. split; [done|].
    apply Forall_forall. intros c Hc. rewrite <- (join_split COLON s) in Hc.
    apply elem_of_join in Hc as [->|(g & Hg & Hcg)]; [by right; left|].
    left. rewrite Forall_forall in Hparts.
    specialize (Hparts g Hg). rewrite Forall_forall in Hparts. by apply Hparts.
Qed.

(** ** The hextets of a 128-bit number *)

Lemma mapM_Ok {A B} (f : A -> result B) (g : A -> B) (l : list A) :
  Forall (fun x => f x = Ok (g x)) l -> mapM f l = Ok (g <$> l).
Proof.
  induction 1 as [|x l Hx _ IH]; [done|].
  cbn [mapM]. rewrite Hx. cbn [mbind result_bind].
  change ((fix go (l : list A) : result (list B) :=
             match l with
             | [] => mret []
             | x :: l => y ← f x; k ← go l; mret (y :: k)
             end) l) with (mapM f l).
  by rewrite IH.
Qed.

Lemma horner_groups a (gs : list str) :
  Forall (fun g => length g = 4%nat) gs ->
  horner a (digits_val 16 <$> gs)
  = a * 16 ^ Z.of_nat (length (concat gs)) + digits_val 16 (concat gs).
Proof.
  intros Hgs. revert a. induction Hgs as [|g gs Hg _ IH]; intros a.
  - unfold horner, digits_val, acc_digits. simpl. lia.
  - cbn [fmap list_fmap concat]. unfold horner. cbn [foldl].
    fold (horner (a * 65536 + digits_val 16 g) (digits_val 16 <$> gs)).
    rewrite IH, digits_val_app, length_app, Hg by lia.
    rewrite Nat2Z.inj_add, Z.pow_add_r by lia.
    change (16 ^ Z.of_nat 4) with 65536. lia.
Qed.

(** The eight hextets of a 128-bit number [v], most significant first. *)
Definition hextets_of (v : Z) : list Z :=
  digits_val 16 <$> ipaddress.hex_groups v.

Lemma hextets_of_spec v :
  0 <= v < 2 ^ 128 ->
  length (hextets_of v) = 8%nat /\ Forall is_hextet (hextets_of v)
  /\ horner 0 (hextets_of v) = v.
Proof.
  intros Hv. destruct (hex_groups_spec v Hv) as [Hl Hg]. unfold hextets_of.
  split; [by rewrite length_fmap|]. split.
  - apply Forall_fmap. eapply Forall_impl; [exact Hg|].
    intros g [Hg4 Hgh]. unfold compose, is_hextet.
    assert (Hd : Forall (is_digit 16) g)
      by (eapply Forall_impl; [exact Hgh | apply is_lower_hex_digit]).
    pose proof (digits_val_bounds 16 ltac:(lia) g Hd) as Hb.
    rewrite Hg4 in Hb. exact Hb.
  - rewrite horner_groups
      by (eapply Forall_impl; [exact Hg|]; by intros g [? _]).
    rewrite hex_groups_concat by done. simpl. by apply hex_str_spec.
Qed.

Lemma string_from_ip_int_eq v :
  0 <= v < 2 ^ 128 ->
  ipaddress._string_from_ip_int v
  = Ok (join [COLON] (ipaddress._compress_hextets (format_x <$> hextets_of v))).
Proof.
  intros Hv. unfold ipaddress._string_from_ip_int.
  replace (2 ^ 128 - 1 <? v) with false by (symmetry; apply Z.ltb_ge; lia).
  rewrite (mapM_Ok _ (fun g => format_x (digits_val 16 g))).
  - cbn [mbind result_bind]. unfold hextets_of. by rewrite <- list_fmap_compose.
  - destruct (hex_groups_spec v Hv) as [_ Hg].
    eapply Forall_impl; [exact Hg|]. intros g [Hg4 Hgh]. cbn beta.
    destruct g as [|c g]; [done|]. unfold int.
    rewrite (int_digits_valid 16)
      by (eapply Forall_impl; [exact Hgh | apply is_lower_hex_digit]).
    done.
Qed.

(** ** The run of zero hextets that [_compress_hextets] picks *)

Definition zeros_at (all : list str) (st ln : Z) : Prop :=
  0 <= st /\ st + ln <= Z.of_nat (length all)
  /\ forall j : nat, st <= Z.of_nat j < st + ln -> all !! j = Some [ZERO].

Lemma best_run_spec (all pre hs : list str) index bst bln st ln :
  all = pre ++ hs -> index = Z.of_nat (length pre) ->
  (0 < bln -> zeros_at all bst bln) ->
  (ln = 0 /\ st = -1) \/ (0 < ln /\ st + ln = index /\ zeros_at all st ln) ->
  let '(bst', bln') := ipaddress.best_run index hs bst bln st ln in
  0 < bln' -> zeros_at all bst' bln'.
Proof.
  revert pre index bst bln st ln.
  induction hs as [|h hs IH]; intros pre index bst bln st ln Hall Hidx Hb Hc;
    [done|].
  cbn [ipaddress.best_run].
  assert (Hall' : all = (pre ++ [h]) ++ hs) by by rewrite <- app_assoc.
  assert (Hidx' : index + 1 = Z.of_nat (length (pre ++ [h])))
    by (rewrite length_app; simpl; lia).
  case_bool_decide as Hh.
  - subst h.
    assert (Hc' : 0 < ln + 1 /\ (if st =? -1 then index else st) + (ln + 1) = index + 1
                  /\ zeros_at all (if st =? -1 then index else st) (ln + 1)).
    { assert (Hlook : all !! length pre = Some [ZERO])
        by (rewrite Hall; by apply list_lookup_middle).
      assert (Hlen : Z.of_nat (length pre) < Z.of_nat (length all))
        by (apply lookup_lt_Some in Hlook; lia).
      destruct Hc as [[-> ->]|(Hln & Hst & Hz0 & Hz1 & Hz2)].
      - simpl. split; [lia|]. split; [lia|]. split; [lia|]. split; [lia|].
        intros j Hj. replace j with (length pre) by lia. done.
      - replace (st =? -1) with false by (symmetry; apply Z.eqb_neq; lia).
        split; [lia|]. split; [lia|]. split; [lia|]. split; [lia|].
        intros j Hj. destruct (decide (Z.of_nat j < st + ln)); [apply Hz2; lia|].
        replace j with (length pre) by lia. done. }
    destruct (bln <? ln + 1) eqn:E.
    + apply (IH (pre ++ [ [ZERO] ]) (index + 1)); try done; [by intros _; apply Hc'|].
      right. done.
    + apply (IH (pre ++ [ [ZERO] ]) (index + 1)); try done. by right.
  - apply (IH (pre ++ [h]) (index + 1)); try done. by left.
Qed.

(** ** Compressed addresses are read back *)

(** The extra empty part that [_compress_hextets] puts where the run of
    zeros touches an end of the address. *)
Definition end_marker {A} (l : list A) : list str :=
  match l with [] => [[]] | _ => [] end.

Lemma compress_shape (H : list Z) :
  Forall is_hextet H ->
  let hs := format_x <$> H in
  ipaddress._compress_hextets hs = hs
  \/ exists (HA HB : list Z) (k : nat),
       (2 <= k)%nat /\ H = HA ++ replicate k 0 ++ HB
       /\ ipaddress._compress_hextets hs
          = end_marker HA ++ (format_x <$> HA) ++ [[]]
            ++ (format_x <$> HB) ++ end_marker HB.
Proof.
  intros HH hs. unfold ipaddress._compress_hextets.
  pose proof (best_run_spec hs [] hs 0 (-1) 0 (-1) 0 eq_refl eq_refl
                ltac:(lia) ltac:(by left)) as Hrun.
  destruct (ipaddress.best_run 0 hs (-1) 0 (-1) 0) as [bst bln].
  destruct (1 <? bln) eqn:E1; [apply Z.ltb_lt in E1 | by left].
  right. destruct (Hrun ltac:(lia)) as (Hst & Hend & Hz). clear Hrun.
  assert (Hlen : length hs = length H) by (subst hs; by rewrite length_fmap).
  set (a := Z.to_nat bst). set (k := Z.to_nat bln).
  exists (take a H), (drop (a + k) H), k.
  assert (Hmid : take k (drop a H) = replicate k 0).
  { apply list_eq_same_length with k;
      [by rewrite length_replicate | rewrite length_take, length_drop; lia|].
    intros i x y Hi Hx Hy.
    apply lookup_replicate in Hy as [-> _].
    rewrite lookup_take_lt, lookup_drop in Hx by done.
    specialize (Hz (a + i)%nat ltac:(lia)). subst hs.
    rewrite list_lookup_fmap, Hx in Hz. simpl in Hz.
    injection Hz as Hz. apply format_x_zero in Hz; [done|].
    rewrite Forall_forall in HH. apply (HH x). by eapply list_elem_of_lookup_2. }
  split; [lia|]. split.
  { rewrite <- Hmid, app_assoc, take_take_drop, take_drop. done. }
  replace (Z.to_nat (bst + bln)) with (a + k)%nat by lia.
  fold a.
  assert (Ha : take a (if bst + bln =? Z.of_nat (length hs)
                       then hs ++ [[]] else hs) = format_x <$> take a H).
  { subst hs. rewrite fmap_take. destruct (_ =? _); [|done].
    rewrite take_app_le; [done|]. rewrite length_fmap. lia. }
  assert (Hb : drop (a + k) (if bst + bln =? Z.of_nat (length hs)
                             then hs ++ [[]] else hs)
               = (format_x <$> drop (a + k) H) ++ end_marker (drop (a + k) H)).
  { destruct (_ =? _) eqn:E; [apply Z.eqb_eq in E | apply Z.eqb_neq in E].
    - rewrite (drop_ge H) by lia. simpl.
      rewrite drop_app_length'; [done | lia].
    - subst hs. rewrite fmap_drop.
      destruct (drop (a + k) H) eqn:Ed; [|by rewrite app_nil_r].
      apply (f_equal length) in Ed. rewrite length_drop in Ed. simpl in Ed. lia. }
  rewrite Ha, Hb.
  destruct (bst =? 0) eqn:E0; [apply Z.eqb_eq in E0 | apply Z.eqb_neq in E0].
  - replace a with 0%nat by lia. done.
  - destruct (take a H) eqn:Et; [|done].
    apply (f_equal length) in Et. rewrite length_take in Et. simpl in Et. lia.
Qed.

Lemma inb_false c (s : str) : Forall (fun x => x <> c) s -> inb c s = false.
Proof.
  unfold inb. induction 1 as [|x s Hx _ IH]; [done|].
  simpl. rewrite IH, orb_false_r. apply Z.eqb_neq. congruence.
Qed.

Lemma format_x_nonempty h : 0 <= h -> format_x h <> [].
Proof.
  intros Hh E. pose proof (format_x_length h (S (Z.to_nat (Z.log2 h)))) as Hl.
  rewrite E in Hl. simpl in Hl.
  pose proof (fuel_enough 16 ltac:(lia) h Hh). lia.
Qed.

Lemma format_x_no c h :
  0 <= h -> ~ is_lower_hex c -> Forall (fun x => x <> c) (format_x h).
Proof.
  intros Hh Hc. eapply Forall_impl; [by apply format_x_lower|].
  intros x Hx ->. done.
Qed.

Lemma colon_not_hex : ~ is_lower_hex COLON.
Proof. unfold is_lower_hex, COLON. lia. Qed.

Lemma dot_not_hex : ~ is_lower_hex DOT.
Proof. unfold is_lower_hex, DOT. lia. Qed.

Lemma skip_parts_length (parts : list str) (p0 pl : str) (X Y : list str) :
  parts = p0 :: (X ++ [] :: Y) ++ [pl] ->
  length parts = (length X + length Y + 3)%nat.
Proof. intros ->. cbn [length]. rewrite !length_app. cbn [length]. lia. Qed.

(** The parts an address with one ['::'] is split into: [p0], the parts [X]
    before the empty one, the parts [Y] after it, and [pl]. *)
Section skip_parts.
Context (parts : list str) (p0 pl : str) (X Y : list str) (hi lo : nat).
Hypothesis Hparts : parts = p0 :: (X ++ [] :: Y) ++ [pl].
Hypothesis Hhi :
  (p0 = [] /\ X = [] /\ hi = 0%nat) \/ (p0 <> [] /\ hi = S (length X)).
Hypothesis Hlo :
  (pl = [] /\ Y = [] /\ lo = 0%nat) \/ (pl <> [] /\ lo = S (length Y)).

Lemma skip_parts_take :
  take hi parts = if decide (hi = 0%nat) then [] else p0 :: X.
Proof.
  destruct Hhi as [(_ & _ & ->)|[_ ->]]; [done|]. subst parts.
  rewrite decide_False by done. rewrite <- app_assoc.
  change (p0 :: X ++ ?l) with ((p0 :: X) ++ l).
  by rewrite take_app_length'.
Qed.

Lemma skip_parts_drop :
  drop (length parts - lo) parts
  = if decide (lo = 0%nat) then [] else Y ++ [pl].
Proof.
  pose proof (skip_parts_length _ _ _ _ _ Hparts) as Hlen.
  destruct Hlo as [(_ & _ & ->)|[_ ->]].
  - rewrite Nat.sub_0_r. by rewrite drop_all.
  - rewrite decide_False by done. rewrite Hlen. subst parts.
    replace (p0 :: (X ++ [] :: Y) ++ [pl])
      with ((p0 :: X ++ [[]]) ++ (Y ++ [pl]))
      by (cbn; by rewrite <- !app_assoc).
    rewrite drop_app_length'; [done|].
    cbn [length]. rewrite length_app. cbn [length]. lia.
Qed.

Lemma end_choice_Ok (p : str) (n k : nat) (Z : list str) :
  n = S (length Z) ->
  (p = [] /\ Z = [] /\ k = 0%nat) \/ (p <> [] /\ k = S (length Z)) ->
  (if is_empty p then
     if negb (n - 1 =? 0)%nat then Raise AddressValueError
     else Ok (n - 1)%nat
   else Ok n) = Ok k.
Proof.
  intros -> [(-> & -> & ->)|[Hp ->]]; [done|]. by destruct p.
Qed.

Lemma from_parts_skip :
  Forall (fun p => p <> []) X -> Forall (fun p => p <> []) Y ->
  (hi + lo <= 7)%nat ->
  from_parts parts =
  except_ValueError (
    ip_int ← ipaddress.shift_in 0
               (if decide (hi = 0%nat) then [] else p0 :: X);
    ipaddress.shift_in (Z.shiftl ip_int (16 * Z.of_nat (8 - hi - lo)))
                       (if decide (lo = 0%nat) then [] else Y ++ [pl])).
Proof.
  intros HX HY Hle. unfold from_parts.
  rewrite <- skip_parts_take, <- skip_parts_drop.
  pose proof (skip_parts_length _ _ _ _ _ Hparts) as Hlen.
  assert (Hmid : removelast (tail parts) = X ++ [] :: Y)
    by (rewrite Hparts; cbn [tail]; apply removelast_last).
  assert (Hhead : default [] (head parts) = p0) by by rewrite Hparts.
  assert (Hlast : default [] (last parts) = pl).
  { rewrite Hparts. change (p0 :: ?l ++ [pl]) with ((p0 :: l) ++ [pl]).
    by rewrite last_snoc. }
  rewrite Hmid, Hhead, Hlast, find_skip_marker by done.
  replace (ipaddress._HEXTET_COUNT + 1 <? length parts)%nat with false.
  2:{ symmetry. apply Nat.ltb_ge. unfold ipaddress._HEXTET_COUNT.
      destruct Hhi as [(_ & -> & _)|[_ ?]], Hlo as [(_ & -> & _)|[_ ?]];
        simpl in *; lia. }
  cbn [mbind result_bind].
  rewrite (end_choice_Ok p0 _ hi X) by done. cbn [mbind result_bind].
  rewrite (end_choice_Ok pl _ lo Y) by (done || lia). cbn [mbind result_bind].
  unfold ipaddress._HEXTET_COUNT.
  replace (Z.of_nat 8 - Z.of_nat (hi + lo) <? 1) with false
    by (symmetry; apply Z.ltb_ge; lia).
  cbn [mbind result_bind].
  by replace (Z.of_nat 8 - Z.of_nat (hi + lo)) with (Z.of_nat (8 - hi - lo))
    by lia.
Qed.
End skip_parts.

Lemma parse_parts (parts : list str) :
  (3 <= length parts)%nat ->
  Forall (Forall (fun c => c <> COLON)) parts ->
  inb DOT (default [] (last parts)) = false ->
  ipaddress._ip_int_from_string (join [COLON] parts) = from_parts parts.
Proof.
  intros Hlen Hfree Hdot. rewrite ip_int_from_string_unfold.
  replace (is_empty (join [COLON] parts)) with false.
  2:{ destruct parts as [|p [|q r]]; try (simpl in Hlen; lia).
      change (join [COLON] (p :: q :: r))
        with (p ++ COLON :: join [COLON] (q :: r)).
      by destruct p. }
  assert (parts <> []) by (intros ->; simpl in Hlen; lia).
  cbv zeta. rewrite split_join by done.
  replace (length parts <? 3)%nat with false
    by (symmetry; apply Nat.ltb_ge; lia).
  by rewrite Hdot.
Qed.

Lemma format_x_parts_free (H : list Z) (c : Z) :
  Forall is_hextet H -> ~ is_lower_hex c ->
  Forall (Forall (fun x => x <> c)) (format_x <$> H).
Proof.
  intros HH Hc. apply Forall_fmap. eapply Forall_impl; [exact HH|].
  intros h [Hh _]. unfold compose. by apply format_x_no.
Qed.

Lemma format_x_parts_nonempty (H : list Z) :
  Forall is_hextet H -> Forall (fun p => p <> []) (format_x <$> H).
Proof.
  intros HH. apply Forall_fmap. eapply Forall_impl; [exact HH|].
  intros h [Hh _]. unfold compose. by apply format_x_nonempty.
Qed.

Lemma front_shape (HA : list Z) :
  Forall is_hextet HA ->
  exists (p0 : str) (X : list str),
    end_marker HA ++ (format_x <$> HA) = p0 :: X
    /\ Forall (fun p => p <> []) X
    /\ ((p0 = [] /\ X = [] /\ length HA = 0%nat)
        \/ (p0 <> [] /\ length HA = S (length X)))
    /\ (if decide (length HA = 0%nat) then [] else p0 :: X) = format_x <$> HA.
Proof.
  intros HH. destruct HH as [|ha HA [Hha _] HH].
  - exists [], []. repeat split; [constructor | by left].
  - exists (format_x ha), (format_x <$> HA). split; [done|].
    split; [by apply format_x_parts_nonempty|]. split; [|done].
    right. split; [by apply format_x_nonempty|]. simpl. by rewrite length_fmap.
Qed.

Lemma back_shape (HB : list Z) :
  Forall is_hextet HB ->
  exists (pl : str) (Y : list str),
    (format_x <$> HB) ++ end_marker HB = Y ++ [pl]
    /\ Forall (fun p => p <> []) Y
    /\ ((pl = [] /\ Y = [] /\ length HB = 0%nat)
        \/ (pl <> [] /\ length HB = S (length Y)))
    /\ (if decide (length HB = 0%nat) then [] else Y ++ [pl]) = format_x <$> HB.
Proof.
  intros HH. destruct (decide (HB = [])) as [->|Hne].
  - exists [], []. repeat split; [constructor | by left].
  - destruct (exists_last Hne) as (HB' & hb & ->).
    apply Forall_app in HH as [HH' [[Hhb _] _]%Forall_cons].
    exists (format_x hb), (format_x <$> HB').
    assert (Hm : end_marker (HB' ++ [hb]) = []) by by destruct HB'.
    rewrite Hm, app_nil_r, fmap_app. split; [done|].
    split; [by apply format_x_parts_nonempty|]. split.
    + right. split; [by apply format_x_nonempty|].
      rewrite length_app, length_fmap. simpl. lia.
    + rewrite decide_False; [done|]. rewrite length_app. simpl. lia.
Qed.

(** Reading back a compressed address. *)
Lemma parse_compressed (HA HB : list Z) (k : nat) :
  Forall is_hextet HA -> Forall is_hextet HB ->
  (2 <= k)%nat -> (length HA + k + length HB = 8)%nat ->
  ipaddress._ip_int_from_string
    (join [COLON] (end_marker HA ++ (format_x <$> HA) ++ [[]]
                   ++ (format_x <$> HB) ++ end_marker HB))
  = Ok (horner 0 (HA ++ replicate k 0 ++ HB)).
Proof.
  intros HHA HHB Hk Hlen.
  destruct (front_shape HA HHA) as (p0 & X & Hf & HX & Hhi & HA').
  destruct (back_shape HB HHB) as (pl & Y & Hb & HY & Hlo & HB').
  set (parts := end_marker HA ++ (format_x <$> HA) ++ [[]]
                ++ (format_x <$> HB) ++ end_marker HB).
  assert (Hparts : parts = p0 :: (X ++ [] :: Y) ++ [pl]).
  { subst parts. rewrite app_assoc, Hf, Hb. cbn. by rewrite <- !app_assoc. }
  assert (Hfree : Forall (Forall (fun c => c <> COLON)) parts).
  { subst parts. repeat (apply Forall_app; split);
      try (by apply format_x_parts_free; [|apply colon_not_hex]);
      try (by repeat constructor).
    - destruct HA; by repeat constructor.
    - destruct HB; by repeat constructor. }
  assert (Hl : (3 <= length parts)%nat)
    by (rewrite (skip_parts_length parts p0 pl X Y Hparts); lia).
  assert (Hlast : default [] (last parts) = pl).
  { rewrite Hparts. change (p0 :: ?l ++ [pl]) with ((p0 :: l) ++ [pl]).
    by rewrite last_snoc. }
  rewrite parse_parts; try done.
  - rewrite (from_parts_skip parts p0 pl X Y (length HA) (length HB));
      try done; [|lia].
    rewrite HA', HB', shift_in_format_x by done. cbn [mbind result_bind].
    rewrite shift_in_format_x by done. cbn [except_ValueError].
    rewrite !horner_app, horner_zeros.
    rewrite Z.shiftl_mul_pow2, pow2_16 by lia.
    replace (8 - length HA - length HB)%nat with k by lia. done.
  - rewrite Hlast. destruct Hlo as [(-> & _)|[Hpl Hlb]]; [done|].
    assert (Hin : pl ∈ format_x <$> HB).
    { rewrite <- HB', decide_False by lia. apply elem_of_app. right. by left. }
    apply inb_false.
    pose proof (format_x_parts_free HB DOT HHB dot_not_hex) as HF.
    rewrite Forall_forall in HF. by apply HF.
Qed.

(** Reading back an address written in full. *)
Lemma parse_full (H : list Z) :
  Forall is_hextet H -> length H = 8%nat ->
  ipaddress._ip_int_from_string (join [COLON] (format_x <$> H))
  = Ok (horner 0 H).
Proof.
  intros HH Hlen.
  pose proof (format_x_parts_nonempty H HH) as Hne.
  assert (Hl : length (format_x <$> H) = 8%nat) by by rewrite length_fmap.
  assert (Hlast : exists pl, last (format_x <$> H) = Some pl
                             /\ pl ∈ format_x <$> H).
  { destruct (last (format_x <$> H)) as [pl|] eqn:E.
    - exists pl. split; [done|]. apply last_Some in E as [l' ->].
      apply elem_of_app. right. by left.
    - apply last_None in E. rewrite E in Hl. done. }
  destruct Hlast as (pl & Hlast & Hin).
  assert (Hhead : exists p0, head (format_x <$> H) = Some p0
                             /\ p0 ∈ format_x <$> H).
  { destruct (format_x <$> H) as [|p0 l]; [done|]. exists p0. split; [done|by left]. }
  destruct Hhead as (p0 & Hhead & Hin0).
  rewrite Forall_forall in Hne.
  rewrite parse_parts.
  - unfold from_parts. rewrite Hl, Hlast, Hhead. cbn [default].
    unfold ipaddress._HEXTET_COUNT. cbn [Nat.add Nat.ltb Nat.leb Nat.eqb negb].
    rewrite find_skip_none.
    + cbn [mbind result_bind].
      destruct p0 as [|? ?]; [by destruct (Hne [] Hin0)|].
      destruct pl as [|? ?]; [by destruct (Hne [] Hin)|].
      unfold id. cbn [is_empty mbind result_bind Nat.sub].
      rewrite take_ge by lia.
      replace (drop 8 (format_x <$> H)) with (@nil str)
        by (symmetry; apply drop_ge; lia).
      rewrite shift_in_format_x by done. cbn [mbind result_bind].
      cbn [ipaddress.shift_in except_ValueError].
      by rewrite Z.shiftl_0_r.
    + apply Forall_forall. intros p Hp. apply Hne.
      assert (Hp' : p ∈ tail (format_x <$> H)).
      { clear -Hp. generalize dependent (tail (format_x <$> H)).
        intros l. induction l as [|x [|y l] IH]; simpl; [done| |].
        - by intros ?%elem_of_nil.
        - intros [->|Hp]%elem_of_cons; [by left|]. right. by apply IH. }
      destruct (format_x <$> H) as [|? ?]; [done|]. by right.
  - lia.
  - by apply format_x_parts_free; [|apply colon_not_hex].
  - rewrite Hlast. simpl. apply inb_false.
    pose proof (format_x_parts_free H DOT HH dot_not_hex) as HF.
    rewrite Forall_forall in HF. by apply HF.
Qed.

(** [str] then [_ip_int_from_string] gives the address back. *)
Lemma str_roundtrip v :
  0 <= v < 2 ^ 128 ->
  exists s, ipaddress._string_from_ip_int v = Ok s
            /\ ipaddress._ip_int_from_string s = Ok v.
Proof.
  intros Hv. eexists. split; [by apply string_from_ip_int_eq|].
  destruct (hextets_of_spec v Hv) as (Hl & HH & Hval).
  destruct (compress_shape (hextets_of v) HH) as [->|(HA & HB & k & Hk & E & ->)].
  - rewrite parse_full by done. by rewrite Hval.
  - rewrite E in HH, Hl, Hval.
    apply Forall_app in HH as [HHA [_ HHB]%Forall_app].
    rewrite !length_app, length_replicate in Hl.
    rewrite (parse_compressed HA HB k) by (done || lia). by rewrite Hval.
Qed.

(** ** What [ipv6_to_canonical] returns *)

(** The 128-bit value an address text denotes: the [_ip] of the
    [IPv6Address] object built from the stripped text. *)
Definition ipv6_value (x : str) : result Z :=
  addr ← ipaddress.IPv6Address_init (strip x); Ok (ipaddress._ip addr).

Lemma percent_not_accepted (s1 s2 : str) v :
  ipaddress._ip_int_from_string (s1 ++ [PERCENT] ++ s2) <> Ok v.
Proof.
  intros [_ H]%ip_int_from_string_Ok.
  rewrite !Forall_app, Forall_singleton in H. destruct H as (_ & H & _).
  unfold is_hex, PERCENT, COLON, DOT in H. lia.
Qed.

Lemma ipv6_to_canonical_Ok x cx :
  ipv6_to_canonical x = Ok cx ->
  exists v, ipv6_value x = Ok v /\ 0 <= v < 2 ^ 128 /\ cx = lower (explode v).
Proof.
  unfold ipv6_to_canonical, ipv6_value.
  destruct (ipaddress.IPv6Address_init (strip x)) as [addr|] eqn:Einit; [|done].
  cbn [mbind result_bind]. intros H. exists (ipaddress._ip addr). split; [done|].
  assert (Hv : 0 <= ipaddress._ip addr < 2 ^ 128).
  { unfold ipaddress.IPv6Address_init in Einit.
    destruct (inb SLASH _); [done|].
    destruct (ipaddress._split_scope_id _) as [[addr_str scope]|]; [|done].
    cbn [mbind result_bind] in Einit.
    destruct (ipaddress._ip_int_from_string addr_str) as [ip|] eqn:Eip; [|done].
    injection Einit as <-. simpl. by apply ip_int_from_string_Ok in Eip as [? _]. }
  split; [done|].
  destruct (str_roundtrip _ Hv) as (s0 & Hs0 & Hback).
  unfold ipaddress.exploded, ipaddress.__str__ in H. rewrite Hs0 in H.
  cbn [mbind result_bind] in H.
  destruct (ipaddress._scope_id addr) as [scope|].
  - destruct (is_empty scope).
    + cbn [mbind result_bind] in H. rewrite Hback in H. by injection H as <-.
    + cbn [mbind result_bind] in H.
      destruct (ipaddress._ip_int_from_string (s0 ++ [PERCENT] ++ scope))
        as [v'|] eqn:E; [|done].
      by apply percent_not_accepted in E.
  - cbn [mbind result_bind] in H. rewrite Hback in H. by injection H as <-.
Qed.

(** The canonical form is the 39 characters of eight groups of four
    lowercase hexadecimal digits. *)
Lemma canonical_charset x cx :
  ipv6_to_canonical x = Ok cx ->
  Forall (fun c => is_lower_hex c \/ c = COLON) cx /\ cx <> [].
Proof.
  intros (v & _ & Hv & ->)%ipv6_to_canonical_Ok.
  rewrite lower_id by by apply explode_charset.
  split; [by apply explode_charset|].
  unfold explode. destruct (hex_groups_spec v Hv) as [Hl _].
  destruct (ipaddress.hex_groups v) as [|g [|g' gs]]; try done.
  change (join [COLON] (g :: g' :: gs))
    with (g ++ COLON :: join [COLON] (g' :: gs)).
  by destruct g.
Qed.

(** ** Canonical strings as lines of a spill file *)

(** A string of the canonical alphabet: lowercase hexadecimal digits and
    colons. *)
Definition canonical_chars (c : str) : Prop :=
  Forall (fun x => is_lower_hex x \/ x = COLON) c.

Lemma canonical_char_plain x :
  is_lower_hex x \/ x = COLON ->
  isspace x = false /\ x <> LF /\ x <> CR /\ 0 <= x < 128.
Proof.
  unfold is_lower_hex, COLON, LF, CR, isspace. intros Hx.
  repeat split; lia.
Qed.

Lemma lstrip_plain (c : str) (rest : str) :
  c <> [] -> canonical_chars c -> lstrip (c ++ rest) = c ++ rest.
Proof.
  intros Hne Hc. destruct Hc as [|x c Hx _]; [done|].
  simpl. by destruct (canonical_char_plain x Hx) as (-> & _).
Qed.

Lemma strip_canonical (c : str) :
  c <> [] -> canonical_chars c -> strip c = c.
Proof.
  intros Hne Hc. unfold strip, rstrip.
  rewrite <- (app_nil_r c) at 1. rewrite lstrip_plain by done.
  rewrite app_nil_r.
  destruct (exists_last Hne) as (c' & x & ->).
  rewrite reverse_snoc. apply Forall_app in Hc as [_ [Hx _]%Forall_cons].
  simpl. destruct (canonical_char_plain x Hx) as (-> & _).
  by rewrite <- reverse_snoc, reverse_involutive.
Qed.

Lemma strip_canonical_line (c : str) :
  c <> [] -> canonical_chars c -> strip (c ++ [LF]) = c.
Proof.
  intros Hne Hc. unfold strip, rstrip.
  rewrite lstrip_plain by done. rewrite reverse_snoc.
  change (lstrip (LF :: reverse c)) with (lstrip (reverse c)).
  fold (rstrip c). pose proof (strip_canonical c Hne Hc) as H.
  unfold strip in H. rewrite <- (app_nil_r c) in H at 1.
  rewrite lstrip_plain, app_nil_r in H by done. done.
Qed.

Lemma translate_newlines_plain (s : str) :
  Forall (fun x => x <> CR) s -> os.translate_newlines s = s.
Proof.
  induction 1 as [|x s Hx _ IH]; [done|].
  cbn [os.translate_newlines]. apply Z.eqb_neq in Hx as ->. by rewrite IH.
Qed.

Lemma lines_from_line (cur c rest : str) :
  Forall (fun x => x <> LF) c ->
  os.lines_from cur (c ++ LF :: rest)
  = (cur ++ c ++ [LF]) :: os.lines_from [] rest.
Proof.
  intros Hc. revert cur. induction Hc as [|x c Hx _ IH]; intros cur.
  - cbn [app os.lines_from]. by change (LF =? LF) with true.
  - cbn [app os.lines_from]. apply Z.eqb_neq in Hx as ->.
    rewrite IH, <- app_assoc. done.
Qed.

(** The text of a spill file: the lines written to it, each with its
    terminator. *)
Definition spill_text (cs : list str) : str :=
  concat ((fun c => c ++ [LF]) <$> cs).

Lemma iter_lines_spill (cs : list str) :
  Forall canonical_chars cs ->
  os.iter_lines (spill_text cs) = (fun c => c ++ [LF]) <$> cs.
Proof.
  intros Hcs. unfold os.iter_lines, spill_text.
  rewrite translate_newlines_plain.
  - induction Hcs as [|c cs Hc _ IH]; [done|].
    cbn [fmap list_fmap concat]. rewrite <- app_assoc.
    cbn [app]. rewrite lines_from_line, IH; [done|].
    eapply Forall_impl; [exact Hc|]. intros x Hx.
    by destruct (canonical_char_plain x Hx) as (_ & ? & _).
  - apply Forall_concat, Forall_fmap. eapply Forall_impl; [exact Hcs|].
    intros c Hc. unfold compose. apply Forall_app. split.
    + eapply Forall_impl; [exact Hc|]. intros x Hx.
      by destruct (canonical_char_plain x Hx) as (_ & _ & ? & _).
    + by apply Forall_singleton.
Qed.

Lemma spill_text_app cs1 cs2 :
  spill_text (cs1 ++ cs2) = spill_text cs1 ++ spill_text cs2.
Proof. unfold spill_text. by rewrite fmap_app, concat_app. Qed.

(** The distinct lines [count_unique_in_partition] finds in a spill file. *)
Lemma add_line_spill (U : gset str) (cs : list str) :
  Forall (fun c => c <> [] /\ canonical_chars c) cs ->
  foldl add_line U ((fun c => c ++ [LF]) <$> cs) = list_to_set cs ∪ U.
Proof.
  intros Hcs. revert U. induction Hcs as [|c cs [Hne Hc] _ IH]; intros U.
  - simpl. set_solver.
  - cbn [fmap list_fmap foldl]. rewrite IH. unfold add_line.
    rewrite strip_canonical_line by done.
    destruct c; [done|]. cbn [is_empty]. set_solver.
Qed.

(** ** The partition of a canonical string *)

Lemma encode_ascii (s : str) :
  Forall (fun x => x < 128) s -> hashlib.encode s = Ok s.
Proof.
  induction 1 as [|x s Hx _ IH]; [done|].
  cbn [hashlib.encode]. unfold hashlib.encode_char.
  replace (x <? 128) with true by (symmetry; by apply Z.ltb_lt).
  cbn [mbind result_bind]. by rewrite IH.
Qed.

Lemma hex_digit_is_hex d : 0 <= d < 16 -> is_digit 16 (hex_digit d).
Proof. intros. apply hex_digit_is_digit; lia. Qed.

Lemma land_255 x : 0 <= Z.land x 255 < 256.
Proof.
  change 255 with (Z.ones 8). rewrite Z.land_ones by lia.
  apply Z.mod_pos_bound. lia.
Qed.

Lemma hex_pair_digits b :
  0 <= b < 256 ->
  is_digit 16 (hex_digit (b / 16)) /\ is_digit 16 (hex_digit (b mod 16)).
Proof.
  intros Hb. split; apply hex_digit_is_hex.
  - split; [apply Z.div_pos; lia | apply Z.div_lt_upper_bound; lia].
  - apply Z.mod_pos_bound. lia.
Qed.

(** The first eight characters of an MD5 [hexdigest] are hexadecimal
    digits, so reading them never fails. *)
Lemma digest_prefix_int (data : list Z) :
  exists h, int (take 8 (hashlib.hexdigest (hashlib.md5 data))) 16 = Ok h.
Proof.
  unfold hashlib.md5. cbv zeta.
  destruct (foldl hashlib.process _ _) as [[[a b] c] d].
  unfold hashlib.le_bytes.
  cbn [seq fmap list_fmap app hashlib.hexdigest mbind list_bind take].
  unfold int. cbv beta iota. eexists.
  apply (int_digits_valid 16); try lia.
  repeat (apply Forall_cons; split; [apply hex_pair_digits, land_255|]).
  constructor.
Qed.

Lemma partition_index_range (c : str) :
  canonical_chars c ->
  exists i, partition_index c = Ok i /\ 0 <= i < NUM_PARTITIONS.
Proof.
  intros Hc. unfold partition_index. rewrite encode_ascii.
  - cbn [mbind result_bind]. destruct (digest_prefix_int c) as [h ->].
    cbn [mbind result_bind]. eexists. split; [done|].
    apply Z.mod_pos_bound. reflexivity.
  - eapply Forall_impl; [exact Hc|]. intros x Hx.
    destruct (canonical_char_plain x Hx) as (_ & _ & _ & ?). lia.
Qed.

(** ** Paths of the spill files *)

Definition slash_free (name : str) : Prop := Forall (fun x => x <> SLASH) name.

Lemma until_slash_free (name rest : str) :
  slash_free name -> (rest = [] \/ exists r, rest = SLASH :: r) ->
  os.until_slash (name ++ rest) = name.
Proof.
  intros Hn Hr. induction Hn as [|x name Hx _ IH].
  - destruct Hr as [->|[r ->]]; [done|]. by cbn.
  - cbn [app os.until_slash]. apply Z.eqb_neq in Hx as ->. by rewrite IH.
Qed.

Lemma last_reverse_head (a : str) : head (reverse a) = last a.
Proof.
  destruct (decide (a = [])) as [->|Hne]; [done|].
  destruct (exists_last Hne) as (a' & x & ->).
  by rewrite reverse_snoc, last_snoc.
Qed.

Lemma slash_free_reverse name : slash_free name -> slash_free (reverse name).
Proof. unfold slash_free. rewrite !Forall_forall. intros H x Hx. apply H. by apply elem_of_reverse. Qed.

(** Splitting a path whose last component has no slash. *)
Lemma path_split_app (h name : str) :
  slash_free name -> (h = [] \/ os.ends_with_slash h = true) ->
  os.path_split (h ++ name) = (os.dirkey h, name).
Proof.
  intros Hn Hh. unfold os.path_split.
  assert (Htail : reverse (os.until_slash (reverse (h ++ name))) = name).
  { rewrite reverse_app, until_slash_free, reverse_involutive;
      [done | by apply slash_free_reverse |].
    destruct Hh as [->|Hh]; [by left|]. right.
    unfold os.ends_with_slash in Hh. rewrite <- last_reverse_head in Hh.
    destruct (reverse h) as [|x r]; [done|]. simpl in Hh.
    apply Z.eqb_eq in Hh as ->. by exists r. }
  rewrite Htail. f_equal.
  rewrite length_app, Nat.add_sub. by rewrite take_app_length.
Qed.

Lemma dirkey_slash (d : str) :
  d <> [] -> os.ends_with_slash d = false -> os.dirkey (d ++ [SLASH]) = os.dirkey d.
Proof.
  intros Hne Hd.
  assert (Hall : forallb (Z.eqb SLASH) d = false).
  { destruct (exists_last Hne) as (d' & x & ->).
    unfold os.ends_with_slash in Hd. rewrite last_snoc in Hd.
    rewrite forallb_app. cbn [forallb].
    by rewrite (Z.eqb_sym SLASH x), Hd, !andb_false_r. }
  unfold os.dirkey. rewrite forallb_app, Hall. cbn [andb].
  rewrite reverse_snoc. cbn [os.lstrip_slash].
  by change (SLASH =? SLASH) with true.
Qed.

(** A file directly in [d] is found in the directory [dirkey d], under
    its name. *)
Lemma path_split_join (d name : str) :
  slash_free name -> name <> [] ->
  os.path_split (os.path_join d name) = (os.dirkey d, name).
Proof.
  intros Hn Hne. unfold os.path_join.
  destruct name as [|c name'] eqn:En; [done|]. rewrite <- En.
  assert (Hc : (c =? SLASH) = false).
  { apply Z.eqb_neq. by apply Forall_cons in Hn as [? _]. }
  rewrite Hc. rewrite <- En in Hn.
  destruct (is_empty d) eqn:Ed.
  - destruct d; [|done]. cbn [orb]. by apply path_split_app; [|left].
  - destruct (os.ends_with_slash d) eqn:Es; cbn [orb].
    + by apply path_split_app; [|right].
    + rewrite app_assoc, path_split_app; [|done|].
      * rewrite dirkey_slash; [done | by destruct d | done].
      * right. unfold os.ends_with_slash. by rewrite last_snoc.
Qed.

Lemma part_name_digits i :
  0 <= i ->
  exists ds, part_name i = py "part_" ++ ds ++ py ".txt"
             /\ Forall (is_digit 10) ds /\ digits_val 10 ds = i
             /\ (4 <= length ds)%nat.
Proof.
  intros Hi. exists (zfill 4 (format_d i)). split; [done|].
  unfold zfill. split; [|split].
  - apply Forall_app. split; [|by apply format_d_is_digit].
    apply Forall_replicate. exists 0. split; [done|lia].
  - rewrite digits_val_zeros. by apply format_d_val.
  - rewrite length_app, length_replicate. lia.
Qed.

Lemma digit_10_char x : is_digit 10 x -> 48 <= x <= 57.
Proof.
  intros (d & Hd & Hr). unfold digit_val in Hd.
  destruct ((48 <=? x) && (x <=? 57)) eqn:E1.
  { apply andb_true_iff in E1 as [?%Z.leb_le ?%Z.leb_le]. lia. }
  destruct ((97 <=? x) && (x <=? 102)) eqn:E2.
  { apply andb_true_iff in E2 as [?%Z.leb_le ?%Z.leb_le].
    injection Hd as <-. lia. }
  destruct ((65 <=? x) && (x <=? 70)) eqn:E3; [|done].
  apply andb_true_iff in E3 as [?%Z.leb_le ?%Z.leb_le].
  injection Hd as <-. lia.
Qed.

Lemma part_name_plain i :
  0 <= i -> slash_free (part_name i) /\ part_name i <> [].
Proof.
  intros Hi. destruct (part_name_digits i Hi) as (ds & -> & Hds & _).
  split; [|done]. unfold slash_free. rewrite !Forall_app. split; [|split].
  - vm_compute. repeat constructor; discriminate.
  - eapply Forall_impl; [exact Hds|]. intros x Hx%digit_10_char.
    unfold SLASH. lia.
  - vm_compute. repeat constructor; discriminate.
Qed.

(** Digit strings of equal value and equal length start alike. *)
Lemma digits_app_inv (ds1 ds2 t1 t2 : str) :
  Forall (is_digit 10) ds1 -> Forall (is_digit 10) ds2 ->
  ds1 ++ t1 = ds2 ++ t2 ->
  (forall x, head t1 = Some x -> ~ is_digit 10 x) ->
  (forall x, head t2 = Some x -> ~ is_digit 10 x) ->
  t1 <> [] -> t2 <> [] ->
  ds1 = ds2.
Proof.
  intros H1. revert ds2. induction H1 as [|x ds1 Hx _ IH]; intros ds2 H2 E N1 N2 T1 T2.
  - destruct H2 as [|y ds2 Hy _]; [done|]. simpl in E.
    destruct t1 as [|z t1]; [done|]. injection E as -> _.
    by destruct (N1 y eq_refl).
  - destruct H2 as [|y ds2 Hy H2].
    + simpl in E. destruct t2 as [|z t2]; [done|]. injection E as <- _.
      by destruct (N2 x eq_refl).
    + injection E as -> E. f_equal. by apply IH.
Qed.

Lemma part_name_inj i j :
  0 <= i -> 0 <= j -> part_name i = part_name j -> i = j.
Proof.
  intros Hi Hj E.
  destruct (part_name_digits i Hi) as (di & Ei & Hdi & <- & _).
  destruct (part_name_digits j Hj) as (dj & Ej & Hdj & <- & _).
  rewrite Ei, Ej in E. apply app_inv_head in E.
  f_equal. apply (digits_app_inv di dj (py ".txt") (py ".txt")); try done.
  - intros x [= <-] Hx%digit_10_char. vm_compute in Hx. destruct Hx as [H _]. by apply H.
  - intros x [= <-] Hx%digit_10_char. vm_compute in Hx. destruct Hx as [H _]. by apply H.
Qed.

(** ** Running effectful code *)

Lemma run_ret {A} (a : A) w : run (mret a) w = (Ok a, w).
Proof. reflexivity. Qed.

Lemma run_bind {A B} (m : io A) (f : A -> io B) w :
  run (m ≫= f) w =
  match run m w with
  | (Ok a, w') => run (f a) w'
  | (Raise e, w') => (Raise e, w')
  end.
Proof. reflexivity. Qed.

Lemma run_lift {A} (r : result A) w : run (lift r) w = (r, w).
Proof. reflexivity. Qed.

Lemma run_raise {A} e w : run (@raise A e) w = (Raise e, w).
Proof. reflexivity. Qed.

Lemma run_for_each_nil {A S} (body : S -> A -> io S) acc w :
  run (for_each body acc []) w = (Ok acc, w).
Proof. reflexivity. Qed.

Lemma run_for_each_cons {A S} (body : S -> A -> io S) acc x xs w :
  run (for_each body acc (x :: xs)) w =
  match run (body acc x) w with
  | (Ok acc', w') => run (for_each body acc' xs) w'
  | (Raise e, w') => (Raise e, w')
  end.
Proof. reflexivity. Qed.

Lemma run_for_each_app {A S} (body : S -> A -> io S) acc xs ys w :
  run (for_each body acc (xs ++ ys)) w =
  match run (for_each body acc xs) w with
  | (Ok acc', w') => run (for_each body acc' ys) w'
  | (Raise e, w') => (Raise e, w')
  end.
Proof.
  revert acc w. induction xs as [|x xs IH]; intros acc w; [done|].
  cbn [app]. rewrite !run_for_each_cons.
  destruct (run (body acc x) w) as [[acc'|e] w']; [apply IH | done].
Qed.

(** A loop whose body always succeeds, with an invariant over the items
    already visited. *)
Lemma for_each_invariant {A S} (body : S -> A -> io S)
    (I : list A -> S -> World -> Prop) (xs : list A) acc w :
  I [] acc w ->
  (forall seen x rest acc w,
     xs = seen ++ x :: rest -> I seen acc w ->
     exists acc' w', run (body acc x) w = (Ok acc', w')
                     /\ I (seen ++ [x]) acc' w') ->
  exists acc' w', run (for_each body acc xs) w = (Ok acc', w') /\ I xs acc' w'.
Proof.
  intros H0 Hstep.
  assert (G : forall rest seen acc w,
             xs = seen ++ rest -> I seen acc w ->
             exists acc' w', run (for_each body acc rest) w = (Ok acc', w')
                             /\ I xs acc' w').
  { induction rest as [|x rest IH]; intros seen acc1 w1 E HI.
    - rewrite app_nil_r in E. subst seen. by exists acc1, w1.
    - destruct (Hstep seen x rest acc1 w1 E HI) as (acc2 & w2 & Hr & HI2).
      rewrite run_for_each_cons, Hr. apply (IH (seen ++ [x])); [|done].
      by rewrite <- app_assoc. }
  by apply (G xs []).
Qed.

(** ** Worlds *)

(** The world [w] with the files of directory [D] replaced by [files]. *)
Definition with_dir (D : str) (files : gmap str str) (w : World) : World :=
  set_dirs (insert D files) w.

Lemma with_dir_id D files w : w_dirs w !! D = Some files -> with_dir D files w = w.
Proof.
  intros H. destruct w as [dirs ? ? ? ?]. unfold with_dir, set_dirs. simpl in *.
  f_equal. by apply insert_id.
Qed.

Lemma with_dir_with_dir D f1 f2 w :
  with_dir D f2 (with_dir D f1 w) = with_dir D f2 w.
Proof.
  destruct w as [dirs ? ? ? ?]. unfold with_dir, set_dirs. simpl.
  f_equal. apply insert_insert_eq.
Qed.

Lemma w_dirs_with_dir D files w :
  w_dirs (with_dir D files w) = <[D := files]> (w_dirs w).
Proof. reflexivity. Qed.

Lemma lookup_file_with_dir p D files w :
  os.lookup_file p (with_dir D files w) =
  if decide ((os.path_split p).1 = D) then files !! (os.path_split p).2
  else os.lookup_file p w.
Proof.
  unfold os.lookup_file. destruct (os.path_split p) as [d n]. simpl.
  rewrite lookup_insert. case_decide as E.
  - subst d. by rewrite decide_True.
  - rewrite decide_False by done. done.
Qed.

Lemma store_file_with_dir p t D files w :
  (os.path_split p).1 = D ->
  os.store_file p t (with_dir D files w)
  = with_dir D (<[(os.path_split p).2 := t]> files) w.
Proof.
  unfold os.store_file. destruct (os.path_split p) as [d n]. simpl. intros ->.
  destruct w as [dirs ? ? ? ?]. unfold with_dir, set_dirs. simpl. f_equal.
  apply map_eq. intros d. rewrite lookup_alter, !lookup_insert.
  case_decide; [|done]. by rewrite decide_True.
Qed.

Lemma w_io_store_file p t w : w_io (os.store_file p t w) = w_io w.
Proof. unfold os.store_file. by destruct (os.path_split p). Qed.

(** ** File operations when no I/O fails *)

Section no_faults.
Context (w : World).
Hypothesis Hio : w_io w = None.

Lemma run_tick : run tick w = (Ok (), w).
Proof. unfold tick. simpl. by rewrite Hio. Qed.

Lemma run_read_lines p :
  run (os.read_lines p) w =
  (match os.lookup_file p w with
   | Some text => Ok (os.iter_lines text)
   | None => Raise OSError
   end, w).
Proof.
  unfold os.read_lines. rewrite run_bind, run_tick. simpl.
  by destruct (os.lookup_file p w).
Qed.

Lemma run_getsize p :
  run (os.getsize p) w =
  (match os.lookup_file p w with
   | Some text => Ok (foldr (fun c n => os.utf8_width c + n) 0 text)
   | None => Raise OSError
   end, w).
Proof.
  unfold os.getsize. rewrite run_bind, run_tick. simpl.
  by destruct (os.lookup_file p w).
Qed.

Lemma run_open_w p :
  run (os.open_w p) w =
  match w_dirs w !! (os.path_split p).1 with
  | Some _ => (Ok (), os.store_file p [] w)
  | None => (Raise OSError, w)
  end.
Proof. unfold os.open_w. by rewrite run_bind, run_tick. Qed.

Lemma run_open_a p :
  run (os.open_a p) w =
  match w_dirs w !! (os.path_split p).1 with
  | Some _ =>
      match os.lookup_file p w with
      | Some _ => (Ok (), w)
      | None => (Ok (), os.store_file p [] w)
      end
  | None => (Raise OSError, w)
  end.
Proof. unfold os.open_a. by rewrite run_bind, run_tick. Qed.

Lemma run_write p text :
  run (os.write p text) w =
  match os.lookup_file p w with
  | Some old => (Ok (), os.store_file p (old ++ text) w)
  | None => (Raise OSError, w)
  end.
Proof. unfold os.write. by rewrite run_bind, run_tick. Qed.

End no_faults.


(** ** The spill files of a temporary directory *)

(** The number of partitions, as a list length. *)
Definition P : nat := Z.to_nat NUM_PARTITIONS.

Definition spill_name (k : nat) : str := part_name (Z.of_nat k).

Lemma partition_paths_seq temp_dir :
  partition_paths temp_dir
  = (fun k => os.path_join temp_dir (spill_name k)) <$> seq 0 P.
Proof.
  unfold partition_paths, seqZ. rewrite <- list_fmap_compose.
  apply list_fmap_ext. intros _ k _. unfold compose, spill_name.
  by rewrite Z.add_0_r.
Qed.

Lemma enumerate_fmap_seq {A} (g : nat -> A) (a n : nat) :
  zip (seq a n) (g <$> seq a n) = (fun k => (k, g k)) <$> seq a n.
Proof.
  revert a. induction n as [|n IH]; intros a; [done|].
  cbn [seq fmap list_fmap zip zip_with]. f_equal. apply IH.
Qed.

Lemma enumerate_paths temp_dir :
  enumerate (partition_paths temp_dir)
  = (fun k => (k, os.path_join temp_dir (spill_name k))) <$> seq 0 P.
Proof.
  unfold enumerate. rewrite partition_paths_seq, length_fmap, length_seq.
  apply enumerate_fmap_seq.
Qed.

Lemma run_for_each_fmap {A B S} (f : A -> B) (body : S -> B -> io S) acc xs w :
  run (for_each body acc (f <$> xs)) w
  = run (for_each (fun s x => body s (f x)) acc xs) w.
Proof.
  revert acc w. induction xs as [|x xs IH]; intros acc w; [done|].
  cbn [fmap list_fmap]. rewrite !run_for_each_cons.
  destruct (run (body acc (f x)) w) as [[acc'|e] w']; [apply IH | done].
Qed.

Lemma spill_name_inj j k : spill_name j = spill_name k -> j = k.
Proof. intros H. apply part_name_inj in H; lia. Qed.

Lemma seq_split_elem (n : nat) (seen rest : list nat) (x : nat) :
  seq 0 n = seen ++ x :: rest ->
  (x < n)%nat /\ (x ∉ seen) /\ forall k, k ∈ seen -> (k < n)%nat.
Proof.
  intros E. pose proof (NoDup_seq 0 n) as Hnd. rewrite E in Hnd.
  apply NoDup_app in Hnd as (_ & Hd & _).
  assert (Hin : forall k, k ∈ seen ++ x :: rest -> (k < n)%nat).
  { intros k Hk. rewrite <- E in Hk. apply elem_of_seq in Hk. lia. }
  split; [apply Hin; set_solver|]. split.
  - intros Hx. apply (Hd x Hx). by left.
  - intros k Hk. apply Hin. set_solver.
Qed.

(** The canonical strings of [cs] that fall into partition [k]. *)
Definition part (k : nat) (cs : list str) : list str :=
  filter (fun c => partition_index c = Ok (Z.of_nat k)) cs.

(** The canonical forms of the non-blank lines in order, or the error of
    the first line that has none. *)
Fixpoint canonical_lines (lines : list str) : result (list str) :=
  match lines with
  | [] => Ok []
  | line :: rest =>
      let line := strip line in
      if is_empty line then canonical_lines rest
      else c ← ipv6_to_canonical line; cs ← canonical_lines rest; Ok (c :: cs)
  end.

(** What [ipv6_to_canonical] returns. *)
Definition is_canonical (c : str) : Prop := c <> [] /\ canonical_chars c.

Lemma ipv6_to_canonical_is_canonical x c :
  ipv6_to_canonical x = Ok c -> is_canonical c.
Proof. intros [? ?]%canonical_charset. by split. Qed.

Lemma canonical_lines_valid lines cs :
  canonical_lines lines = Ok cs -> Forall is_canonical cs.
Proof.
  revert cs. induction lines as [|line lines IH]; intros cs; simpl.
  - intros [= <-]. constructor.
  - destruct (is_empty (strip line)); [apply IH|].
    destruct (ipv6_to_canonical (strip line)) as [c|] eqn:Ec; [|done].
    destruct (canonical_lines lines) as [cs'|]; [|done].
    simpl. intros [= <-]. constructor; [|by apply IH].
    by eapply ipv6_to_canonical_is_canonical.
Qed.

Lemma part_snoc k cs c j :
  partition_index c = Ok (Z.of_nat j) ->
  part k (cs ++ [c]) = part k cs ++ (if decide (k = j) then [c] else []).
Proof.
  intros Hc. unfold part. rewrite filter_app. f_equal.
  case_decide as E.
  - subst k. by rewrite filter_cons_True.
  - rewrite filter_cons_False; [done|]. rewrite Hc. intros [= H]. lia.
Qed.

(** ** Counting by partition *)

Definition sumZ (l : list Z) : Z := foldr Z.add 0 l.

Lemma fmap_Permutation_inv {A B} (f : A -> B) (l : list B) (ks : list A) :
  l ≡ₚ f <$> ks -> exists ks', l = f <$> ks' /\ ks' ≡ₚ ks.
Proof.
  intros H. apply (Permutation_map_inv f ks) in H as (ks' & E & Hp).
  exists ks'. split; [exact E | by symmetry].
Qed.

Lemma sumZ_cons x l : sumZ (x :: l) = x + sumZ l.
Proof. done. Qed.

Lemma sumZ_app l1 l2 : sumZ (l1 ++ l2) = sumZ l1 + sumZ l2.
Proof. unfold sumZ. induction l1 as [|x l1 IH]; simpl; lia. Qed.

Lemma sumZ_perm l1 l2 : l1 ≡ₚ l2 -> sumZ l1 = sumZ l2.
Proof. unfold sumZ. induction 1; simpl; lia. Qed.

(** The distinct lines of partition [k]. *)
Definition part_count (cs : list str) (k : nat) : Z :=
  Z.of_nat (size (list_to_set (part k cs) : gset str)).

(** The canonical strings whose partition is below [n]. *)
Definition below (n : nat) (c : str) : Prop :=
  match partition_index c with
  | Ok i => 0 <= i < Z.of_nat n
  | Raise _ => False
  end.

#[global] Instance below_dec n c : Decision (below n c).
Proof. unfold below. destruct (partition_index c); apply _. Defined.

Lemma below_S n c :
  below (S n) c <-> below n c \/ partition_index c = Ok (Z.of_nat n).
Proof.
  unfold below. destruct (partition_index c) as [i|e].
  - split.
    + intros H. destruct (decide (i = Z.of_nat n)) as [->|]; [by right|left; lia].
    + intros [H|[= ->]]; lia.
  - split; [done|]. by intros [?|?].
Qed.

Lemma sum_part_counts (cs : list str) (n : nat) :
  sumZ (part_count cs <$> seq 0 n)
  = Z.of_nat (size (list_to_set (filter (below n) cs) : gset str)).
Proof.
  induction n as [|n IH].
  - simpl. replace (filter (below 0) cs) with (@nil str);
      [by rewrite list_to_set_nil, size_empty|].
    symmetry. induction cs as [|c cs IHcs]; [done|].
    rewrite filter_cons_False; [exact IHcs|]. unfold below.
    destruct (partition_index c); [lia | tauto].
  - rewrite seq_S, fmap_app, sumZ_app, IH. cbn [fmap list_fmap sumZ foldr].
    unfold part_count. rewrite Z.add_0_r, <- Nat2Z.inj_add, <- size_union.
    + do 2 f_equal. apply set_eq. intros c.
      rewrite elem_of_union, !elem_of_list_to_set. unfold part.
      rewrite !list_elem_of_filter, below_S. tauto.
    + intros c. rewrite !elem_of_list_to_set. unfold part.
      rewrite !list_elem_of_filter. intros [Hb _] [Hp _].
      unfold below in Hb. rewrite Hp in Hb. lia.
Qed.

(** Every canonical string lies in exactly one partition, so the distinct
    counts of the partitions add up to the distinct count of the whole. *)
Lemma size_by_partition (cs : list str) :
  Forall is_canonical cs ->
  sumZ (part_count cs <$> seq 0 P)
  = Z.of_nat (size (list_to_set cs : gset str)).
Proof.
  intros Hcs. rewrite sum_part_counts. do 3 f_equal.
  induction Hcs as [|c cs [_ Hc] _ IH]; [done|].
  rewrite filter_cons_True; [by rewrite IH|].
  destruct (partition_index_range c Hc) as (i & Hi & Hr).
  unfold below. rewrite Hi. unfold P. lia.
Qed.

Section spills.
Context (temp_dir : str) (w0 : World).
Hypothesis Hio : w_io w0 = None.

Local Abbreviation D := (os.dirkey temp_dir).
Local Abbreviation path k := (os.path_join temp_dir (spill_name k)).

(** The files of the temporary directory hold [g k] in spill file [k]. *)
Definition spills (files : gmap str str) (g : nat -> str) : Prop :=
  forall k, (k < P)%nat -> files !! spill_name k = Some (g k).

(** Two sets of files agree apart from the spill files. *)
Definition same_others (files files' : gmap str str) : Prop :=
  forall n, (forall k, (k < P)%nat -> n <> spill_name k) ->
            files' !! n = files !! n.

Lemma path_key k : os.path_split (path k) = (D, spill_name k).
Proof.
  destruct (part_name_plain (Z.of_nat k)) as [? ?]; [lia|].
  by apply path_split_join.
Qed.

Lemma w_io_with_dir files : w_io (with_dir D files w0) = None.
Proof. exact Hio. Qed.

Lemma lookup_spill k files :
  os.lookup_file (path k) (with_dir D files w0) = files !! spill_name k.
Proof. rewrite lookup_file_with_dir, path_key. simpl. by rewrite decide_True. Qed.

Lemma store_spill k t files :
  os.store_file (path k) t (with_dir D files w0)
  = with_dir D (<[spill_name k := t]> files) w0.
Proof. rewrite store_file_with_dir; by rewrite path_key. Qed.

Lemma run_open_w_spill k files :
  run (os.open_w (path k)) (with_dir D files w0)
  = (Ok (), with_dir D (<[spill_name k := []]> files) w0).
Proof.
  rewrite run_open_w by apply w_io_with_dir. rewrite path_key. cbn [fst].
  rewrite w_dirs_with_dir, lookup_insert_eq. apply f_equal, store_spill.
Qed.

Lemma run_open_a_spill k files t :
  files !! spill_name k = Some t ->
  run (os.open_a (path k)) (with_dir D files w0)
  = (Ok (), with_dir D files w0).
Proof.
  intros H. rewrite run_open_a by apply w_io_with_dir. rewrite path_key.
  cbn [fst]. rewrite w_dirs_with_dir, lookup_insert_eq, lookup_spill, H. done.
Qed.

Lemma run_write_spill k files old t :
  files !! spill_name k = Some old ->
  run (os.write (path k) t) (with_dir D files w0)
  = (Ok (), with_dir D (<[spill_name k := old ++ t]> files) w0).
Proof.
  intros H. rewrite run_write by apply w_io_with_dir.
  rewrite lookup_spill, H. apply f_equal, store_spill.
Qed.

Lemma spills_insert files g k t :
  spills files g ->
  spills (<[spill_name k := t]> files)
         (fun j => if decide (j = k) then t else g j).
Proof.
  intros Hs j Hj. case_decide as E.
  - subst j. apply lookup_insert_eq.
  - rewrite lookup_insert_ne; [by apply Hs|]. by intros ?%spill_name_inj.
Qed.

Lemma same_others_insert files0 files k t :
  (k < P)%nat -> same_others files0 files ->
  same_others files0 (<[spill_name k := t]> files).
Proof.
  intros Hk Hs n Hn. rewrite lookup_insert_ne; [by apply Hs|].
  intros E. by apply (Hn k).
Qed.

Lemma same_others_refl files : same_others files files.
Proof. by intros n _. Qed.

Lemma same_others_trans f1 f2 f3 :
  same_others f1 f2 -> same_others f2 f3 -> same_others f1 f3.
Proof. intros H1 H2 n Hn. by rewrite H2, H1. Qed.

(** Creating the spill files (lines 76-77) leaves them all empty. *)
Lemma create_spills files0 :
  exists files,
    run (for_each (fun _ p => os.open_w p) () (partition_paths temp_dir))
        (with_dir D files0 w0)
    = (Ok (), with_dir D files w0)
    /\ spills files (fun _ => []) /\ same_others files0 files.
Proof.
  rewrite partition_paths_seq, run_for_each_fmap.
  destruct (for_each_invariant
    (fun (_ : ()) k => os.open_w (path k))
    (fun seen _ w => exists files, w = with_dir D files w0
       /\ (forall k, k ∈ seen -> files !! spill_name k = Some [])
       /\ same_others files0 files)
    (seq 0 P) () (with_dir D files0 w0)) as ([] & w' & Hrun & files & -> & Hs & Ho).
  - exists files0. split; [done|]. split; [by intros k ?%elem_of_nil|].
    apply same_others_refl.
  - intros seen k rest [] w E (files & -> & Hs & Ho).
    destruct (seq_split_elem _ _ _ _ E) as (Hk & _ & _).
    exists (), (with_dir D (<[spill_name k := []]> files) w0).
    split; [apply run_open_w_spill|].
    exists (<[spill_name k := []]> files). split; [done|]. split.
    + intros j [Hj| ->%list_elem_of_singleton]%elem_of_app.
      * destruct (decide (j = k)) as [->|Hne]; [apply lookup_insert_eq|].
        rewrite lookup_insert_ne; [by apply Hs|]. by intros ?%spill_name_inj.
      * apply lookup_insert_eq.
    + by apply same_others_insert.
  - exists files. split; [done|]. split; [|done].
    intros k Hk. apply Hs, elem_of_seq. lia.
Qed.

(** Opening them for appending (line 80) changes nothing and yields the
    file objects in order. *)
Lemma open_spills files g :
  spills files g ->
  run (for_each (fun fhs p => _ ← os.open_a p; mret (fhs ++ [p])) []
                (partition_paths temp_dir))
      (with_dir D files w0)
  = (Ok (partition_paths temp_dir), with_dir D files w0).
Proof.
  intros Hs.
  destruct (for_each_invariant
    (fun fhs p => _ ← os.open_a p; mret (fhs ++ [p]))
    (fun seen fhs w => fhs = seen /\ w = with_dir D files w0)
    (partition_paths temp_dir) [] (with_dir D files w0))
    as (fhs & w' & Hrun & -> & ->); [done| |done].
  intros seen p rest fhs w E [-> ->].
  assert (Hp : p ∈ partition_paths temp_dir)
    by (rewrite E; apply elem_of_app; right; left).
  rewrite partition_paths_seq in Hp.
  apply list_elem_of_fmap in Hp as (k & -> & Hk%elem_of_seq).
  exists (seen ++ [path k]), (with_dir D files w0). split; [|done].
  rewrite run_bind, (run_open_a_spill k files (g k)); [done|]. apply Hs. lia.
Qed.

(** The characters waiting in the buffers. *)
Definition buffered_bytes (buffer : list (list str)) : Z :=
  Z.of_nat (length (concat (concat buffer))).

Lemma buffered_bytes_append (buffer : list (list str)) k b x :
  buffer !! k = Some b ->
  buffered_bytes (<[k := b ++ [x]]> buffer)
  = buffered_bytes buffer + Z.of_nat (length x).
Proof.
  intros Hk. unfold buffered_bytes.
  rewrite insert_take_drop by by eapply lookup_lt_Some.
  rewrite <- (take_drop_middle buffer k b Hk) at 3.
  repeat (rewrite ?concat_app, ?length_app; cbn [concat length]). lia.
Qed.

Lemma buffered_bytes_empty n : buffered_bytes (replicate n []) = 0.
Proof.
  unfold buffered_bytes. induction n as [|n IH]; [done|]. by cbn.
Qed.

(** Flushing (lines 98-101 and 104-106): every buffer is appended to its
    spill file; the flush inside the loop leaves all buffers empty. *)
Lemma flush_spec (clear : bool) (buffer : list (list str)) files g :
  length buffer = P -> spills files g ->
  exists files',
    run (flush clear (partition_paths temp_dir) buffer) (with_dir D files w0)
    = (Ok (if clear then replicate P [] else buffer), with_dir D files' w0)
    /\ spills files' (fun k => g k ++ concat (default [] (buffer !! k)))
    /\ same_others files files'.
Proof.
  intros Hlen Hs. unfold flush.
  rewrite enumerate_paths, run_for_each_fmap.
  destruct (for_each_invariant
    (fun buf k => flush_one clear buf (k, path k))
    (fun seen buf w => exists files', w = with_dir D files' w0
       /\ (forall k, buf !! k =
             if clear && bool_decide (k ∈ seen)
             then (fun _ => []) <$> buffer !! k else buffer !! k)
       /\ (forall k, (k < P)%nat ->
             files' !! spill_name k =
             Some (if bool_decide (k ∈ seen)
                   then g k ++ concat (default [] (buffer !! k)) else g k))
       /\ same_others files files')
    (seq 0 P) buffer (with_dir D files w0))
    as (buf & w' & Hrun & files' & -> & Hbuf & Hfiles & Ho).
  - exists files. split; [done|]. split; [|split].
    + intros k. rewrite bool_decide_eq_false_2 by by intros ?%elem_of_nil.
      by rewrite andb_false_r.
    + intros k Hk. rewrite bool_decide_eq_false_2 by by intros ?%elem_of_nil.
      by apply Hs.
    + apply same_others_refl.
  - intros seen k rest buf w E (files' & -> & Hbuf & Hfiles & Ho).
    destruct (seq_split_elem _ _ _ _ E) as (Hk & Hnew & Hseen).
    assert (Hbk : buf !! k = buffer !! k).
    { rewrite Hbuf, (bool_decide_eq_false_2 (k ∈ seen)) by done.
      by rewrite andb_false_r. }
    destruct (buffer !! k) as [b|] eqn:Eb;
      [|apply lookup_ge_None in Eb; lia].
    assert (Hfk : files' !! spill_name k = Some (g k)).
    { rewrite Hfiles by done. by rewrite bool_decide_eq_false_2. }
    cbn [flush_one]. rewrite Hbk.
    assert (Hnk : bool_decide (k ∈ seen) = false)
      by by apply bool_decide_eq_false_2.
    assert (Hk1 : bool_decide (k ∈ seen ++ [k]) = true).
    { apply bool_decide_eq_true_2, elem_of_app. right. by left. }
    assert (Hk2 : forall j, j <> k ->
              bool_decide (j ∈ seen ++ [k]) = bool_decide (j ∈ seen)).
    { intros j Hj. apply bool_decide_ext. rewrite elem_of_app.
      rewrite list_elem_of_singleton. tauto. }
    destruct b as [|s b].
    + exists buf, (with_dir D files' w0). split; [done|].
      exists files'. split; [done|]. split; [|split; [|done]].
      * intros j. rewrite Hbuf. destruct (decide (j = k)) as [->|Ej].
        { rewrite Hk1, Hnk, Eb, andb_false_r. by destruct clear. }
        by rewrite Hk2.
      * intros j Hj. rewrite Hfiles by done.
        destruct (decide (j = k)) as [->|Ej].
        { rewrite Hk1, Hnk, Eb. cbn. by rewrite app_nil_r. }
        by rewrite Hk2.
    + exists (if clear then <[k := []]> buf else buf),
             (with_dir D (<[spill_name k := g k ++ concat (s :: b)]> files') w0).
      split.
      { unfold os.writelines.
        rewrite run_bind, (run_write_spill k files' (g k)); done. }
      eexists. split; [done|]. split; [|split].
      * intros j. destruct (decide (j = k)) as [->|Ej].
        { rewrite Hk1, Eb, andb_true_r. destruct clear; cbn.
          - apply list_lookup_insert_eq. apply lookup_lt_Some in Hbk. done.
          - by rewrite Hbk. }
        rewrite Hk2 by done. destruct clear.
        { rewrite list_lookup_insert_ne by done. apply Hbuf. }
        apply Hbuf.
      * intros j Hj. destruct (decide (j = k)) as [->|Ej].
        { by rewrite Hk1, lookup_insert_eq, Eb. }
        rewrite Hk2 by done. rewrite lookup_insert_ne; [by apply Hfiles|].
        by intros ?%spill_name_inj.
      * by apply same_others_insert.
  - exists files'. split; [|split; [|done]].
    + rewrite Hrun. do 2 f_equal. apply list_eq. intros k. rewrite Hbuf.
      destruct clear; cbn [andb]; [|done].
      destruct (decide (k < P)%nat) as [Hk|Hk].
      * rewrite bool_decide_eq_true_2 by (apply elem_of_seq; lia).
        rewrite lookup_replicate_2 by done.
        destruct (buffer !! k) eqn:E; [done|].
        apply lookup_ge_None in E. lia.
      * rewrite bool_decide_eq_false_2 by (rewrite elem_of_seq; lia).
        rewrite (proj1 (lookup_replicate_None P [] k)) by lia.
        apply lookup_ge_None. lia.
    + intros k Hk. rewrite Hfiles by done.
      by rewrite bool_decide_eq_true_2 by (apply elem_of_seq; lia).
Qed.

(** The state of the partitioning loop after the canonical strings [cs]:
    [buffer_size] counts what is buffered and is below the threshold, and
    spill file and buffer [k] together hold the lines of partition [k]. *)
Definition loop_inv (cs : list str) (buffer : list (list str)) (bsize : Z)
    (files : gmap str str) : Prop :=
  length buffer = P /\ bsize = buffered_bytes buffer
  /\ bsize < CHUNK_WRITE_SIZE
  /\ exists g, spills files g
       /\ forall k, (k < P)%nat ->
            g k ++ concat (default [] (buffer !! k)) = spill_text (part k cs).

Lemma loop_inv_start files :
  spills files (fun _ => []) -> loop_inv [] (replicate P []) 0 files.
Proof.
  intros Hs. split; [apply length_replicate|]. split; [by rewrite buffered_bytes_empty|].
  split; [done|]. exists (fun _ => []). split; [done|].
  intros k Hk. by rewrite lookup_replicate_2.
Qed.

(** One round of the loop on a line that has a canonical form. *)
Lemma partition_step_valid cs buffer bsize files line c :
  loop_inv cs buffer bsize files ->
  is_empty (strip line) = false ->
  ipv6_to_canonical (strip line) = Ok c ->
  exists j b buffer' bsize' files',
    partition_index c = Ok (Z.of_nat j) /\ (j < P)%nat
    /\ buffer !! j = Some b
    /\ run (partition_step (partition_paths temp_dir) (buffer, bsize) line)
           (with_dir D files w0)
       = (Ok (buffer', bsize'), with_dir D files' w0)
    /\ loop_inv (cs ++ [c]) buffer' bsize' files'
    /\ same_others files files'
    /\ (let appended := <[j := b ++ [c ++ [LF]]]> buffer in
        if CHUNK_WRITE_SIZE <=? buffered_bytes appended
        then buffer' = replicate P [] /\ bsize' = 0
             /\ forall k, (k < P)%nat ->
                  exists old, files !! spill_name k = Some old
                    /\ files' !! spill_name k
                       = Some (old ++ concat (default [] (appended !! k)))
        else buffer' = appended /\ bsize' = buffered_bytes appended
             /\ files' = files).
Proof.
  intros (Hlen & Hsize & Hlt & g & Hs & Hg) Hne Hc.
  pose proof (ipv6_to_canonical_is_canonical _ _ Hc) as [Hcne Hcc].
  destruct (partition_index_range c Hcc) as (i & Hi & Hir).
  set (j := Z.to_nat i).
  assert (Hj : (j < P)%nat) by (unfold P, j; lia).
  assert (Hij : i = Z.of_nat j) by (unfold j; lia).
  destruct (buffer !! j) as [b|] eqn:Eb; [|apply lookup_ge_None in Eb; lia].
  set (appended := <[j := b ++ [c ++ [LF]]]> buffer).
  assert (Happ : buffered_bytes appended
                 = bsize + (Z.of_nat (length c) + 1)).
  { unfold appended. rewrite (buffered_bytes_append buffer j b) by done.
    rewrite length_app. simpl. lia. }
  assert (Hparts : forall k, (k < P)%nat ->
            g k ++ concat (default [] (appended !! k))
            = spill_text (part k (cs ++ [c]))).
  { intros k Hk. rewrite (part_snoc k cs c j) by by rewrite Hi, Hij.
    rewrite spill_text_app, <- Hg by done. unfold appended.
    destruct (decide (k = j)) as [->|Hkj].
    - rewrite list_lookup_insert_eq, Eb by lia. cbn [from_option id].
      rewrite concat_app, <- app_assoc.
      unfold spill_text. by cbn.
    - rewrite list_lookup_insert_ne by done.
      unfold spill_text. cbn. by rewrite app_nil_r. }
  exists j, b. cbv zeta. fold appended.
  assert (Hrun : run (partition_step (partition_paths temp_dir) (buffer, bsize) line)
                     (with_dir D files w0)
                 = if CHUNK_WRITE_SIZE <=? buffered_bytes appended
                   then run (buffer ← flush true (partition_paths temp_dir) appended;
                             mret (buffer, 0)) (with_dir D files w0)
                   else (Ok (appended, buffered_bytes appended), with_dir D files w0)).
  { unfold partition_step. rewrite Hne.
    rewrite run_bind, run_lift, Hc, run_bind, run_lift, Hi, run_bind, run_lift.
    unfold buffer_append. rewrite Hij, Nat2Z.id, Eb. fold appended.
    rewrite Happ. by destruct (_ <=? _). }
  rewrite Hrun. destruct (CHUNK_WRITE_SIZE <=? buffered_bytes appended) eqn:E.
  - destruct (flush_spec true appended files g) as (files' & Hf & Hs' & Ho);
      [by unfold appended; rewrite length_insert | done |].
    exists (replicate P []), 0, files'.
    split; [by rewrite Hi, Hij|]. split; [done|]. split; [done|].
    split; [by rewrite run_bind, Hf|]. split; [|split; [done|]].
    + split; [apply length_replicate|].
      split; [by rewrite buffered_bytes_empty|]. split; [done|].
      eexists. split; [exact Hs'|]. intros k Hk. cbn beta.
      rewrite lookup_replicate_2 by done. cbn. rewrite app_nil_r. by apply Hparts.
    + split; [done|]. split; [done|]. intros k Hk. exists (g k).
      split; [by apply Hs | by apply Hs'].
  - apply Z.leb_gt in E.
    exists appended, (buffered_bytes appended), files.
    split; [by rewrite Hi, Hij|]. split; [done|]. split; [done|].
    split; [done|]. split; [|split; [apply same_others_refl | done]].
    split; [by unfold appended; rewrite length_insert|]. split; [done|].
    split; [done|]. exists g. by split.
Qed.

(** The whole loop: it fails exactly when some line has no canonical form,
    with that line's error. *)
Lemma partition_loop lines cs0 buffer bsize files :
  loop_inv cs0 buffer bsize files ->
  match canonical_lines lines with
  | Ok cs =>
      exists buffer' bsize' files',
        run (for_each (partition_step (partition_paths temp_dir))
                      (buffer, bsize) lines) (with_dir D files w0)
        = (Ok (buffer', bsize'), with_dir D files' w0)
        /\ loop_inv (cs0 ++ cs) buffer' bsize' files'
        /\ same_others files files'
  | Raise e =>
      exists files',
        run (for_each (partition_step (partition_paths temp_dir))
                      (buffer, bsize) lines) (with_dir D files w0)
        = (Raise e, with_dir D files' w0)
        /\ same_others files files'
  end.
Proof.
  revert cs0 buffer bsize files.
  induction lines as [|line lines IH]; intros cs0 buffer bsize files HI.
  - simpl. exists buffer, bsize, files. rewrite app_nil_r.
    split; [done|]. split; [done | apply same_others_refl].
  - cbn [canonical_lines]. rewrite run_for_each_cons.
    destruct (is_empty (strip line)) eqn:Ee.
    + assert (Hrun : run (partition_step (partition_paths temp_dir)
                            (buffer, bsize) line) (with_dir D files w0)
                     = (Ok (buffer, bsize), with_dir D files w0)).
      { unfold partition_step. by rewrite Ee. }
      rewrite Hrun. by apply IH.
    + destruct (ipv6_to_canonical (strip line)) as [c|e] eqn:Ec.
      * destruct (partition_step_valid cs0 buffer bsize files line c HI Ee Ec)
          as (j & b & buffer1 & bsize1 & files1 & _ & _ & _ & Hrun & HI1 & Ho1 & _).
        rewrite Hrun. specialize (IH (cs0 ++ [c]) buffer1 bsize1 files1 HI1).
        cbn [mbind result_bind].
        destruct (canonical_lines lines) as [cs|e].
        -- destruct IH as (buffer2 & bsize2 & files2 & Hrun2 & HI2 & Ho2).
           exists buffer2, bsize2, files2. cbn [mbind result_bind].
           rewrite <- app_assoc in HI2. split; [done|]. split; [done|].
           by eapply same_others_trans.
        -- destruct IH as (files2 & Hrun2 & Ho2). exists files2.
           split; [done|]. by eapply same_others_trans.
      * cbn [mbind result_bind]. exists files. split; [|apply same_others_refl].
        unfold partition_step. rewrite Ee. by rewrite run_bind, run_lift, Ec.
Qed.

(** *** Phase 1 as a whole *)

Context (input_path : str) (files0 : gmap str str).
Hypothesis Hdir : w_dirs w0 !! D = Some files0.
Hypothesis Hinput :
  forall k, (k < P)%nat -> os.path_split input_path <> (D, spill_name k).

Lemma lookup_input files :
  same_others files0 files ->
  os.lookup_file input_path (with_dir D files w0)
  = os.lookup_file input_path w0.
Proof.
  intros Ho. rewrite lookup_file_with_dir. case_decide as E; [|done].
  unfold os.lookup_file. destruct (os.path_split input_path) as [d n] eqn:Es.
  simpl in E. subst d. rewrite Hdir. cbn. apply Ho.
  intros k Hk ->. by apply (Hinput k).
Qed.

(** Creating the spill files and partitioning the input (lines 76-109). *)
Definition partitioning : io unit :=
  _ ← for_each (fun _ p => os.open_w p) () (partition_paths temp_dir);
  partition_phase input_path (partition_paths temp_dir).

Lemma partitioning_spec :
  match os.lookup_file input_path w0 with
  | None =>
      exists files, run partitioning w0 = (Raise OSError, with_dir D files w0)
                    /\ same_others files0 files
  | Some text =>
      match canonical_lines (os.iter_lines text) with
      | Ok cs =>
          exists files,
            run partitioning w0 = (Ok (), with_dir D files w0)
            /\ spills files (fun k => spill_text (part k cs))
            /\ same_others files0 files
      | Raise e =>
          exists files, run partitioning w0 = (Raise e, with_dir D files w0)
                        /\ same_others files0 files
      end
  end.
Proof.
  unfold partitioning, partition_phase.
  destruct (create_spills files0) as (files1 & Hcreate & Hs1 & Ho1).
  rewrite (with_dir_id D files0 w0 Hdir) in Hcreate.
  rewrite run_bind, Hcreate, run_bind, (open_spills files1 _ Hs1), run_bind.
  rewrite run_read_lines by apply w_io_with_dir.
  rewrite (lookup_input files1 Ho1).
  destruct (os.lookup_file input_path w0) as [text|]; [|by exists files1].
  rewrite run_bind.
  pose proof (partition_loop (os.iter_lines text) [] (replicate P []) 0 files1
                (loop_inv_start files1 Hs1)) as Hloop.
  fold P. destruct (canonical_lines (os.iter_lines text)) as [cs|e].
  - destruct Hloop as (buffer & bsize & files2 & -> & HI & Ho2).
    destruct HI as (Hlen & _ & _ & g & Hs2 & Hg).
    destruct (flush_spec false buffer files2 g Hlen Hs2) as (files3 & Hf & Hs3 & Ho3).
    rewrite run_bind, Hf. exists files3. split; [done|]. split.
    + intros k Hk. rewrite (Hs3 k Hk). f_equal. by apply Hg.
    + eapply same_others_trans; [|exact Ho3]. by eapply same_others_trans.
  - destruct Hloop as (files2 & -> & Ho2). exists files2.
    split; [done|]. by eapply same_others_trans.
Qed.

(** *** Phase 2 *)

Lemma spill_text_empty cs : spill_text cs = [] <-> cs = [].
Proof.
  split; [|by intros ->]. destruct cs as [|c cs]; [done|].
  unfold spill_text. cbn. by destruct c.
Qed.

Lemma utf8_width_pos c : 0 < os.utf8_width c.
Proof. unfold os.utf8_width. repeat case_match; lia. Qed.

Lemma utf8_size_nonneg (text : str) :
  0 <= foldr (fun c n => os.utf8_width c + n) 0 text.
Proof.
  induction text as [|c text IH]; [done|]. cbn [foldr].
  pose proof (utf8_width_pos c). lia.
Qed.

Lemma utf8_size_pos (text : str) :
  (0 <? foldr (fun c n => os.utf8_width c + n) 0 text)
  = negb (is_empty text).
Proof.
  destruct text as [|c text]; [done|]. cbn [foldr is_empty negb].
  apply Z.ltb_lt. pose proof (utf8_width_pos c).
  pose proof (utf8_size_nonneg text). lia.
Qed.

Section counting.
Context (cs : list str) (files : gmap str str).
Hypothesis Hcs : Forall is_canonical cs.
Hypothesis Hspills : spills files (fun k => spill_text (part k cs)).

Lemma part_canonical k : Forall is_canonical (part k cs).
Proof.
  unfold part. apply Forall_forall. intros c [_ Hc]%list_elem_of_filter.
  rewrite Forall_forall in Hcs. by apply Hcs.
Qed.

(** A counting task (lines 34-44) on spill file [k]. *)
Lemma run_count_spill k :
  (k < P)%nat ->
  run (count_unique_in_partition (path k)) (with_dir D files w0)
  = (Ok (part_count cs k), with_dir D files w0).
Proof.
  intros Hk. unfold count_unique_in_partition.
  rewrite run_bind, run_read_lines by apply w_io_with_dir.
  rewrite lookup_spill, (Hspills k Hk), iter_lines_spill.
  - rewrite add_line_spill by apply part_canonical.
    unfold part_count. cbn. do 2 f_equal. by rewrite union_empty_r_L.
  - eapply Forall_impl; [apply part_canonical|]. by intros c [_ ?].
Qed.

(** The tasks submitted (lines 114-117): one per non-empty spill file. *)
Definition submitted : list nat :=
  filter (fun k => part k cs <> []) (seq 0 P).

Lemma run_submit :
  run (for_each (fun fs p => size ← os.getsize p;
                   mret (if 0 <? size then fs ++ [p] else fs))
                [] (partition_paths temp_dir)) (with_dir D files w0)
  = (Ok ((fun k => path k) <$> submitted), with_dir D files w0).
Proof.
  rewrite partition_paths_seq, run_for_each_fmap.
  destruct (for_each_invariant
    (fun fs k => size ← os.getsize (path k);
                 mret (if 0 <? size then fs ++ [path k] else fs))
    (fun seen fs w =>
       fs = (fun k => path k) <$> filter (fun k => part k cs <> []) seen
       /\ w = with_dir D files w0)
    (seq 0 P) [] (with_dir D files w0)) as (fs & w' & Hrun & -> & ->);
    [done| |done].
  intros seen k rest fs w E [-> ->].
  destruct (seq_split_elem _ _ _ _ E) as (Hk & _ & _).
  eexists _, _. split.
  - rewrite run_bind, run_getsize by apply w_io_with_dir.
    rewrite lookup_spill, (Hspills k Hk). by rewrite run_ret.
  - split; [|done]. rewrite utf8_size_pos, filter_app, fmap_app.
    destruct (decide (part k cs = [])) as [E0|E0].
    + rewrite (proj2 (spill_text_empty _) E0). cbn [is_empty negb].
      rewrite filter_cons_False by tauto. by rewrite app_nil_r.
    + rewrite filter_cons_True by done.
      destruct (spill_text (part k cs)) eqn:Et; [|done].
      by apply spill_text_empty in Et.
Qed.

Lemma sum_submitted (l : list nat) :
  sumZ (part_count cs <$> filter (fun k => part k cs <> []) l)
  = sumZ (part_count cs <$> l).
Proof.
  induction l as [|k l IH]; [done|].
  rewrite fmap_cons, sumZ_cons, <- IH.
  destruct (decide (part k cs = [])) as [E0|E0].
  - rewrite filter_cons_False by tauto. unfold part_count at 2.
    rewrite E0, list_to_set_nil, size_empty. lia.
  - by rewrite filter_cons_True, fmap_cons, sumZ_cons.
Qed.

Lemma submitted_below k : k ∈ submitted -> (k < P)%nat.
Proof.
  unfold submitted. intros [_ Hk]%list_elem_of_filter.
  apply elem_of_seq in Hk. exact (proj2 Hk).
Qed.

Lemma run_collect_list (ks : list nat) (total : Z) :
  (forall k : nat, k ∈ ks -> (k < P)%nat) ->
  run (for_each (fun total p => n ← count_unique_in_partition p;
                   mret (total + n)) total ((fun k => path k) <$> ks))
      (with_dir D files w0)
  = (Ok (total + sumZ (part_count cs <$> ks)), with_dir D files w0).
Proof.
  revert total. induction ks as [|k l IH]; intros total Hl.
  - cbn [fmap list_fmap sumZ foldr]. rewrite run_for_each_nil.
    by rewrite Z.add_0_r.
  - cbn [fmap list_fmap]. rewrite run_for_each_cons, run_bind.
    rewrite run_count_spill by (apply Hl; by left).
    rewrite run_ret, IH by (intros j Hj; apply Hl; by right).
    rewrite sumZ_cons. do 2 f_equal. lia.
Qed.

(** Collecting the results (lines 118-119), in whatever order the tasks
    finish. *)
Lemma run_collect (order : list str) :
  order ≡ₚ (fun k => path k) <$> submitted ->
  run (for_each (fun total p => n ← count_unique_in_partition p;
                   mret (total + n)) 0 order) (with_dir D files w0)
  = (Ok (Z.of_nat (size (list_to_set cs : gset str))), with_dir D files w0).
Proof.
  intros Hperm.
  destruct (fmap_Permutation_inv (fun k => path k) order submitted Hperm)
    as (ks & -> & Hks).
  rewrite run_collect_list.
  - rewrite Z.add_0_l. do 2 f_equal.
    rewrite (sumZ_perm _ (part_count cs <$> submitted))
      by (by apply fmap_Permutation).
    unfold submitted. rewrite sum_submitted. by apply size_by_partition.
  - intros k Hk. apply submitted_below.
    by apply (Permutation_in k Hks), elem_of_list_In in Hk
      || (rewrite <- Hks; exact Hk).
Qed.

Lemma counting_phase_spec (num_workers : Z) :
  run (counting_phase (partition_paths temp_dir) num_workers)
      (with_dir D files w0)
  = (if num_workers <=? 0 then Raise ValueError
     else Ok (Z.of_nat (size (list_to_set cs : gset str))),
     with_dir D files w0).
Proof.
  unfold counting_phase. rewrite run_bind.
  destruct (num_workers <=? 0); [done|].
  rewrite run_ret, run_bind, run_submit, run_bind. cbn [run].
  apply run_collect. apply merge_sort_Permutation.
Qed.

End counting.

End spills.


(** ** What a computation leaves alone, whatever fails

    These hold in every world, also when I/O operations fail. *)

(** The worlds [w] and [w'] differ at most in directory [D] and in the
    I/O operations left. *)
Definition same_outside (D : str) (w w' : World) : Prop :=
  delete D (w_dirs w') = delete D (w_dirs w)
  /\ w_tmp w' = w_tmp w /\ w_cpu_count w' = w_cpu_count w
  /\ w_finish w' = w_finish w.

(** [m] touches no directory but [D]. *)
Definition keeps (D : str) {A} (m : io A) : Prop :=
  forall w, same_outside D w (run m w).2.

Lemma same_outside_refl D w : same_outside D w w.
Proof. by repeat split. Qed.

Lemma same_outside_trans D w1 w2 w3 :
  same_outside D w1 w2 -> same_outside D w2 w3 -> same_outside D w1 w3.
Proof.
  intros (? & ? & ? & ?) (? & ? & ? & ?). repeat split; congruence.
Qed.

Lemma same_outside_lookup D w w' p :
  same_outside D w w' -> (os.path_split p).1 <> D ->
  os.lookup_file p w' = os.lookup_file p w.
Proof.
  intros (Hd & _) Hp. unfold os.lookup_file.
  destruct (os.path_split p) as [d n]. simpl in Hp.
  assert (E : w_dirs w' !! d = w_dirs w !! d).
  { rewrite <- (lookup_delete_ne (w_dirs w') D d) by done.
    rewrite Hd. by apply lookup_delete_ne. }
  by rewrite E.
Qed.

Lemma same_outside_set_io D n w : same_outside D w (set_io n w).
Proof. by repeat split. Qed.

Lemma same_outside_store D p t w :
  (os.path_split p).1 = D -> same_outside D w (os.store_file p t w).
Proof.
  unfold os.store_file. destruct (os.path_split p) as [d n]. simpl.
  intros ->. repeat split; try done. simpl.
  by rewrite delete_alter, decide_True.
Qed.

Lemma keeps_ret D {A} (a : A) : keeps D (mret a).
Proof. intros w. apply same_outside_refl. Qed.

Lemma keeps_lift D {A} (r : result A) : keeps D (lift r).
Proof. intros w. apply same_outside_refl. Qed.

Lemma keeps_raise D {A} e : keeps D (raise e : io A).
Proof. intros w. apply same_outside_refl. Qed.

Lemma keeps_pure D {A} (f : World -> result A) :
  keeps D (IO (fun w => (f w, w))).
Proof. intros w. apply same_outside_refl. Qed.

Lemma keeps_bind D {A B} (m : io A) (f : A -> io B) :
  keeps D m -> (forall a, keeps D (f a)) -> keeps D (m ≫= f).
Proof.
  intros Hm Hf w. rewrite run_bind. specialize (Hm w).
  destruct (run m w) as [[a|e] w1]; [|done].
  eapply same_outside_trans; [exact Hm | apply Hf].
Qed.

Lemma keeps_bind_post D {A B} (Q : A -> Prop) (m : io A) (f : A -> io B) :
  keeps D m -> (forall w a w', run m w = (Ok a, w') -> Q a) ->
  (forall a, Q a -> keeps D (f a)) -> keeps D (m ≫= f).
Proof.
  intros Hm HQ Hf w. rewrite run_bind. specialize (Hm w).
  destruct (run m w) as [[a|e] w1] eqn:E; [|done].
  eapply same_outside_trans; [exact Hm | by eapply Hf, HQ].
Qed.

Lemma keeps_for_each D {A S} (body : S -> A -> io S) acc xs :
  (forall acc x, x ∈ xs -> keeps D (body acc x)) ->
  keeps D (for_each body acc xs).
Proof.
  revert acc. induction xs as [|x xs IH]; intros acc Hb.
  - apply keeps_ret.
  - cbn [for_each]. apply keeps_bind; [apply Hb; by left|].
    intros acc'. apply IH. intros ? ? ?. apply Hb. by right.
Qed.

Lemma keeps_tick D : keeps D tick.
Proof.
  intros w. unfold tick. simpl. destruct (w_io w) as [[|n]|];
    try apply same_outside_refl. apply same_outside_set_io.
Qed.

Lemma keeps_read_lines D p : keeps D (os.read_lines p).
Proof.
  apply keeps_bind; [apply keeps_tick|]. intros _ w. simpl.
  destruct (os.lookup_file p w); apply same_outside_refl.
Qed.

Lemma keeps_getsize D p : keeps D (os.getsize p).
Proof.
  apply keeps_bind; [apply keeps_tick|]. intros _ w. simpl.
  destruct (os.lookup_file p w); apply same_outside_refl.
Qed.

Lemma keeps_open_w p : keeps (os.path_split p).1 (os.open_w p).
Proof.
  apply keeps_bind; [apply keeps_tick|]. intros _ w. simpl.
  destruct (w_dirs w !! _); [by apply same_outside_store|].
  apply same_outside_refl.
Qed.

Lemma keeps_open_a p : keeps (os.path_split p).1 (os.open_a p).
Proof.
  apply keeps_bind; [apply keeps_tick|]. intros _ w. simpl.
  destruct (w_dirs w !! _); [|apply same_outside_refl].
  destruct (os.lookup_file p w); [apply same_outside_refl|].
  by apply same_outside_store.
Qed.

Lemma keeps_write p t : keeps (os.path_split p).1 (os.write p t).
Proof.
  apply keeps_bind; [apply keeps_tick|]. intros _ w. simpl.
  destruct (os.lookup_file p w); [by apply same_outside_store|].
  apply same_outside_refl.
Qed.

(** The paths that lie in directory [D]. *)
Definition inside (D : str) (p : str) : Prop := (os.path_split p).1 = D.

Lemma partition_paths_inside temp_dir :
  Forall (inside (os.dirkey temp_dir)) (partition_paths temp_dir).
Proof.
  rewrite partition_paths_seq. apply Forall_fmap, Forall_forall.
  intros k _. unfold inside, compose. by rewrite path_key.
Qed.

Lemma keeps_flush D clear paths buffer :
  Forall (inside D) paths -> keeps D (flush clear paths buffer).
Proof.
  intros Hp. unfold flush. apply keeps_for_each.
  intros buf [i fh] Hin. unfold enumerate in Hin.
  apply elem_of_zip_r in Hin. rewrite Forall_forall in Hp.
  specialize (Hp fh Hin). unfold flush_one.
  destruct (buf !! i) as [[|s b]|];
    [apply keeps_ret| |apply keeps_raise].
  apply keeps_bind; [|intros; apply keeps_ret].
  unfold os.writelines. rewrite <- Hp. apply keeps_write.
Qed.

Lemma keeps_partition_step D paths st line :
  Forall (inside D) paths -> keeps D (partition_step paths st line).
Proof.
  intros Hp. destruct st as [buffer bsize]. unfold partition_step.
  destruct (is_empty (strip line)); [apply keeps_ret|].
  apply keeps_bind; [apply keeps_lift|]. intros c.
  apply keeps_bind; [apply keeps_lift|]. intros idx.
  apply keeps_bind; [apply keeps_lift|]. intros buf.
  destruct (_ <=? _); [|apply keeps_ret].
  apply keeps_bind; [by apply keeps_flush|]. intros. apply keeps_ret.
Qed.

Lemma keeps_open_all D paths :
  Forall (inside D) paths ->
  keeps D (for_each (fun fhs p => _ ← os.open_a p; mret (fhs ++ [p])) [] paths).
Proof.
  intros Hp. apply keeps_for_each. intros fhs p Hin.
  rewrite Forall_forall in Hp. specialize (Hp p Hin).
  apply keeps_bind; [|intros; apply keeps_ret].
  rewrite <- Hp. apply keeps_open_a.
Qed.

(** The list comprehension of line 80 yields the paths in order. *)
Lemma open_all_result (acc paths fhs : list str) w w' :
  run (for_each (fun fhs p => _ ← os.open_a p; mret (fhs ++ [p])) acc paths) w
  = (Ok fhs, w') -> fhs = acc ++ paths.
Proof.
  revert acc w. induction paths as [|p paths IH]; intros acc w.
  - rewrite run_for_each_nil. intros [= <- _]. by rewrite app_nil_r.
  - rewrite run_for_each_cons, run_bind.
    destruct (run (os.open_a p) w) as [[[]|e] w1]; [|done].
    rewrite run_ret. intros H%IH. by rewrite <- app_assoc in H.
Qed.

Lemma keeps_partition_phase D input_path paths :
  Forall (inside D) paths -> keeps D (partition_phase input_path paths).
Proof.
  intros Hp. unfold partition_phase.
  apply (keeps_bind_post D (fun fhs => fhs = paths));
    [by apply keeps_open_all | by intros w fhs w' ?%open_all_result |].
  intros fhs ->.
  apply keeps_bind; [apply keeps_read_lines|]. intros lines.
  apply keeps_bind.
  - apply keeps_for_each. intros st line _.
    by apply keeps_partition_step.
  - intros [buffer bsize].
    apply keeps_bind; [by apply keeps_flush|]. intros. apply keeps_ret.
Qed.

Lemma keeps_count_unique_in_partition D p :
  keeps D (count_unique_in_partition p).
Proof.
  apply keeps_bind; [apply keeps_read_lines|]. intros. apply keeps_ret.
Qed.

Lemma keeps_counting_phase D paths num_workers :
  keeps D (counting_phase paths num_workers).
Proof.
  unfold counting_phase. apply keeps_bind.
  { destruct (_ <=? _); [apply keeps_raise | apply keeps_ret]. }
  intros _. apply keeps_bind.
  { apply keeps_for_each. intros fs p _.
    apply keeps_bind; [apply keeps_getsize|]. intros. apply keeps_ret. }
  intros futures. apply keeps_bind.
  { apply (keeps_pure D (fun w => Ok (as_completed (w_finish w) futures))). }
  intros order. apply keeps_for_each. intros total p _.
  apply keeps_bind; [apply keeps_count_unique_in_partition|].
  intros. apply keeps_ret.
Qed.

(** The partitioned engine writes only inside its temporary directory. *)
Lemma keeps_count_unique_optimized input_path temp_dir num_workers :
  keeps (os.dirkey temp_dir)
        (count_unique_optimized input_path temp_dir num_workers).
Proof.
  pose proof (partition_paths_inside temp_dir) as Hp.
  unfold count_unique_optimized. apply keeps_bind.
  { destruct (_ =? _); [|apply keeps_ret].
    intros w. simpl. destruct (w_cpu_count w); apply same_outside_refl. }
  intros nw. apply keeps_bind.
  { apply keeps_for_each. intros [] p Hin. rewrite Forall_forall in Hp.
    rewrite <- (Hp p Hin). apply keeps_open_w. }
  intros _. apply keeps_bind; [by apply keeps_partition_phase|].
  intros _. apply keeps_counting_phase.
Qed.

(** The in-memory engine writes nothing at all. *)
Lemma keeps_count_unique_basic D input_path :
  keeps D (count_unique_basic input_path).
Proof.
  unfold count_unique_basic.
  apply keeps_bind; [apply keeps_read_lines|]. intros lines.
  apply keeps_bind; [apply keeps_lift|]. intros. apply keeps_ret.
Qed.


(** ** The two engines when no I/O fails *)

(** The number of distinct strings. *)
Definition distinct (cs : list str) : Z :=
  Z.of_nat (size (list_to_set cs : gset str)).

(** What [num_workers or max(1, os.cpu_count() - 1)] evaluates to. *)
Definition effective_workers (w : World) (num_workers : Z) : result Z :=
  if num_workers =? 0 then
    match w_cpu_count w with
    | Some n => Ok (Z.max 1 (n - 1))
    | None => Raise TypeError
    end
  else Ok num_workers.

Lemma foldM_add_canonical (U : gset str) (lines : list str) :
  foldM add_canonical U lines
  = (fun cs => list_to_set cs ∪ U) <$> canonical_lines lines.
Proof.
  revert U. induction lines as [|line lines IH]; intros U.
  - cbn. f_equal. by rewrite union_empty_l_L.
  - cbn [foldM canonical_lines].
    change (add_canonical U line)
      with (if is_empty (strip line) then Ok U
            else c ← ipv6_to_canonical (strip line); Ok ({[c]} ∪ U)).
    destruct (is_empty (strip line)); [apply IH|].
    destruct (ipv6_to_canonical (strip line)) as [c|e]; [|done].
    cbn [mbind result_bind]. rewrite IH.
    destruct (canonical_lines lines) as [cs|e]; [|done].
    cbn [fmap result_fmap mbind result_bind]. f_equal.
    rewrite list_to_set_cons. set_solver.
Qed.

Lemma count_unique_basic_spec input_path w :
  w_io w = None ->
  run (count_unique_basic input_path) w
  = (match os.lookup_file input_path w with
     | Some text => distinct <$> canonical_lines (os.iter_lines text)
     | None => Raise OSError
     end, w).
Proof.
  intros Hio. unfold count_unique_basic.
  rewrite run_bind, run_read_lines by done.
  destruct (os.lookup_file input_path w) as [text|]; [|done].
  rewrite run_bind, run_lift, foldM_add_canonical.
  destruct (canonical_lines (os.iter_lines text)) as [cs|e]; [|done].
  cbn. unfold distinct. by rewrite union_empty_r_L.
Qed.

Lemma count_unique_optimized_unfold input_path temp_dir num_workers w :
  run (count_unique_optimized input_path temp_dir num_workers) w
  = match effective_workers w num_workers with
    | Ok nw =>
        match run (partitioning temp_dir input_path) w with
        | (Ok _, w') => run (counting_phase (partition_paths temp_dir) nw) w'
        | (Raise e, w') => (Raise e, w')
        end
    | Raise e => (Raise e, w)
    end.
Proof.
  unfold count_unique_optimized, effective_workers, partitioning.
  rewrite run_bind.
  assert (E : forall nw,
    run (_ ← for_each (fun _ p => os.open_w p) () (partition_paths temp_dir);
         _ ← partition_phase input_path (partition_paths temp_dir);
         counting_phase (partition_paths temp_dir) nw) w
    = match run (_ ← for_each (fun _ p => os.open_w p) ()
                               (partition_paths temp_dir);
                 partition_phase input_path (partition_paths temp_dir)) w with
      | (Ok _, w') => run (counting_phase (partition_paths temp_dir) nw) w'
      | (Raise e, w') => (Raise e, w')
      end).
  { intros nw. rewrite !run_bind.
    destruct (run (for_each _ _ _) w) as [[[]|e] w1]; [|done].
    by rewrite run_bind. }
  destruct (num_workers =? 0).
  - cbn [run]. destruct (w_cpu_count w); [apply E | done].
  - rewrite run_ret. apply E.
Qed.

(** The result of the partitioned engine on a world without I/O faults. *)
Definition optimized_result (w : World) (input_path : str) (num_workers : Z)
  : result Z :=
  nw ← effective_workers w num_workers;
  match os.lookup_file input_path w with
  | None => Raise OSError
  | Some text =>
      cs ← canonical_lines (os.iter_lines text);
      if nw <=? 0 then Raise ValueError else Ok (distinct cs)
  end.

Lemma count_unique_optimized_spec input_path temp_dir num_workers w files0 :
  w_io w = None ->
  w_dirs w !! os.dirkey temp_dir = Some files0 ->
  (forall k, (k < P)%nat ->
     os.path_split input_path <> (os.dirkey temp_dir, spill_name k)) ->
  exists files,
    run (count_unique_optimized input_path temp_dir num_workers) w
    = (optimized_result w input_path num_workers,
       with_dir (os.dirkey temp_dir) files w)
    /\ same_others files0 files.
Proof.
  intros Hio Hdir Hin. rewrite count_unique_optimized_unfold.
  unfold optimized_result.
  destruct (effective_workers w num_workers) as [nw|e]; cbn [mbind result_bind].
  2:{ exists files0. rewrite with_dir_id by done.
      split; [done | apply same_others_refl]. }
  pose proof (partitioning_spec temp_dir w Hio input_path files0 Hdir Hin) as Hp.
  destruct (os.lookup_file input_path w) as [text|].
  - destruct (canonical_lines (os.iter_lines text)) as [cs|e] eqn:Ecs.
    + destruct Hp as (files & -> & Hs & Ho). exists files. split; [|done].
      cbn [mbind result_bind].
      rewrite (counting_phase_spec temp_dir w Hio cs files);
        [| by eapply canonical_lines_valid | done].
      unfold distinct. by destruct (nw <=? 0).
    + destruct Hp as (files & -> & Ho). by exists files.
  - destruct Hp as (files & -> & Ho). by exists files.
Qed.

(** A usable number of workers: positive, or [0] where the number of CPUs
    is known. *)
Definition valid_workers (w : World) (num_workers : Z) : Prop :=
  0 < num_workers \/ (num_workers = 0 /\ is_Some (w_cpu_count w)).

Lemma optimized_result_valid w input_path num_workers :
  valid_workers w num_workers ->
  optimized_result w input_path num_workers
  = match os.lookup_file input_path w with
    | Some text => distinct <$> canonical_lines (os.iter_lines text)
    | None => Raise OSError
    end.
Proof.
  intros Hv. unfold optimized_result, effective_workers.
  assert (E : exists nw, 0 < nw /\
    (if num_workers =? 0 then match w_cpu_count w with
       | Some n => Ok (Z.max 1 (n - 1)) | None => Raise TypeError end
     else Ok num_workers) = Ok nw).
  { destruct Hv as [Hpos|[-> [n Hn]]].
    - exists num_workers. split; [done|].
      by rewrite (proj2 (Z.eqb_neq _ _)) by lia.
    - exists (Z.max 1 (n - 1)). split; [lia|]. by rewrite Hn. }
  destruct E as (nw & Hnw & ->). cbn [mbind result_bind].
  destruct (os.lookup_file input_path w) as [text|]; [|done].
  destruct (canonical_lines (os.iter_lines text)) as [cs|e]; [|done].
  cbn. by rewrite (proj2 (Z.leb_gt _ _)) by lia.
Qed.

(** A file in another directory is none of the spill files. *)
Lemma outside_not_spill input_path temp_dir :
  (os.path_split input_path).1 <> os.dirkey temp_dir ->
  forall k, (k < P)%nat ->
    os.path_split input_path <> (os.dirkey temp_dir, spill_name k).
Proof. intros H k _ E. apply H. by rewrite E. Qed.

(** Blank lines only: nothing to canonicalize. *)
Lemma canonical_lines_blank lines :
  Forall (fun line => is_empty (strip line) = true) lines ->
  canonical_lines lines = Ok [].
Proof.
  induction 1 as [|line lines Hb _ IH]; [done|].
  cbn [canonical_lines]. by rewrite Hb.
Qed.

(** The loop fails exactly when some non-blank line has no canonical form. *)
Lemma canonical_lines_Raise lines :
  (exists e, canonical_lines lines = Raise e)
  <-> exists line, line ∈ lines /\ is_empty (strip line) = false
                   /\ exists e, ipv6_to_canonical (strip line) = Raise e.
Proof.
  induction lines as [|line lines IH]; cbn [canonical_lines].
  - split; [by intros [? ?] | by intros (? & ?%elem_of_nil & _)].
  - destruct (is_empty (strip line)) eqn:Ee.
    + rewrite IH. split.
      * intros (l & Hl & H). exists l. split; [by right | done].
      * intros (l & Hl & Hne & H). apply elem_of_cons in Hl as [->|Hl].
        -- congruence.
        -- by exists l.
    + destruct (ipv6_to_canonical (strip line)) as [c|e] eqn:Ec.
      * cbn [mbind result_bind]. split.
        -- intros [e He]. destruct (canonical_lines lines) as [cs|e'] eqn:E;
             [done|].
           destruct (proj1 IH) as (l & Hl & H); [by exists e'|].
           exists l. split; [by right | done].
        -- intros (l & Hl & Hne & e & He).
           apply elem_of_cons in Hl as [->|Hl]; [congruence|].
           destruct (proj2 IH) as [e' He']; [by exists l; eauto|].
           exists e'. by rewrite He'.
      * split; [|by intros; exists e].
        intros _. exists line. split; [by left|]. split; [done|]. by exists e.
Qed.


(** ** Failure, whatever else fails *)

(** [m] raises in world [w]. *)
Definition fails {A} (m : io A) (w : World) : Prop :=
  exists e w', run m w = (Raise e, w').

Lemma fails_bind {A B} (m : io A) (f : A -> io B) w :
  (forall a w', run m w = (Ok a, w') -> fails (f a) w') ->
  fails (m ≫= f) w.
Proof.
  intros H. unfold fails. rewrite run_bind.
  destruct (run m w) as [[a|e] w1]; [by apply H | by exists e, w1].
Qed.

Lemma keeps_run D {A} (m : io A) w a w' :
  keeps D m -> run m w = (Ok a, w') -> same_outside D w w'.
Proof. intros Hk E. specialize (Hk w). by rewrite E in Hk. Qed.

Lemma read_lines_Ok p w lines w' :
  run (os.read_lines p) w = (Ok lines, w') ->
  exists text, os.lookup_file p w = Some text /\ lines = os.iter_lines text.
Proof.
  unfold os.read_lines. rewrite run_bind.
  destruct (run tick w) as [[[]|e] w1] eqn:Et; [|done].
  assert (E : os.lookup_file p w1 = os.lookup_file p w).
  { unfold tick in Et. simpl in Et.
    destruct (w_io w) as [[|n]|]; by inversion Et. }
  cbn [run]. rewrite E. destruct (os.lookup_file p w) as [text|]; [|done].
  intros [= <- _]. by exists text.
Qed.

(** The partitioning loop stops at the first line without canonical form,
    unless something else stopped it before. *)
Lemma partition_loop_fails paths lines st w e :
  canonical_lines lines = Raise e ->
  fails (for_each (partition_step paths) st lines) w.
Proof.
  revert st w. induction lines as [|line lines IH]; intros st w; [done|].
  cbn [canonical_lines]. intros Hc. unfold fails.
  rewrite run_for_each_cons. destruct st as [buffer bsize].
  destruct (is_empty (strip line)) eqn:Ee.
  - assert (E : run (partition_step paths (buffer, bsize) line) w
                = (Ok (buffer, bsize), w)).
    { unfold partition_step. by rewrite Ee. }
    rewrite E. by apply IH.
  - destruct (ipv6_to_canonical (strip line)) as [c|e'] eqn:Ec.
    + destruct (run (partition_step paths (buffer, bsize) line) w)
        as [[st'|e1] w1]; [|by exists e1, w1].
      apply IH. cbn [mbind result_bind] in Hc.
      by destruct (canonical_lines lines).
    + assert (E : run (partition_step paths (buffer, bsize) line) w
                  = (Raise e', w)).
      { unfold partition_step. by rewrite Ee, run_bind, run_lift, Ec. }
      rewrite E. by exists e', w.
Qed.

Lemma partition_phase_fails D input_path paths text e w :
  Forall (inside D) paths -> (os.path_split input_path).1 <> D ->
  os.lookup_file input_path w = Some text ->
  canonical_lines (os.iter_lines text) = Raise e ->
  fails (partition_phase input_path paths) w.
Proof.
  intros Hp Hin Hf Hc. unfold partition_phase.
  apply fails_bind. intros fhs w1 E1.
  apply (keeps_run D) in E1; [|by apply keeps_open_all].
  apply fails_bind. intros lines w2 (t & Ht & ->)%read_lines_Ok.
  rewrite (same_outside_lookup D w w1) in Ht by done.
  assert (t = text) as -> by congruence.
  apply fails_bind. intros [buffer bsize] w3 E3.
  destruct (partition_loop_fails fhs (os.iter_lines text)
              (replicate (Z.to_nat NUM_PARTITIONS) [], 0) w2 e Hc)
    as (e' & w' & E'). congruence.
Qed.

(** The partitioned engine raises when a line has no canonical form. *)
Lemma count_unique_optimized_fails input_path temp_dir num_workers text e w :
  (os.path_split input_path).1 <> os.dirkey temp_dir ->
  os.lookup_file input_path w = Some text ->
  canonical_lines (os.iter_lines text) = Raise e ->
  fails (count_unique_optimized input_path temp_dir num_workers) w.
Proof.
  intros Hin Hf Hc. unfold count_unique_optimized.
  pose proof (partition_paths_inside temp_dir) as Hp.
  apply fails_bind. intros nw w1 E1.
  assert (w1 = w) as ->.
  { destruct (num_workers =? 0); [|by inversion E1].
    cbn [run] in E1. destruct (w_cpu_count w); by inversion E1. }
  apply fails_bind. intros [] w2 E2.
  apply (keeps_run (os.dirkey temp_dir)) in E2.
  2:{ apply keeps_for_each. intros [] p Hpin. rewrite Forall_forall in Hp.
      rewrite <- (Hp p Hpin). apply keeps_open_w. }
  apply fails_bind. intros [] w3 E3. exfalso.
  destruct (partition_phase_fails (os.dirkey temp_dir) input_path
              (partition_paths temp_dir) text e w2 Hp Hin)
    as (e' & w' & E');
    [by rewrite (same_outside_lookup (os.dirkey temp_dir) w w2)
    | done | congruence].
Qed.

(** The in-memory engine too. *)
Lemma count_unique_basic_fails input_path text e w :
  os.lookup_file input_path w = Some text ->
  canonical_lines (os.iter_lines text) = Raise e ->
  fails (count_unique_basic input_path) w.
Proof.
  intros Hf Hc. unfold count_unique_basic.
  apply fails_bind. intros lines w1 (t & Ht & ->)%read_lines_Ok.
  assert (t = text) as -> by congruence.
  apply fails_bind. intros U w2. rewrite run_lift, foldM_add_canonical, Hc.
  done.
Qed.

(** ** Temporary directories *)

Lemma mkdtemp_from_spec cands w :
  match tempfile.mkdtemp_from cands w with
  | (Ok d, w1) =>
      d ∈ cands /\ w_dirs w !! os.dirkey d = None
      /\ w_dirs w1 = <[os.dirkey d := ∅]> (w_dirs w)
  | (Raise _, w1) => w_dirs w1 = w_dirs w
  end.
Proof.
  induction cands as [|c cands IH]; [done|]. cbn [tempfile.mkdtemp_from].
  destruct (tempfile.exists_path c w) eqn:Ex.
  - destruct (tempfile.mkdtemp_from cands w) as [[d|e] w1]; [|done].
    destruct IH as (? & ? & ?). split; [by right | done].
  - split; [by left|]. split; [|done].
    unfold tempfile.exists_path in Ex. apply orb_false_iff in Ex as [Ex _].
    apply bool_decide_eq_false in Ex.
    destruct (w_dirs w !! os.dirkey c) eqn:E; [|done].
    exfalso. apply Ex. by eexists.
Qed.

(** [mkdtemp] hands out a directory that did not exist, and creates it
    empty; when it fails, nothing is created. *)
Lemma mkdtemp_spec w :
  match run tempfile.mkdtemp w with
  | (Ok d, w1) =>
      d ∈ w_tmp w /\ w_dirs w !! os.dirkey d = None
      /\ w_dirs w1 = <[os.dirkey d := ∅]> (w_dirs w)
  | (Raise _, w1) => w_dirs w1 = w_dirs w
  end.
Proof.
  unfold tempfile.mkdtemp. rewrite run_bind. unfold tick. cbn [run].
  destruct (w_io w) as [[|n]|]; [done | |].
  - apply (mkdtemp_from_spec (w_tmp w) (set_io (Some n) w)).
  - apply (mkdtemp_from_spec (w_tmp w) w).
Qed.

Lemma run_TemporaryDirectory {A} (body : str -> io A) w :
  run (tempfile.TemporaryDirectory body) w
  = match run tempfile.mkdtemp w with
    | (Ok d, w1) =>
        ((run (body d) w1).1, tempfile.rmtree d (run (body d) w1).2)
    | (Raise e, w1) => (Raise e, w1)
    end.
Proof.
  unfold tempfile.TemporaryDirectory. cbn [run].
  destruct (run tempfile.mkdtemp w) as [[d|e] w1]; [|done].
  by destruct (run (body d) w1).
Qed.

(** A block that works inside its temporary directory only leaves the
    directories as they were, however it ends. *)
Lemma TemporaryDirectory_restores {A} (body : str -> io A) w :
  (forall d, keeps (os.dirkey d) (body d)) ->
  w_dirs (run (tempfile.TemporaryDirectory body) w).2 = w_dirs w.
Proof.
  intros Hk. rewrite run_TemporaryDirectory.
  pose proof (mkdtemp_spec w) as Hm.
  destruct (run tempfile.mkdtemp w) as [[d|e] w1]; [|done].
  destruct Hm as (_ & Hnew & Hw1). cbn [snd].
  destruct (Hk d w1) as (Hd & _). unfold tempfile.rmtree. cbn [w_dirs set_dirs].
  rewrite Hd, Hw1, delete_insert_eq. by apply delete_id.
Qed.

Lemma TemporaryDirectory_fails {A} (body : str -> io A) w :
  (forall d w1, run tempfile.mkdtemp w = (Ok d, w1) -> fails (body d) w1) ->
  fails (tempfile.TemporaryDirectory body) w.
Proof.
  intros H. unfold fails. rewrite run_TemporaryDirectory.
  destruct (run tempfile.mkdtemp w) as [[d|e] w1]; [|by eauto].
  destruct (H d w1 eq_refl) as (e & w2 & ->). by eauto.
Qed.


(** ** [main] *)

(** Lines 145-155 of [main]: the choice of the engine. *)
Definition count_of (args : Args) : io Z :=
  if basic args then count_unique_basic (input_file args)
  else
    partitioned ←
      (if optimized args then mret true
       else size ← os.getsize (input_file args);
            mret (MEMORY_MODE_THRESHOLD <? size)) : io bool;
    if partitioned : bool then
      tempfile.TemporaryDirectory (fun tmpdir =>
        count_unique_optimized (input_file args) tmpdir (workers args))
    else count_unique_basic (input_file args).

Lemma main_unfold args :
  main args
  = (found ← os.isfile (input_file args);
     if negb found then raise SystemExit else
     count ← count_of args;
     _ ← os.open_w (output_file args);
     os.write (output_file args) (format_d count)).
Proof. reflexivity. Qed.

Lemma run_main_found args w text :
  os.lookup_file (input_file args) w = Some text ->
  run (main args) w
  = match run (count_of args) w with
    | (Ok count, w1) =>
        run (_ ← os.open_w (output_file args);
             os.write (output_file args) (format_d count)) w1
    | (Raise e, w1) => (Raise e, w1)
    end.
Proof.
  intros Hf. rewrite main_unfold, run_bind. unfold os.isfile. cbn [run].
  rewrite Hf, bool_decide_eq_true_2 by by eexists. cbn [negb].
  by rewrite run_bind.
Qed.

Lemma run_main_missing args w :
  os.lookup_file (input_file args) w = None ->
  run (main args) w = (Raise SystemExit, w).
Proof.
  intros Hf. rewrite main_unfold, run_bind. unfold os.isfile. cbn [run].
  rewrite Hf, bool_decide_eq_false_2; [done|]. by intros [? ?].
Qed.

(** A computation that keeps every directory changes none. *)
Lemma keeps_all {A} (m : io A) w :
  (forall D, keeps D m) -> w_dirs (run m w).2 = w_dirs w.
Proof.
  intros Hk. apply map_eq. intros d.
  destruct (Hk (d ++ [0]) w) as (Hd & _).
  assert (Hne : d ++ [0] <> d).
  { intros E. apply (f_equal length) in E. rewrite length_app in E.
    simpl in E. lia. }
  rewrite <- (lookup_delete_ne (w_dirs (run m w).2) (d ++ [0]) d) by done.
  rewrite Hd. by apply lookup_delete_ne.
Qed.

(** Counting leaves the file system as it found it, in either engine and
    however it ends. *)
Lemma count_of_restores args w :
  w_dirs (run (count_of args) w).2 = w_dirs w.
Proof.
  unfold count_of. destruct (basic args).
  { apply keeps_all. intros D. apply keeps_count_unique_basic. }
  rewrite run_bind.
  assert (Hsel : forall b w1,
    w_dirs (run (if b : bool then
         tempfile.TemporaryDirectory (fun tmpdir =>
           count_unique_optimized (input_file args) tmpdir (workers args))
       else count_unique_basic (input_file args)) w1).2 = w_dirs w1).
  { intros [|] w1.
    - apply TemporaryDirectory_restores. intros d.
      apply keeps_count_unique_optimized.
    - apply keeps_all. intros D. apply keeps_count_unique_basic. }
  destruct (optimized args).
  - rewrite run_ret. apply (Hsel true).
  - rewrite run_bind.
    pose proof (keeps_all (os.getsize (input_file args)) w
                  (fun D => keeps_getsize D _)) as Hg.
    destruct (run (os.getsize (input_file args)) w) as [[size|e] w1];
      [|done].
    rewrite run_ret. cbn [snd] in Hg. rewrite <- Hg.
    apply (Hsel (MEMORY_MODE_THRESHOLD <? size)).
Qed.

(** A line without canonical form makes the counting fail, in either
    engine. *)
Lemma count_of_fails args w text e :
  os.lookup_file (input_file args) w = Some text ->
  canonical_lines (os.iter_lines text) = Raise e ->
  fails (count_of args) w.
Proof.
  intros Hf Hc. unfold count_of. destruct (basic args).
  { by eapply count_unique_basic_fails. }
  assert (Hsel : forall b w1,
    w_dirs w1 = w_dirs w ->
    fails (if b : bool then
         tempfile.TemporaryDirectory (fun tmpdir =>
           count_unique_optimized (input_file args) tmpdir (workers args))
       else count_unique_basic (input_file args)) w1).
  { intros b w1 Hw1.
    assert (Hf1 : os.lookup_file (input_file args) w1 = Some text).
    { unfold os.lookup_file in *. by rewrite Hw1. }
    destruct b; [|by eapply count_unique_basic_fails].
    apply TemporaryDirectory_fails. intros d w2 Hm.
    pose proof (mkdtemp_spec w1) as Hs. rewrite Hm in Hs.
    destruct Hs as (_ & Hnew & Hw2).
    assert (Hin : (os.path_split (input_file args)).1 <> os.dirkey d).
    { intros E. unfold os.lookup_file in Hf1.
      destruct (os.path_split (input_file args)) as [dd n]. simpl in E.
      subst dd. by rewrite Hnew in Hf1. }
    eapply count_unique_optimized_fails; [done| |done].
    unfold os.lookup_file in *.
    destruct (os.path_split (input_file args)) as [dd n]. simpl in Hin.
    by rewrite Hw2, lookup_insert_ne. }
  apply fails_bind. intros b w1 E. apply Hsel.
  destruct (optimized args); [by inversion E|].
  rewrite run_bind in E.
  pose proof (keeps_all (os.getsize (input_file args)) w
                (fun D => keeps_getsize D _)) as Hg.
  destruct (run (os.getsize (input_file args)) w) as [[size|e'] w2];
    [|done].
  rewrite run_ret in E. by inversion E; subst.
Qed.


Lemma keeps_isfile D p : keeps D (os.isfile p).
Proof. intros w. apply same_outside_refl. Qed.

(** Lines 157-158: writing the result touches the output's directory only. *)
Lemma keeps_write_result output_path text :
  keeps (os.path_split output_path).1
        (_ ← os.open_w output_path; os.write output_path text).
Proof.
  apply keeps_bind; [apply keeps_open_w|]. intros _. apply keeps_write.
Qed.

(** With [--basic], [main] asks for no temporary directory and touches
    nothing but the output's directory. *)
Lemma keeps_main_basic args :
  basic args = true -> keeps (os.path_split (output_file args)).1 (main args).
Proof.
  intros Hb. rewrite main_unfold. unfold count_of. rewrite Hb.
  apply keeps_bind; [apply keeps_isfile|]. intros found.
  destruct (negb found); [apply keeps_raise|].
  apply keeps_bind; [apply keeps_count_unique_basic|]. intros count.
  apply keeps_write_result.
Qed.

(** A failing [main] has written nothing when the counting failed. *)
Lemma main_fails args w text e :
  os.lookup_file (input_file args) w = Some text ->
  canonical_lines (os.iter_lines text) = Raise e ->
  exists e' w', run (main args) w = (Raise e', w') /\ w_dirs w' = w_dirs w.
Proof.
  intros Hf Hc. rewrite (run_main_found args w text Hf).
  pose proof (count_of_restores args w) as Hr.
  destruct (count_of_fails args w text e Hf Hc) as (e' & w' & E).
  rewrite E in *. by exists e', w'.
Qed.


(** ** The partitions together hold every line once *)

Lemma filter_split_perm (n : nat) (cs : list str) :
  filter (below (S n)) cs ≡ₚ filter (below n) cs ++ part n cs.
Proof.
  unfold part. induction cs as [|c cs IH]; [done|].
  destruct (decide (below n c)) as [Hb|Hb].
  - rewrite (filter_cons_True (below (S n))) by (apply below_S; by left).
    rewrite (filter_cons_True (below n)) by done.
    rewrite filter_cons_False.
    + cbn [app]. by rewrite IH.
    + intros E. unfold below in Hb. rewrite E in Hb. lia.
  - rewrite (filter_cons_False (below n)) by done.
    destruct (decide (partition_index c = Ok (Z.of_nat n))) as [E|E].
    + rewrite (filter_cons_True (below (S n))) by (apply below_S; by right).
      rewrite filter_cons_True by done.
      rewrite IH. apply Permutation_middle.
    + rewrite (filter_cons_False (below (S n))), filter_cons_False; try done.
      rewrite below_S. tauto.
Qed.

Lemma parts_below (n : nat) (cs : list str) :
  concat ((fun k => part k cs) <$> seq 0 n) ≡ₚ filter (below n) cs.
Proof.
  induction n as [|n IH].
  - cbn. induction cs as [|c cs IHcs]; [done|].
    rewrite filter_cons_False; [done|]. unfold below.
    destruct (partition_index c); [lia | tauto].
  - rewrite seq_S, fmap_app, concat_app, IH, filter_split_perm.
    cbn. by rewrite app_nil_r.
Qed.

(** Read together, the partitions are the canonical lines, each as often
    as it occurs. *)
Lemma parts_permutation (cs : list str) :
  Forall is_canonical cs ->
  concat ((fun k => part k cs) <$> seq 0 P) ≡ₚ cs.
Proof.
  intros Hcs. rewrite parts_below.
  replace (filter (below P) cs) with cs; [done|].
  induction Hcs as [|c cs [_ Hc] _ IH]; [done|].
  rewrite filter_cons_True; [by rewrite <- IH|].
  destruct (partition_index_range c Hc) as (i & Hi & Hr).
  unfold below. rewrite Hi. unfold P. lia.
Qed.

(** Each canonical line lies in one partition, that of its index. *)
Lemma part_unique (cs : list str) (c : str) :
  is_canonical c -> c ∈ cs ->
  exists k, (k < P)%nat /\ partition_index c = Ok (Z.of_nat k)
            /\ c ∈ part k cs /\ forall j, c ∈ part j cs -> j = k.
Proof.
  intros [_ Hc] Hin. destruct (partition_index_range c Hc) as (i & Hi & Hr).
  assert (Hk : Z.of_nat (Z.to_nat i) = i) by lia.
  exists (Z.to_nat i). split; [unfold P; lia|].
  split; [by rewrite Hk|]. split.
  - unfold part. apply list_elem_of_filter. by rewrite Hk.
  - intros j [Hj _]%list_elem_of_filter. rewrite Hi in Hj.
    inversion Hj. lia.
Qed.

(** The state in which the partitioning loop finds the spill files and
    leaves them (see [partition_loop]), from the world the engine starts
    in. *)
Lemma partitioning_loop_state temp_dir w files0 lines cs :
  w_io w = None ->
  w_dirs w !! os.dirkey temp_dir = Some files0 ->
  canonical_lines lines = Ok cs ->
  exists files1 buffer bsize files2,
    run (for_each (fun _ p => os.open_w p) () (partition_paths temp_dir)) w
    = (Ok (), with_dir (os.dirkey temp_dir) files1 w)
    /\ run (for_each (fun fhs p => _ ← os.open_a p; mret (fhs ++ [p])) []
                     (partition_paths temp_dir))
           (with_dir (os.dirkey temp_dir) files1 w)
       = (Ok (partition_paths temp_dir),
          with_dir (os.dirkey temp_dir) files1 w)
    /\ run (for_each (partition_step (partition_paths temp_dir))
                     (replicate P [], 0) lines)
           (with_dir (os.dirkey temp_dir) files1 w)
       = (Ok (buffer, bsize), with_dir (os.dirkey temp_dir) files2 w)
    /\ loop_inv cs buffer bsize files2.
Proof.
  intros Hio Hdir Hcs.
  destruct (create_spills temp_dir w Hio files0) as (files1 & Hc & Hs1 & _).
  rewrite (with_dir_id _ files0 w Hdir) in Hc.
  pose proof (partition_loop temp_dir w Hio lines [] (replicate P []) 0 files1
                (loop_inv_start files1 Hs1)) as Hloop.
  rewrite Hcs in Hloop. destruct Hloop as (buffer & bsize & files2 & Hl & HI & _).
  exists files1, buffer, bsize, files2. split; [done|].
  split; [by eapply open_spills|]. by split.
Qed.


(** ** The hash behind the partition index *)

(** The number four bytes write, most significant first. *)
Definition be32 (b0 b1 b2 b3 : Z) : Z :=
  ((b0 * 256 + b1) * 256 + b2) * 256 + b3.

Lemma hex_pair_value a b :
  0 <= a -> 0 <= b < 256 ->
  acc_digits 16 a [hex_digit (b / 16); hex_digit (b mod 16)] = a * 256 + b.
Proof.
  intros Ha Hb. unfold acc_digits. cbn [foldl].
  rewrite !hex_digit_val.
  - cbn [default]. unfold id. pose proof (Z.div_mod b 16). lia.
  - apply Z.mod_pos_bound. lia.
  - split; [apply Z.div_pos; lia | apply Z.div_lt_upper_bound; lia].
Qed.

(** [int(hexdigest[:8], 16)] reads the first four bytes of the digest. *)
Lemma digest_prefix_value (data : list Z) :
  exists b0 b1 b2 b3 rest,
    hashlib.md5 data = b0 :: b1 :: b2 :: b3 :: rest
    /\ int (take 8 (hashlib.hexdigest (hashlib.md5 data))) 16
       = Ok (be32 b0 b1 b2 b3).
Proof.
  unfold hashlib.md5. cbv zeta.
  destruct (foldl hashlib.process _ _) as [[[a b] c] d].
  unfold hashlib.le_bytes.
  cbn [seq fmap list_fmap app hashlib.hexdigest mbind list_bind take].
  set (b0 := Z.land (Z.shiftr a (8 * Z.of_nat 0)) 255).
  set (b1 := Z.land (Z.shiftr a (8 * Z.of_nat 1)) 255).
  set (b2 := Z.land (Z.shiftr a (8 * Z.of_nat 2)) 255).
  set (b3 := Z.land (Z.shiftr a (8 * Z.of_nat 3)) 255).
  assert (H0 : 0 <= b0 < 256) by apply land_255.
  assert (H1 : 0 <= b1 < 256) by apply land_255.
  assert (H2 : 0 <= b2 < 256) by apply land_255.
  assert (H3 : 0 <= b3 < 256) by apply land_255.
  exists b0, b1, b2, b3. eexists. split; [reflexivity|].
  unfold int. cbv beta iota.
  rewrite (int_digits_valid 16) by
    (try lia;
     repeat (apply Forall_cons; split; [by apply hex_pair_digits|]);
     constructor).
  f_equal.
  change (acc_digits 16 0
            ([hex_digit (b0 / 16); hex_digit (b0 mod 16)]
             ++ [hex_digit (b1 / 16); hex_digit (b1 mod 16)]
             ++ [hex_digit (b2 / 16); hex_digit (b2 mod 16)]
             ++ [hex_digit (b3 / 16); hex_digit (b3 mod 16)])
          = be32 b0 b1 b2 b3).
  unfold acc_digits. rewrite !foldl_app.
  fold (acc_digits 16 0 [hex_digit (b0 / 16); hex_digit (b0 mod 16)]).
  rewrite hex_pair_value by lia.
  fold (acc_digits 16 (0 * 256 + b0) [hex_digit (b1 / 16); hex_digit (b1 mod 16)]).
  rewrite hex_pair_value by lia.
  fold (acc_digits 16 ((0 * 256 + b0) * 256 + b1)
          [hex_digit (b2 / 16); hex_digit (b2 mod 16)]).
  rewrite hex_pair_value by lia.
  fold (acc_digits 16 (((0 * 256 + b0) * 256 + b1) * 256 + b2)
          [hex_digit (b3 / 16); hex_digit (b3 mod 16)]).
  rewrite hex_pair_value by lia.
  unfold be32. lia.
Qed.

(** The partition of a canonical string: the first four bytes of the MD5
    digest of its characters (which are ASCII, one byte each), as a
    big-endian number, modulo the number of partitions. *)
Lemma partition_index_md5 (c : str) :
  canonical_chars c ->
  exists b0 b1 b2 b3 rest,
    hashlib.md5 c = b0 :: b1 :: b2 :: b3 :: rest
    /\ partition_index c = Ok (be32 b0 b1 b2 b3 mod NUM_PARTITIONS).
Proof.
  intros Hc. unfold partition_index. rewrite encode_ascii.
  - cbn [mbind result_bind].
    destruct (digest_prefix_value c) as (b0 & b1 & b2 & b3 & rest & Hd & ->).
    by exists b0, b1, b2, b3, rest.
  - eapply Forall_impl; [exact Hc|]. intros x Hx.
    destruct (canonical_char_plain x Hx) as (_ & _ & _ & ?). lia.
Qed.

(** ** The spill files the partitioned engine leaves in its directory *)

Lemma count_unique_optimized_spills input_path temp_dir num_workers w files0
    nw text cs :
  w_io w = None ->
  w_dirs w !! os.dirkey temp_dir = Some files0 ->
  (os.path_split input_path).1 <> os.dirkey temp_dir ->
  effective_workers w num_workers = Ok nw ->
  os.lookup_file input_path w = Some text ->
  canonical_lines (os.iter_lines text) = Ok cs ->
  exists files,
    run (count_unique_optimized input_path temp_dir num_workers) w
    = (if nw <=? 0 then Raise ValueError else Ok (distinct cs),
       with_dir (os.dirkey temp_dir) files w)
    /\ spills files (fun k => spill_text (part k cs))
    /\ same_others files0 files.
Proof.
  intros Hio Hdir Hin Hnw Hf Hcs. rewrite count_unique_optimized_unfold, Hnw.
  pose proof (partitioning_spec temp_dir w Hio input_path files0 Hdir
                (outside_not_spill _ _ Hin)) as Hp.
  rewrite Hf, Hcs in Hp. destruct Hp as (files & -> & Hs & Ho).
  exists files. split; [|done].
  rewrite (counting_phase_spec temp_dir w Hio cs files);
    [done | by eapply canonical_lines_valid | done].
Qed.

Lemma lookup_spill_file temp_dir w files g k :
  spills files g -> (k < P)%nat ->
  os.lookup_file (os.path_join temp_dir (spill_name k))
                 (with_dir (os.dirkey temp_dir) files w)
  = Some (g k).
Proof. intros Hs Hk. rewrite lookup_spill. by apply Hs. Qed.


(** ** What [main] leaves behind *)

Lemma w_dirs_store_file p t w :
  w_dirs (os.store_file p t w)
  = alter (insert (os.path_split p).2 t) (os.path_split p).1 (w_dirs w).
Proof. unfold os.store_file. by destruct (os.path_split p). Qed.

Lemma w_dirs_store_twice p t1 t2 w :
  w_dirs (os.store_file p t2 (os.store_file p t1 w))
  = w_dirs (os.store_file p t2 w).
Proof.
  rewrite !w_dirs_store_file. apply map_eq. intros d.
  destruct (decide ((os.path_split p).1 = d)) as [<-|Hne].
  - rewrite !lookup_alter_eq.
    destruct (w_dirs w !! (os.path_split p).1) as [fs|]; [|done]. cbn.
    by rewrite insert_insert_eq.
  - by rewrite !lookup_alter_ne.
Qed.

(** Storing a file creates no directory. *)
Lemma store_file_no_dir p t w D :
  w_dirs w !! D = None -> w_dirs (os.store_file p t w) !! D = None.
Proof.
  intros H. rewrite w_dirs_store_file.
  destruct (decide ((os.path_split p).1 = D)) as [<-|Hne].
  - by rewrite lookup_alter_eq, H.
  - by rewrite lookup_alter_ne.
Qed.

Lemma tick_dirs w r w' :
  run tick w = (r, w') -> w_dirs w' = w_dirs w.
Proof.
  unfold tick. cbn [run]. destruct (w_io w) as [[|n]|]; by intros [= <- <-].
Qed.

Lemma open_w_dirs p w r w' :
  run (os.open_w p) w = (r, w') ->
  w_dirs w' = w_dirs w \/ w_dirs w' = w_dirs (os.store_file p [] w).
Proof.
  unfold os.open_w. rewrite run_bind.
  destruct (run tick w) as [[[]|e] w1] eqn:Et.
  - apply tick_dirs in Et. cbn [run]. rewrite Et.
    destruct (w_dirs w !! _); intros [= <- <-]; [right | by left].
    by rewrite !w_dirs_store_file, Et.
  - apply tick_dirs in Et. intros [= <- <-]. by left.
Qed.

Lemma write_dirs p t w r w' :
  run (os.write p t) w = (r, w') ->
  w_dirs w' = w_dirs w
  \/ exists t', w_dirs w' = w_dirs (os.store_file p t' w).
Proof.
  unfold os.write. rewrite run_bind.
  destruct (run tick w) as [[[]|e] w1] eqn:Et.
  - apply tick_dirs in Et. cbn [run].
    destruct (os.lookup_file p w1) as [old|]; intros [= <- <-]; [right | by left].
    exists (old ++ t). by rewrite !w_dirs_store_file, Et.
  - apply tick_dirs in Et. intros [= <- <-]. by left.
Qed.

(** Lines 157-158 change, at most, the output file. *)
Lemma write_result_dirs output_path text w :
  let w' := (run (_ ← os.open_w output_path; os.write output_path text) w).2 in
  w_dirs w' = w_dirs w
  \/ exists t, w_dirs w' = w_dirs (os.store_file output_path t w).
Proof.
  cbv zeta. rewrite run_bind.
  destruct (run (os.open_w output_path) w) as [[[]|e] w1] eqn:Eo.
  - apply open_w_dirs in Eo.
    destruct (run (os.write output_path text) w1) as [r w2] eqn:Ew.
    apply write_dirs in Ew. cbn [snd].
    destruct Ew as [Ew|[t Ew]]; rewrite Ew.
    + destruct Eo as [Eo|Eo]; [by left | right; by exists []].
    + right. exists t. rewrite !w_dirs_store_file.
      destruct Eo as [Eo|Eo]; rewrite Eo; [done|].
      rewrite <- !w_dirs_store_file. apply w_dirs_store_twice.
  - apply open_w_dirs in Eo. cbn [snd].
    destruct Eo as [Eo|Eo]; [by left | right; by exists []].
Qed.

(** [main] changes no file but the output file and leaves no directory
    behind, in every mode and whatever fails. *)
Lemma main_dirs args w :
  let w' := (run (main args) w).2 in
  w_dirs w' = w_dirs w
  \/ exists t, w_dirs w' = w_dirs (os.store_file (output_file args) t w).
Proof.
  cbv zeta. destruct (os.lookup_file (input_file args) w) as [text|] eqn:Hf.
  - rewrite (run_main_found args w text Hf).
    pose proof (count_of_restores args w) as Hr.
    destruct (run (count_of args) w) as [[count|e] w1]; [|by left].
    cbn [snd] in Hr.
    destruct (write_result_dirs (output_file args) (format_d count) w1)
      as [H|[t H]]; cbv zeta in H.
    + left. by rewrite H.
    + right. exists t. by rewrite H, !w_dirs_store_file, Hr.
  - rewrite (run_main_missing args w Hf). by left.
Qed.

(** Leaving the [with] block of [main] with the engine's outcome [r]: the
    temporary directory [d] is removed; after a result the count is
    written (lines 157-158), after an exception the exception goes on. *)
Definition leave_block (d output_path : str) (r : result Z * World)
  : result unit * World :=
  match r with
  | (Ok count, w2) =>
      run (_ ← os.open_w output_path; os.write output_path (format_d count))
          (tempfile.rmtree d w2)
  | (Raise e, w2) => (Raise e, tempfile.rmtree d w2)
  end.

(** With [--optimized] (and without [--basic]) [main] runs the engine in
    the directory [mkdtemp] hands out and removes that directory when the
    engine returns, and also when it raises. *)
Lemma main_optimized_unfold args w text d w1 :
  basic args = false -> optimized args = true ->
  os.lookup_file (input_file args) w = Some text ->
  run tempfile.mkdtemp w = (Ok d, w1) ->
  run (main args) w
  = match run (count_unique_optimized (input_file args) d (workers args)) w1
    with
    | (Ok count, w2) =>
        run (_ ← os.open_w (output_file args);
             os.write (output_file args) (format_d count))
            (tempfile.rmtree d w2)
    | (Raise e, w2) => (Raise e, tempfile.rmtree d w2)
    end.
Proof.
  intros Hb Ho Hf Hm. rewrite (run_main_found args w text Hf).
  unfold count_of. rewrite Hb, Ho, run_bind, run_ret.
  rewrite run_TemporaryDirectory, Hm.
  by destruct (run (count_unique_optimized _ _ _) w1) as [[count|e] w2].
Qed.

Lemma mkdtemp_from_same cands w d w1 :
  tempfile.mkdtemp_from cands w = (Ok d, w1) ->
  w_io w1 = w_io w /\ w_cpu_count w1 = w_cpu_count w.
Proof.
  induction cands as [|c cands IH]; [done|]. cbn [tempfile.mkdtemp_from].
  destruct (tempfile.exists_path c w); [done|]. by intros [= <- <-].
Qed.

Lemma mkdtemp_no_faults w d w1 :
  w_io w = None -> run tempfile.mkdtemp w = (Ok d, w1) ->
  w_io w1 = None /\ w_cpu_count w1 = w_cpu_count w.
Proof.
  intros Hio. unfold tempfile.mkdtemp. rewrite run_bind, run_tick by done.
  cbn [run]. intros [H1 H2]%mkdtemp_from_same. by rewrite H1, H2.
Qed.

(** A file that exists is not in the directory [mkdtemp] creates, and is
    still there afterwards. *)
Lemma mkdtemp_other_file w d w1 p text :
  run tempfile.mkdtemp w = (Ok d, w1) ->
  os.lookup_file p w = Some text ->
  (os.path_split p).1 <> os.dirkey d /\ os.lookup_file p w1 = Some text.
Proof.
  intros Hm Hf. pose proof (mkdtemp_spec w) as Hs. rewrite Hm in Hs.
  destruct Hs as (_ & Hnew & Hw1). unfold os.lookup_file in *.
  destruct (os.path_split p) as [dd n]. cbn [fst].
  assert (Hne : dd <> os.dirkey d).
  { intros ->. by rewrite Hnew in Hf. }
  split; [done|]. by rewrite Hw1, lookup_insert_ne.
Qed.

(** The engine itself leaves its spill files where it wrote them: inside
    the block of [main], before the directory is removed, they all exist. *)
Lemma spill_files_left args w d w1 text cs :
  w_io w = None -> valid_workers w (workers args) ->
  run tempfile.mkdtemp w = (Ok d, w1) ->
  os.lookup_file (input_file args) w = Some text ->
  canonical_lines (os.iter_lines text) = Ok cs ->
  forall p, p ∈ partition_paths d ->
    is_Some (os.lookup_file p
      (run (count_unique_optimized (input_file args) d (workers args)) w1).2).
Proof.
  intros Hio Hv Hm Hf Hcs p Hp.
  destruct (mkdtemp_no_faults w d w1 Hio Hm) as [Hio1 Hcpu].
  destruct (mkdtemp_other_file w d w1 _ text Hm Hf) as [Hin Hf1].
  pose proof (mkdtemp_spec w) as Hs. rewrite Hm in Hs.
  destruct Hs as (_ & _ & Hw1).
  assert (Hnw : exists nw, effective_workers w1 (workers args) = Ok nw).
  { unfold effective_workers. rewrite Hcpu.
    destruct Hv as [Hpos|[-> [n ->]]]; [|by eexists].
    rewrite (proj2 (Z.eqb_neq _ _)) by lia. by eexists. }
  destruct Hnw as [nw Hnw].
  destruct (count_unique_optimized_spills (input_file args) d (workers args)
              w1 ∅ nw text cs Hio1) as (files & -> & Hs & _); try done.
  { by rewrite Hw1, lookup_insert_eq. }
  rewrite partition_paths_seq in Hp.
  apply list_elem_of_fmap in Hp as (k & -> & Hk%elem_of_seq).
  cbn [snd]. rewrite (lookup_spill_file d w1 files _ k Hs) by lia.
  by eexists.
Qed.

(** Phase 1 is the opening of the spill files, the loop over the lines of
    the input and the last flush. *)
Lemma partition_phase_run temp_dir w files1 g input_path text buffer bsize
    w2 w4 :
  w_io w = None -> spills files1 g ->
  (os.path_split input_path).1 <> os.dirkey temp_dir ->
  os.lookup_file input_path w = Some text ->
  run (for_each (partition_step (partition_paths temp_dir))
                (replicate P [], 0) (os.iter_lines text))
      (with_dir (os.dirkey temp_dir) files1 w)
  = (Ok (buffer, bsize), w2) ->
  run (flush false (partition_paths temp_dir) buffer) w2 = (Ok buffer, w4) ->
  run (partition_phase input_path (partition_paths temp_dir))
      (with_dir (os.dirkey temp_dir) files1 w)
  = (Ok (), w4).
Proof.
  intros Hio Hs Hin Hf Hloop Hflush. unfold partition_phase.
  rewrite run_bind, (open_spills temp_dir w Hio files1 g Hs), run_bind.
  rewrite run_read_lines by (by apply w_io_with_dir).
  rewrite lookup_file_with_dir, decide_False, Hf by done.
  rewrite run_bind. fold P. rewrite Hloop, run_bind, Hflush. done.
Qed.



(** ** A run of [main] that succeeds, when no I/O fails *)

Lemma optimized_result_Ok w input_path num_workers n :
  optimized_result w input_path num_workers = Ok n ->
  exists text cs,
    os.lookup_file input_path w = Some text
    /\ canonical_lines (os.iter_lines text) = Ok cs /\ n = distinct cs.
Proof.
  unfold optimized_result.
  destruct (effective_workers w num_workers) as [nw|e]; [|done].
  cbn [mbind result_bind].
  destruct (os.lookup_file input_path w) as [text|]; [|done].
  destruct (canonical_lines (os.iter_lines text)) as [cs|e] eqn:Ecs; [|done].
  cbn [mbind result_bind]. destruct (nw <=? 0); [done|].
  intros [= <-]. by exists text, cs.
Qed.

(** A negative number of workers names no pool: the engine returns no
    count. *)
Lemma optimized_result_negative w input_path num_workers n :
  num_workers < 0 -> optimized_result w input_path num_workers <> Ok n.
Proof.
  intros Hneg. unfold optimized_result, effective_workers.
  rewrite (proj2 (Z.eqb_neq _ _)) by lia. cbn [mbind result_bind].
  destruct (os.lookup_file input_path w) as [text|]; [|done].
  destruct (canonical_lines (os.iter_lines text)) as [cs|e]; [|done].
  cbn [mbind result_bind]. by rewrite (proj2 (Z.leb_le _ _)) by lia.
Qed.

Lemma lookup_file_dirs p w w' :
  w_dirs w' = w_dirs w -> os.lookup_file p w' = os.lookup_file p w.
Proof. intros H. unfold os.lookup_file. by rewrite H. Qed.

Lemma lookup_store_same p t w fs :
  w_dirs w !! (os.path_split p).1 = Some fs ->
  os.lookup_file p (os.store_file p t w) = Some t.
Proof.
  intros H. unfold os.lookup_file. rewrite w_dirs_store_file.
  destruct (os.path_split p) as [d n]. cbn [fst snd] in *.
  rewrite lookup_alter_eq, H. cbn. by rewrite lookup_insert_eq.
Qed.

Lemma count_of_Ok args w text n w1 :
  w_io w = None -> os.lookup_file (input_file args) w = Some text ->
  run (count_of args) w = (Ok n, w1) ->
  exists cs,
    canonical_lines (os.iter_lines text) = Ok cs /\ n = distinct cs
    /\ w_io w1 = None /\ w_dirs w1 = w_dirs w.
Proof.
  intros Hio Hf E. pose proof (count_of_restores args w) as Hr.
  rewrite E in Hr. cbn [snd] in Hr.
  assert (Hbasic : forall n w1,
    run (count_unique_basic (input_file args)) w = (Ok n, w1) ->
    exists cs, canonical_lines (os.iter_lines text) = Ok cs /\ n = distinct cs
               /\ w_io w1 = None).
  { intros n' w1'. rewrite count_unique_basic_spec, Hf by done.
    destruct (canonical_lines (os.iter_lines text)) as [cs|e] eqn:Ecs; [|done].
    intros [= <- <-]. by exists cs. }
  assert (Hopt : forall n w1,
    run (tempfile.TemporaryDirectory (fun tmpdir =>
           count_unique_optimized (input_file args) tmpdir (workers args))) w
    = (Ok n, w1) ->
    exists cs, canonical_lines (os.iter_lines text) = Ok cs /\ n = distinct cs
               /\ w_io w1 = None).
  { intros n' w1'. rewrite run_TemporaryDirectory.
    pose proof (mkdtemp_spec w) as Hs.
    destruct (run tempfile.mkdtemp w) as [[d|e] wm] eqn:Hm; [|done].
    destruct Hs as (_ & Hnew & Hwm).
    destruct (mkdtemp_no_faults w d wm Hio Hm) as [Hiom _].
    destruct (mkdtemp_other_file w d wm _ text Hm Hf) as [Hin Hfm].
    destruct (count_unique_optimized_spec (input_file args) d (workers args)
                wm ∅ Hiom) as (files & -> & _).
    { by rewrite Hwm, lookup_insert_eq. }
    { by apply outside_not_spill. }
    cbn [fst snd]. intros [= Hres <-].
    apply optimized_result_Ok in Hres as (text' & cs & Hf' & Hcs & ->).
    rewrite Hfm in Hf'. inversion Hf'; subst text'.
    by exists cs. }
  unfold count_of in E. destruct (basic args).
  { destruct (Hbasic n w1 E) as (cs & ? & ? & ?). by exists cs. }
  rewrite run_bind in E. destruct (optimized args).
  - rewrite run_ret in E. destruct (Hopt n w1 E) as (cs & ? & ? & ?).
    by exists cs.
  - rewrite run_bind, run_getsize, Hf, run_ret in E by done.
    destruct (MEMORY_MODE_THRESHOLD <? _).
    + destruct (Hopt n w1 E) as (cs & ? & ? & ?). by exists cs.
    + destruct (Hbasic n w1 E) as (cs & ? & ? & ?). by exists cs.
Qed.

Lemma write_result_Ok output_path text w w' :
  w_io w = None ->
  run (_ ← os.open_w output_path; os.write output_path text) w = (Ok (), w') ->
  os.lookup_file output_path w' = Some text /\ w_io w' = None
  /\ w_dirs w' = w_dirs (os.store_file output_path text w).
Proof.
  intros Hio. rewrite run_bind, run_open_w by done.
  destruct (w_dirs w !! (os.path_split output_path).1) as [fs|] eqn:Hd; [|done].
  assert (Hio1 : w_io (os.store_file output_path [] w) = None)
    by by rewrite w_io_store_file.
  rewrite run_write by done.
  rewrite (lookup_store_same output_path [] w fs Hd). cbn [app].
  intros [= <-]. split; [|split].
  - eapply lookup_store_same. rewrite w_dirs_store_file.
    by rewrite lookup_alter_eq, Hd.
  - by rewrite !w_io_store_file.
  - apply w_dirs_store_twice.
Qed.

(** What a successful run of [main] has done. *)
Lemma main_Ok args w w1 :
  w_io w = None -> run (main args) w = (Ok (), w1) ->
  exists text cs,
    os.lookup_file (input_file args) w = Some text
    /\ canonical_lines (os.iter_lines text) = Ok cs
    /\ os.lookup_file (output_file args) w1 = Some (format_d (distinct cs))
    /\ w_io w1 = None
    /\ w_dirs w1
       = w_dirs (os.store_file (output_file args) (format_d (distinct cs)) w).
Proof.
  intros Hio E.
  destruct (os.lookup_file (input_file args) w) as [text|] eqn:Hf.
  2:{ by rewrite (run_main_missing args w Hf) in E. }
  rewrite (run_main_found args w text Hf) in E.
  destruct (run (count_of args) w) as [[n|e] wc] eqn:Ec; [|done].
  destruct (count_of_Ok args w text n wc Hio Hf Ec) as (cs & Hcs & -> & Hioc & Hdc).
  destruct (write_result_Ok _ _ wc w1 Hioc E) as (Hout & Hio1 & Hd1).
  exists text, cs. split; [done|]. split; [done|]. split; [done|].
  split; [done|]. by rewrite Hd1, !w_dirs_store_file, Hdc.
Qed.

(** Running [main] again on an input that is still what it was writes the
    same output. *)
Lemma main_twice args w w1 w2 :
  w_io w = None ->
  run (main args) w = (Ok (), w1) ->
  os.lookup_file (input_file args) w1 = os.lookup_file (input_file args) w ->
  run (main args) w1 = (Ok (), w2) ->
  exists text cs,
    os.lookup_file (input_file args) w = Some text
    /\ canonical_lines (os.iter_lines text) = Ok cs
    /\ os.lookup_file (output_file args) w1 = Some (format_d (distinct cs))
    /\ os.lookup_file (output_file args) w2 = Some (format_d (distinct cs)).
Proof.
  intros Hio E1 Hsame E2.
  destruct (main_Ok args w w1 Hio E1) as (text & cs & Hf & Hcs & Ho1 & Hio1 & _).
  destruct (main_Ok args w1 w2 Hio1 E2) as (text' & cs' & Hf' & Hcs' & Ho2 & _).
  rewrite Hsame, Hf in Hf'. inversion Hf'; subst text'.
  rewrite Hcs in Hcs'. inversion Hcs'; subst cs'.
  by exists text, cs.
Qed.

(** The result of the partitioned engine does not depend on the number of
    workers, the number of CPUs or the order in which the tasks finish. *)
Lemma workers_irrelevant input_path temp_dir nw1 nw2 wa wb files0 :
  w_io wa = None -> w_io wb = None -> w_dirs wb = w_dirs wa ->
  w_dirs wa !! os.dirkey temp_dir = Some files0 ->
  (os.path_split input_path).1 <> os.dirkey temp_dir ->
  valid_workers wa nw1 -> valid_workers wb nw2 ->
  (run (count_unique_optimized input_path temp_dir nw1) wa).1
  = (run (count_unique_optimized input_path temp_dir nw2) wb).1.
Proof.
  intros Hioa Hiob Hd Hdir Hin Hv1 Hv2.
  destruct (count_unique_optimized_spec input_path temp_dir nw1 wa files0
              Hioa Hdir (outside_not_spill _ _ Hin)) as (fa & -> & _).
  destruct (count_unique_optimized_spec input_path temp_dir nw2 wb files0
              Hiob) as (fb & -> & _);
    [by rewrite Hd | by apply outside_not_spill |].
  cbn [fst]. rewrite !optimized_result_valid by done.
  by rewrite (lookup_file_dirs input_path wa wb Hd).
Qed.

(** * The claims *)



(** A small world for the examples: an input file [/data/in.txt] holding
    [text], an empty directory [/tmp/t], four CPUs, no I/O faults. *)
Definition example_world (text : str) : World :=
  {| w_dirs := {[ py "/data" := {[ py "in.txt" := text ]};
                  py "/tmp/t" := ∅ ]};
     w_io := None;
     w_cpu_count := Some 4;
     w_tmp := [py "/tmp/ipv6_count_a"; py "/tmp/ipv6_count_b"];
     w_finish := fun _ => 0%nat |}.

(** A command line that asks for the partitioned engine. *)
Definition example_args : Args :=
  {| input_file := py "/data/in.txt"; output_file := py "/data/out.txt";
     optimized := true; basic := false; workers := 2 |}.

(** C1. Engine equivalence: on every input file the partitioned engine and
    the in-memory engine give the same result, the same distinct count or
    the same error, when no I/O operation fails, the temporary directory
    exists and does not hold the input file, and the number of workers is
    usable (positive, or 0 with a known CPU count). *)
Theorem engine_equivalence (input_path temp_dir : str) (num_workers : Z)
    (w : World) (files0 : gmap str str) :
  w_io w = None ->
  w_dirs w !! os.dirkey temp_dir = Some files0 ->
  (os.path_split input_path).1 <> os.dirkey temp_dir ->
  valid_workers w num_workers ->
  (run (count_unique_optimized input_path temp_dir num_workers) w).1
  = (run (count_unique_basic input_path) w).1.
Proof.
  intros Hio Hdir Hin Hv.
  destruct (count_unique_optimized_spec input_path temp_dir num_workers w
              files0 Hio Hdir (outside_not_spill _ _ Hin)) as (files & -> & _).
  rewrite count_unique_basic_spec by done. cbn [fst].
  by apply optimized_result_valid.
Qed.

Lemma engine_equivalence_witness :
  (run (count_unique_optimized (py "/data/in.txt") (py "/tmp/t") 2)
       (example_world (py "::1"))).1
  = (run (count_unique_basic (py "/data/in.txt"))
         (example_world (py "::1"))).1.
Proof.
  apply (engine_equivalence (py "/data/in.txt") (py "/tmp/t") 2
           (example_world (py "::1")) ∅).
  - reflexivity.
  - vm_compute. reflexivity.
  - vm_compute. discriminate.
  - left. lia.
Defined.

(** C5. Partition assignment: the partition of a canonical string is a
    function of the string alone, the first four bytes of the MD5 digest of
    its bytes read as a big-endian number, modulo 4096, so it lies in
    [0, 4096); and in every world without I/O faults, with every number of
    workers, the partitioned engine files the line of that string in the
    spill file of that index and in no other. *)
Theorem partition_assignment (x c : str) :
  ipv6_to_canonical x = Ok c ->
  exists i b0 b1 b2 b3 rest,
    partition_index c = Ok i /\ 0 <= i < NUM_PARTITIONS
    /\ hashlib.encode c = Ok c
    /\ hashlib.md5 c = b0 :: b1 :: b2 :: b3 :: rest
    /\ i = (((b0 * 256 + b1) * 256 + b2) * 256 + b3) mod NUM_PARTITIONS
    /\ forall input_path temp_dir num_workers nw w files0 text cs,
         w_io w = None ->
         w_dirs w !! os.dirkey temp_dir = Some files0 ->
         (os.path_split input_path).1 <> os.dirkey temp_dir ->
         effective_workers w num_workers = Ok nw ->
         os.lookup_file input_path w = Some text ->
         canonical_lines (os.iter_lines text) = Ok cs ->
         c ∈ cs ->
         forall k, (k < Z.to_nat NUM_PARTITIONS)%nat ->
           exists t,
             os.lookup_file
               (os.path_join temp_dir (part_name (Z.of_nat k)))
               (run (count_unique_optimized input_path temp_dir num_workers)
                    w).2 = Some t
             /\ (c ++ [LF] ∈ os.iter_lines t <-> Z.of_nat k = i).
Proof.
  intros Hx. pose proof (canonical_charset x c Hx) as [Hc Hne].
  destruct (partition_index_md5 c Hc) as (b0 & b1 & b2 & b3 & rest & Hd & Hi).
  exists (be32 b0 b1 b2 b3 mod NUM_PARTITIONS), b0, b1, b2, b3, rest.
  split; [done|]. split; [by apply Z.mod_pos_bound|]. split.
  { apply encode_ascii. eapply Forall_impl; [exact Hc|]. intros y Hy.
    destruct (canonical_char_plain y Hy) as (_ & _ & _ & ?). lia. }
  split; [done|]. split; [done|].
  intros input_path temp_dir num_workers nw w files0 text cs
         Hio Hdir Hin Hnw Hf Hcs Hmem k Hk.
  destruct (count_unique_optimized_spills input_path temp_dir num_workers w
              files0 nw text cs Hio Hdir Hin Hnw Hf Hcs)
    as (files & -> & Hs & _).
  exists (spill_text (part k cs)). cbn [snd]. split.
  { by apply (lookup_spill_file temp_dir w files _ k Hs). }
  pose proof (canonical_lines_valid _ _ Hcs) as Hvalid.
  rewrite iter_lines_spill.
  2:{ eapply Forall_impl; [apply (part_canonical cs Hvalid k)|].
      by intros y [_ ?]. }
  rewrite list_elem_of_fmap. unfold part. split.
  - intros (y & Ey & [Hy _]%list_elem_of_filter).
    apply app_inv_tail in Ey. subst y. rewrite Hi in Hy. by inversion Hy.
  - intros E. exists c. split; [done|]. apply list_elem_of_filter.
    split; [|done]. by rewrite Hi, E.
Qed.

Lemma partition_assignment_witness :
  exists i b0 b1 b2 b3 rest,
    partition_index (py "2001:0db0:0000:0000:0000:0000:0000:0030") = Ok i
    /\ 0 <= i < NUM_PARTITIONS
    /\ hashlib.encode (py "2001:0db0:0000:0000:0000:0000:0000:0030")
       = Ok (py "2001:0db0:0000:0000:0000:0000:0000:0030")
    /\ hashlib.md5 (py "2001:0db0:0000:0000:0000:0000:0000:0030")
       = b0 :: b1 :: b2 :: b3 :: rest
    /\ i = (((b0 * 256 + b1) * 256 + b2) * 256 + b3) mod NUM_PARTITIONS
    /\ forall input_path temp_dir num_workers nw w files0 text cs,
         w_io w = None ->
         w_dirs w !! os.dirkey temp_dir = Some files0 ->
         (os.path_split input_path).1 <> os.dirkey temp_dir ->
         effective_workers w num_workers = Ok nw ->
         os.lookup_file input_path w = Some text ->
         canonical_lines (os.iter_lines text) = Ok cs ->
         py "2001:0db0:0000:0000:0000:0000:0000:0030" ∈ cs ->
         forall k, (k < Z.to_nat NUM_PARTITIONS)%nat ->
           exists t,
             os.lookup_file
               (os.path_join temp_dir (part_name (Z.of_nat k)))
               (run (count_unique_optimized input_path temp_dir num_workers)
                    w).2 = Some t
             /\ (py "2001:0db0:0000:0000:0000:0000:0000:0030" ++ [LF]
                   ∈ os.iter_lines t <-> Z.of_nat k = i).
Proof.
  apply (partition_assignment (py "2001:db0::30")).
  vm_compute. reflexivity.
Defined.

(** C9. Zero boundaries: on the empty file, and on a file whose lines are
    all blank after stripping, both engines return 0. *)
Theorem zero_boundaries (input_path temp_dir : str) (num_workers : Z)
    (w : World) (files0 : gmap str str) (text : str) :
  w_io w = None ->
  os.lookup_file input_path w = Some text ->
  text = [] \/ Forall (fun line => is_empty (strip line) = true)
                      (os.iter_lines text) ->
  w_dirs w !! os.dirkey temp_dir = Some files0 ->
  (os.path_split input_path).1 <> os.dirkey temp_dir ->
  valid_workers w num_workers ->
  (run (count_unique_basic input_path) w).1 = Ok 0
  /\ (run (count_unique_optimized input_path temp_dir num_workers) w).1 = Ok 0.
Proof.
  intros Hio Hf Hblank Hdir Hin Hv.
  assert (Hcs : canonical_lines (os.iter_lines text) = Ok []).
  { destruct Hblank as [->|Hb]; [done | by apply canonical_lines_blank]. }
  destruct (count_unique_optimized_spec input_path temp_dir num_workers w
              files0 Hio Hdir (outside_not_spill _ _ Hin)) as (files & -> & _).
  rewrite count_unique_basic_spec, optimized_result_valid by done.
  by rewrite Hf, Hcs.
Qed.

Lemma zero_boundaries_witness :
  (run (count_unique_basic (py "/data/in.txt"))
       (example_world [LF; 32; 32; CR; LF; 9; LF])).1 = Ok 0
  /\ (run (count_unique_optimized (py "/data/in.txt") (py "/tmp/t") 0)
          (example_world [LF; 32; 32; CR; LF; 9; LF])).1 = Ok 0.
Proof.
  apply (zero_boundaries (py "/data/in.txt") (py "/tmp/t") 0
           (example_world [LF; 32; 32; CR; LF; 9; LF]) ∅
           [LF; 32; 32; CR; LF; 9; LF]).
  - reflexivity.
  - vm_compute. reflexivity.
  - right. vm_compute. repeat constructor.
  - vm_compute. reflexivity.
  - vm_compute. discriminate.
  - right. split; [reflexivity | by exists 4].
Defined.

(** C4. Invalid addresses are fatal and atomic: when some non-blank line of
    the input has no canonical form, [main] ends with an error in every
    mode and in every world (whatever else fails), the file system is as it
    was before, so nothing is written to the output file, and each engine
    raises by itself: no such line is skipped. *)
Theorem invalid_address_fatal (args : Args) (w : World) (text line : str) :
  os.lookup_file (input_file args) w = Some text ->
  line ∈ os.iter_lines text ->
  is_empty (strip line) = false ->
  (forall c, ipv6_to_canonical (strip line) <> Ok c) ->
  (exists e w', run (main args) w = (Raise e, w')
                /\ w_dirs w' = w_dirs w
                /\ os.lookup_file (output_file args) w'
                   = os.lookup_file (output_file args) w)
  /\ fails (count_unique_basic (input_file args)) w
  /\ forall temp_dir num_workers,
       (os.path_split (input_file args)).1 <> os.dirkey temp_dir ->
       fails (count_unique_optimized (input_file args) temp_dir num_workers) w.
Proof.
  intros Hf Hl Hne Hbad.
  destruct (proj2 (canonical_lines_Raise (os.iter_lines text))) as [e He].
  { exists line. split; [done|]. split; [done|].
    destruct (ipv6_to_canonical (strip line)) as [c|e]; [|by exists e].
    by destruct (Hbad c). }
  split; [|split].
  - destruct (main_fails args w text e Hf He) as (e' & w' & E & Hd).
    exists e', w'. split; [done|]. split; [done|].
    unfold os.lookup_file. by rewrite Hd.
  - by eapply count_unique_basic_fails.
  - intros temp_dir num_workers Hin.
    by eapply count_unique_optimized_fails.
Qed.

Lemma invalid_address_fatal_witness :
  (exists e w',
     run (main {| input_file := py "/data/in.txt";
                  output_file := py "/data/out.txt";
                  optimized := true; basic := false; workers := 2 |})
         (example_world (py "::1" ++ [LF] ++ py "2001:db8::g" ++ [LF]))
     = (Raise e, w')
     /\ w_dirs w'
        = w_dirs (example_world (py "::1" ++ [LF] ++ py "2001:db8::g" ++ [LF]))
     /\ os.lookup_file (py "/data/out.txt") w'
        = os.lookup_file (py "/data/out.txt")
            (example_world (py "::1" ++ [LF] ++ py "2001:db8::g" ++ [LF])))
  /\ fails (count_unique_basic (py "/data/in.txt"))
           (example_world (py "::1" ++ [LF] ++ py "2001:db8::g" ++ [LF]))
  /\ forall temp_dir num_workers,
       (os.path_split (py "/data/in.txt")).1 <> os.dirkey temp_dir ->
       fails (count_unique_optimized (py "/data/in.txt") temp_dir num_workers)
             (example_world (py "::1" ++ [LF] ++ py "2001:db8::g" ++ [LF])).
Proof.
  apply (invalid_address_fatal
           {| input_file := py "/data/in.txt";
              output_file := py "/data/out.txt";
              optimized := true; basic := false; workers := 2 |}
           (example_world (py "::1" ++ [LF] ++ py "2001:db8::g" ++ [LF]))
           (py "::1" ++ [LF] ++ py "2001:db8::g" ++ [LF])
           (py "2001:db8::g" ++ [LF])).
  - vm_compute. reflexivity.
  - apply (bool_decide_unpack _). vm_compute. exact I.
  - vm_compute. reflexivity.
  - intros c. vm_compute. discriminate.
Defined.

(** C7. Guaranteed cleanup: take the directory [d] that [mkdtemp] hands
    out in the world [main] starts in.  When [main] is over, in any mode
    and however it ends (a result, a line that does not parse, an I/O
    fault in a spill file or in a counting task), [d] does not exist and
    none of its spill files does, and the directories are those [main]
    found, up to the output file.  With [--optimized], [main] is the
    engine run in [d], followed on both exits by the removal of [d]; the
    engine itself removes nothing: when it returns without fault, all its
    spill files are still there.  (The removal itself is taken to
    succeed, as [TemporaryDirectory] is modelled.) *)
Theorem guaranteed_cleanup (args : Args) (w w1 : World) (d : str) :
  run tempfile.mkdtemp w = (Ok d, w1) ->
  let w' := (run (main args) w).2 in
  (w_dirs w' !! os.dirkey d = None
   /\ forall p, p ∈ partition_paths d -> os.lookup_file p w' = None)
  /\ (w_dirs w' = w_dirs w
      \/ exists t, w_dirs w' = w_dirs (os.store_file (output_file args) t w))
  /\ forall text,
       basic args = false -> optimized args = true ->
       os.lookup_file (input_file args) w = Some text ->
       run (main args) w
       = leave_block d (output_file args)
           (run (count_unique_optimized (input_file args) d (workers args))
                w1)
       /\ forall cs,
            w_io w = None -> valid_workers w (workers args) ->
            canonical_lines (os.iter_lines text) = Ok cs ->
            forall p, p ∈ partition_paths d ->
              is_Some (os.lookup_file p
                (run (count_unique_optimized (input_file args) d
                        (workers args)) w1).2).
Proof.
  intros Hm w'.
  pose proof (mkdtemp_spec w) as Hs. rewrite Hm in Hs.
  destruct Hs as (_ & Hnew & _).
  pose proof (main_dirs args w) as Hd. cbv zeta in Hd. fold w' in Hd.
  assert (Hgone : w_dirs w' !! os.dirkey d = None).
  { destruct Hd as [->|[t ->]]; [done | by apply store_file_no_dir]. }
  split; [split; [done|]|split; [done|]].
  - intros p Hp. pose proof (partition_paths_inside d) as Hin.
    rewrite Forall_forall in Hin. specialize (Hin p Hp).
    unfold os.lookup_file. unfold inside in Hin.
    destruct (os.path_split p) as [dd n]. simpl in Hin. subst dd.
    by rewrite Hgone.
  - intros text Hb Ho Hf. split.
    + unfold leave_block. by eapply main_optimized_unfold.
    + intros cs Hio Hv Hcs. by eapply spill_files_left.
Qed.

Lemma guaranteed_cleanup_witness :
  (w_dirs (run (main example_args) (example_world (py "::1"))).2
     !! os.dirkey (py "/tmp/ipv6_count_a") = None
   /\ forall p, p ∈ partition_paths (py "/tmp/ipv6_count_a") ->
        os.lookup_file p (run (main example_args) (example_world (py "::1"))).2
        = None)
  /\ (w_dirs (run (main example_args) (example_world (py "::1"))).2
      = w_dirs (example_world (py "::1"))
      \/ exists t,
           w_dirs (run (main example_args) (example_world (py "::1"))).2
           = w_dirs (os.store_file (output_file example_args) t
                       (example_world (py "::1"))))
  /\ forall text,
       basic example_args = false -> optimized example_args = true ->
       os.lookup_file (input_file example_args) (example_world (py "::1"))
       = Some text ->
       run (main example_args) (example_world (py "::1"))
       = leave_block (py "/tmp/ipv6_count_a") (output_file example_args)
           (run (count_unique_optimized (input_file example_args)
                   (py "/tmp/ipv6_count_a") (workers example_args))
                (run tempfile.mkdtemp (example_world (py "::1"))).2)
       /\ forall cs,
            w_io (example_world (py "::1")) = None ->
            valid_workers (example_world (py "::1")) (workers example_args) ->
            canonical_lines (os.iter_lines text) = Ok cs ->
            forall p, p ∈ partition_paths (py "/tmp/ipv6_count_a") ->
              is_Some (os.lookup_file p
                (run (count_unique_optimized (input_file example_args)
                        (py "/tmp/ipv6_count_a") (workers example_args))
                     (run tempfile.mkdtemp (example_world (py "::1"))).2).2).
Proof.
  apply (guaranteed_cleanup example_args (example_world (py "::1"))
           (run tempfile.mkdtemp (example_world (py "::1"))).2
           (py "/tmp/ipv6_count_a")).
  vm_compute. reflexivity.
Defined.

(** C10. Flag precedence: with [--basic], [main] is the in-memory pipeline
    (check the input, count with [count_unique_basic], write the count),
    whatever [--optimized], [--workers] and the size of the input are, and
    no temporary directory is asked for. *)
Theorem basic_takes_precedence (args : Args) (w : World) :
  basic args = true ->
  run (main args) w
  = run (found ← os.isfile (input_file args);
         if negb found then raise SystemExit else
         count ← count_unique_basic (input_file args);
         _ ← os.open_w (output_file args);
         os.write (output_file args) (format_d count)) w
  /\ w_tmp (run (main args) w).2 = w_tmp w.
Proof.
  intros Hb. split.
  - rewrite main_unfold. unfold count_of. by rewrite Hb.
  - by destruct (keeps_main_basic args Hb w) as (_ & ? & _).
Qed.

Lemma basic_takes_precedence_witness :
  let args := {| input_file := py "/data/in.txt";
                 output_file := py "/data/out.txt";
                 optimized := true; basic := true; workers := 0 |} in
  run (main args) (example_world (py "::1"))
  = run (found ← os.isfile (input_file args);
         if negb found then raise SystemExit else
         count ← count_unique_basic (input_file args);
         _ ← os.open_w (output_file args);
         os.write (output_file args) (format_d count))
        (example_world (py "::1"))
  /\ w_tmp (run (main args) (example_world (py "::1"))).2
     = w_tmp (example_world (py "::1")).
Proof.
  apply (basic_takes_precedence
           {| input_file := py "/data/in.txt";
              output_file := py "/data/out.txt";
              optimized := true; basic := true; workers := 0 |}).
  reflexivity.
Defined.

(** The canonical lines of the example input of C3. *)
Definition example_canonical : list str :=
  [py "2001:0db0:0000:0000:0000:0000:0000:0030";
   py "0000:0000:0000:0000:0000:0000:0000:0001"].

(** C3. Partitioning is complete and non-duplicating: when every
    non-blank line of the input has a canonical form, the partitioned
    engine leaves in spill file [k], for each [k] below 4096, exactly the
    canonical lines whose partition index is [k], in input order and as
    often as they occur; every canonical line has one partition, so it is
    in that spill file and in no other, and the spill files read together
    are the canonical lines of the input, none dropped and none added. *)
Theorem partitioning_complete (input_path temp_dir : str) (num_workers : Z)
    (w : World) (files0 : gmap str str) (nw : Z) (text : str)
    (cs : list str) :
  w_io w = None ->
  w_dirs w !! os.dirkey temp_dir = Some files0 ->
  (os.path_split input_path).1 <> os.dirkey temp_dir ->
  effective_workers w num_workers = Ok nw ->
  os.lookup_file input_path w = Some text ->
  canonical_lines (os.iter_lines text) = Ok cs ->
  let w' := (run (count_unique_optimized input_path temp_dir num_workers) w).2
  in
  (forall k, (k < Z.to_nat NUM_PARTITIONS)%nat ->
     exists t,
       os.lookup_file (os.path_join temp_dir (part_name (Z.of_nat k))) w'
       = Some t
       /\ os.iter_lines t
          = (fun c => c ++ [LF])
            <$> filter (fun c => partition_index c = Ok (Z.of_nat k)) cs)
  /\ (forall c, c ∈ cs ->
        exists k, (k < Z.to_nat NUM_PARTITIONS)%nat
          /\ partition_index c = Ok (Z.of_nat k)
          /\ c ∈ part k cs /\ forall j, c ∈ part j cs -> j = k)
  /\ concat ((fun k => part k cs) <$> seq 0 (Z.to_nat NUM_PARTITIONS)) ≡ₚ cs.
Proof.
  intros Hio Hdir Hin Hnw Hf Hcs w'.
  pose proof (canonical_lines_valid _ _ Hcs) as Hvalid.
  destruct (count_unique_optimized_spills input_path temp_dir num_workers w
              files0 nw text cs Hio Hdir Hin Hnw Hf Hcs)
    as (files & E & Hs & _).
  subst w'. rewrite E. cbn [snd]. split; [|split].
  - intros k Hk. exists (spill_text (part k cs)). split.
    + by apply (lookup_spill_file temp_dir w files _ k Hs).
    + apply iter_lines_spill.
      eapply Forall_impl; [apply (part_canonical cs Hvalid k)|].
      by intros y [_ ?].
  - intros c Hc. apply part_unique; [|done].
    rewrite Forall_forall in Hvalid. by apply Hvalid.
  - by apply parts_permutation.
Qed.

Lemma partitioning_complete_witness :
  (forall k, (k < Z.to_nat NUM_PARTITIONS)%nat ->
     exists t,
       os.lookup_file (os.path_join (py "/tmp/t") (part_name (Z.of_nat k)))
         (run (count_unique_optimized (py "/data/in.txt") (py "/tmp/t") 2)
              (example_world (py "2001:db0::30" ++ [LF; LF] ++ py "::1"))).2
       = Some t
       /\ os.iter_lines t
          = (fun c => c ++ [LF])
            <$> filter (fun c => partition_index c = Ok (Z.of_nat k))
                  example_canonical)
  /\ (forall c, c ∈ example_canonical ->
        exists k, (k < Z.to_nat NUM_PARTITIONS)%nat
          /\ partition_index c = Ok (Z.of_nat k)
          /\ c ∈ part k example_canonical
          /\ forall j, c ∈ part j example_canonical -> j = k)
  /\ concat ((fun k => part k example_canonical)
               <$> seq 0 (Z.to_nat NUM_PARTITIONS)) ≡ₚ example_canonical.
Proof.
  apply (partitioning_complete (py "/data/in.txt") (py "/tmp/t") 2
           (example_world (py "2001:db0::30" ++ [LF; LF] ++ py "::1"))
           ∅ 2 (py "2001:db0::30" ++ [LF; LF] ++ py "::1")
           example_canonical).
  - reflexivity.
  - vm_compute. reflexivity.
  - vm_compute. discriminate.
  - reflexivity.
  - vm_compute. reflexivity.
  - vm_compute. reflexivity.
Defined.

(** C6. Buffered-flush invariant.  Let the engine have created its spill
    files and read the lines [lines] of the input so far, all of them
    blank or valid.  Then, at the start of the next iteration,
    [buffer_size] is the number of characters buffered and is below the
    threshold of 8 MiB.  On the next valid line, the line is appended to
    the buffer of its partition; if the buffered total has then reached
    the threshold, every buffer is appended to its spill file (an empty
    buffer appends nothing), all buffers are emptied and [buffer_size] is
    0 again; otherwise no file changes.  At the end of the input the last
    flush appends every remaining buffer to its spill file; phase 1 of the
    engine is this loop over all lines of the input followed by that
    flush. *)
Theorem buffered_flush_invariant (temp_dir : str) (w : World)
    (files0 : gmap str str) (lines cs : list str) :
  w_io w = None ->
  w_dirs w !! os.dirkey temp_dir = Some files0 ->
  canonical_lines lines = Ok cs ->
  exists w1 buffer bsize w2 w4,
    run (for_each (fun _ p => os.open_w p) () (partition_paths temp_dir)) w
    = (Ok (), w1)
    /\ run (for_each (partition_step (partition_paths temp_dir))
                     (replicate (Z.to_nat NUM_PARTITIONS) [], 0) lines) w1
       = (Ok (buffer, bsize), w2)
    /\ bsize = buffered_bytes buffer /\ bsize < CHUNK_WRITE_SIZE
    /\ (forall line c,
          is_empty (strip line) = false ->
          ipv6_to_canonical (strip line) = Ok c ->
          exists j b w3,
            partition_index c = Ok (Z.of_nat j) /\ buffer !! j = Some b
            /\ run (partition_step (partition_paths temp_dir) (buffer, bsize)
                      line) w2
               = (Ok (if CHUNK_WRITE_SIZE
                         <=? buffered_bytes (<[j := b ++ [c ++ [LF]]]> buffer)
                      then (replicate (Z.to_nat NUM_PARTITIONS) [], 0)
                      else (<[j := b ++ [c ++ [LF]]]> buffer,
                            buffered_bytes (<[j := b ++ [c ++ [LF]]]> buffer))),
                  w3)
            /\ forall k, (k < Z.to_nat NUM_PARTITIONS)%nat ->
                 exists old,
                   os.lookup_file
                     (os.path_join temp_dir (part_name (Z.of_nat k))) w2
                   = Some old
                   /\ os.lookup_file
                        (os.path_join temp_dir (part_name (Z.of_nat k))) w3
                      = Some (if CHUNK_WRITE_SIZE
                                 <=? buffered_bytes
                                       (<[j := b ++ [c ++ [LF]]]> buffer)
                              then old ++ concat (default []
                                     (<[j := b ++ [c ++ [LF]]]> buffer !! k))
                              else old))
    /\ run (flush false (partition_paths temp_dir) buffer) w2 = (Ok buffer, w4)
    /\ (forall k, (k < Z.to_nat NUM_PARTITIONS)%nat ->
          exists old,
            os.lookup_file
              (os.path_join temp_dir (part_name (Z.of_nat k))) w2 = Some old
            /\ os.lookup_file
                 (os.path_join temp_dir (part_name (Z.of_nat k))) w4
               = Some (old ++ concat (default [] (buffer !! k))))
    /\ (forall input_path text,
          (os.path_split input_path).1 <> os.dirkey temp_dir ->
          os.lookup_file input_path w = Some text ->
          lines = os.iter_lines text ->
          run (partition_phase input_path (partition_paths temp_dir)) w1
          = (Ok (), w4)).
Proof.
  intros Hio Hdir Hcs.
  destruct (partitioning_loop_state temp_dir w files0 lines cs Hio Hdir Hcs)
    as (files1 & buffer & bsize & files2 & Hcreate & Hopen & Hloop & HI).
  destruct (create_spills temp_dir w Hio files0) as (files1' & Hc' & Hs1 & _).
  rewrite (with_dir_id _ files0 w Hdir) in Hc'.
  assert (files1' = files1) as ->.
  { rewrite Hcreate in Hc'. inversion Hc' as [E].
    apply (f_equal (fun m => m !! os.dirkey temp_dir)) in E.
    rewrite !lookup_insert_eq in E. by inversion E. }
  pose proof HI as (Hlen & Hsize & Hlt & g & Hs2 & Hg).
  destruct (flush_spec temp_dir w Hio false buffer files2 g Hlen Hs2)
    as (files4 & Hflush & Hs4 & _).
  exists (with_dir (os.dirkey temp_dir) files1 w), buffer, bsize,
         (with_dir (os.dirkey temp_dir) files2 w),
         (with_dir (os.dirkey temp_dir) files4 w).
  split; [done|]. split; [done|]. split; [done|]. split; [done|].
  split; [|split; [done|split]].
  - intros line c Hne Hc.
    destruct (partition_step_valid temp_dir w Hio cs buffer bsize files2 line c
                HI Hne Hc)
      as (j & b & buffer' & bsize' & files3 & Hj & HjP & Hb & Hrun & _ & _ & Hcase).
    exists j, b, (with_dir (os.dirkey temp_dir) files3 w).
    split; [done|]. split; [done|]. cbv zeta in Hcase.
    destruct (CHUNK_WRITE_SIZE <=? _) eqn:E.
    + destruct Hcase as (-> & -> & Hfiles). split; [done|].
      intros k Hk. destruct (Hfiles k Hk) as (old & Ho & Hn).
      exists old. change (part_name (Z.of_nat k)) with (spill_name k).
      by rewrite !lookup_spill.
    + destruct Hcase as (-> & -> & ->). split; [done|].
      intros k Hk. exists (g k). change (part_name (Z.of_nat k)) with (spill_name k).
      rewrite !lookup_spill. split; by apply Hs2.
  - intros k Hk. exists (g k). change (part_name (Z.of_nat k)) with (spill_name k).
    rewrite !lookup_spill. split; [by apply Hs2 | by apply Hs4].
  - intros input_path text Hin Hf ->.
    by eapply partition_phase_run.
Qed.

Lemma buffered_flush_invariant_witness :
  exists w1 buffer bsize w2 w4,
    run (for_each (fun _ p => os.open_w p) () (partition_paths (py "/tmp/t")))
        (example_world (py "::1"))
    = (Ok (), w1)
    /\ run (for_each (partition_step (partition_paths (py "/tmp/t")))
                     (replicate (Z.to_nat NUM_PARTITIONS) [], 0) [py "::1" ++ [LF]]) w1
       = (Ok (buffer, bsize), w2)
    /\ bsize = buffered_bytes buffer /\ bsize < CHUNK_WRITE_SIZE
    /\ (forall line c,
          is_empty (strip line) = false ->
          ipv6_to_canonical (strip line) = Ok c ->
          exists j b w3,
            partition_index c = Ok (Z.of_nat j) /\ buffer !! j = Some b
            /\ run (partition_step (partition_paths (py "/tmp/t")) (buffer, bsize)
                      line) w2
               = (Ok (if CHUNK_WRITE_SIZE
                         <=? buffered_bytes (<[j := b ++ [c ++ [LF]]]> buffer)
                      then (replicate (Z.to_nat NUM_PARTITIONS) [], 0)
                      else (<[j := b ++ [c ++ [LF]]]> buffer,
                            buffered_bytes (<[j := b ++ [c ++ [LF]]]> buffer))),
                  w3)
            /\ forall k, (k < Z.to_nat NUM_PARTITIONS)%nat ->
                 exists old,
                   os.lookup_file
                     (os.path_join (py "/tmp/t") (part_name (Z.of_nat k))) w2
                   = Some old
                   /\ os.lookup_file
                        (os.path_join (py "/tmp/t") (part_name (Z.of_nat k))) w3
                      = Some (if CHUNK_WRITE_SIZE
                                 <=? buffered_bytes
                                       (<[j := b ++ [c ++ [LF]]]> buffer)
                              then old ++ concat (default []
                                     (<[j := b ++ [c ++ [LF]]]> buffer !! k))
                              else old))
    /\ run (flush false (partition_paths (py "/tmp/t")) buffer) w2 = (Ok buffer, w4)
    /\ (forall k, (k < Z.to_nat NUM_PARTITIONS)%nat ->
          exists old,
            os.lookup_file
              (os.path_join (py "/tmp/t") (part_name (Z.of_nat k))) w2 = Some old
            /\ os.lookup_file
                 (os.path_join (py "/tmp/t") (part_name (Z.of_nat k))) w4
               = Some (old ++ concat (default [] (buffer !! k))))
    /\ (forall input_path text,
          (os.path_split input_path).1 <> os.dirkey (py "/tmp/t") ->
          os.lookup_file input_path (example_world (py "::1")) = Some text ->
          [py "::1" ++ [LF]] = os.iter_lines text ->
          run (partition_phase input_path (partition_paths (py "/tmp/t"))) w1
          = (Ok (), w4)).
Proof.
  apply (buffered_flush_invariant (py "/tmp/t") (example_world (py "::1")) ∅
           [py "::1" ++ [LF]] [py "0000:0000:0000:0000:0000:0000:0000:0001"]).
  - reflexivity.
  - vm_compute. reflexivity.
  - vm_compute. reflexivity.
Defined.

(** A command line that asks for the in-memory engine. *)
Definition example_args_basic : Args :=
  {| input_file := py "/data/in.txt"; output_file := py "/data/out.txt";
     optimized := false; basic := true; workers := 0 |}.

(** C8. Worker-count independence and idempotence.  The result of the
    partitioned engine is the same for any two usable numbers of workers
    (positive, or 0 with a known CPU count), also between worlds that
    differ in the number of CPUs and in the order in which the counting
    tasks finish; a negative number names no pool, and the engine then
    returns no count.  And when [main] has run to its end, and runs to its
    end again on an input that is still what it was, the output file holds
    the same text both times: the decimal count of the distinct canonical
    lines. *)
Theorem worker_independence_and_idempotence
    (input_path temp_dir : str) (nw1 nw2 : Z) (wa wb : World)
    (files0 : gmap str str) (args : Args) (w w1 w2 : World) :
  w_io wa = None -> w_io wb = None -> w_dirs wb = w_dirs wa ->
  w_dirs wa !! os.dirkey temp_dir = Some files0 ->
  (os.path_split input_path).1 <> os.dirkey temp_dir ->
  valid_workers wa nw1 -> valid_workers wb nw2 ->
  w_io w = None ->
  run (main args) w = (Ok (), w1) ->
  os.lookup_file (input_file args) w1 = os.lookup_file (input_file args) w ->
  run (main args) w1 = (Ok (), w2) ->
  (run (count_unique_optimized input_path temp_dir nw1) wa).1
  = (run (count_unique_optimized input_path temp_dir nw2) wb).1
  /\ (forall nw n, nw < 0 ->
        (run (count_unique_optimized input_path temp_dir nw) wa).1 <> Ok n)
  /\ os.lookup_file (output_file args) w2
     = os.lookup_file (output_file args) w1
  /\ exists text cs,
       os.lookup_file (input_file args) w = Some text
       /\ canonical_lines (os.iter_lines text) = Ok cs
       /\ os.lookup_file (output_file args) w1 = Some (format_d (distinct cs)).
Proof.
  intros Hioa Hiob Hd Hdir Hin Hv1 Hv2 Hio E1 Hsame E2.
  split; [by eapply workers_irrelevant|]. split.
  - intros nw n Hneg.
    destruct (count_unique_optimized_spec input_path temp_dir nw wa files0
                Hioa Hdir (outside_not_spill _ _ Hin)) as (fa & -> & _).
    cbn [fst]. by apply optimized_result_negative.
  - destruct (main_twice args w w1 w2 Hio E1 Hsame E2)
      as (text & cs & Hf & Hcs & Ho1 & Ho2).
    split; [by rewrite Ho1, Ho2|]. by exists text, cs.
Qed.

Lemma worker_independence_and_idempotence_witness :
  (run (count_unique_optimized (py "/data/in.txt") (py "/tmp/t") 1)
       (example_world (py "::1"))).1
  = (run (count_unique_optimized (py "/data/in.txt") (py "/tmp/t") 4)
         (example_world (py "::1"))).1
  /\ (forall nw n, nw < 0 ->
        (run (count_unique_optimized (py "/data/in.txt") (py "/tmp/t") nw)
             (example_world (py "::1"))).1 <> Ok n)
  /\ os.lookup_file (output_file example_args_basic)
       (run (main example_args_basic)
            (run (main example_args_basic) (example_world (py "::1"))).2).2
     = os.lookup_file (output_file example_args_basic)
         (run (main example_args_basic) (example_world (py "::1"))).2
  /\ exists text cs,
       os.lookup_file (input_file example_args_basic)
         (example_world (py "::1")) = Some text
       /\ canonical_lines (os.iter_lines text) = Ok cs
       /\ os.lookup_file (output_file example_args_basic)
            (run (main example_args_basic) (example_world (py "::1"))).2
          = Some (format_d (distinct cs)).
Proof.
  apply (worker_independence_and_idempotence
           (py "/data/in.txt") (py "/tmp/t") 1 4
           (example_world (py "::1")) (example_world (py "::1")) ∅
           example_args_basic (example_world (py "::1"))
           (run (main example_args_basic) (example_world (py "::1"))).2
           (run (main example_args_basic)
                (run (main example_args_basic)
                     (example_world (py "::1"))).2).2).
  - reflexivity.
  - reflexivity.
  - reflexivity.
  - vm_compute. reflexivity.
  - vm_compute. discriminate.
  - left. lia.
  - left. lia.
  - reflexivity.
  - vm_compute. reflexivity.
  - vm_compute. reflexivity.
  - vm_compute. reflexivity.
Defined.
